(** * Contraction schemes of multilevel graphs

    A shallow embedding of [ContractionScheme]
    (multilevel_graphs/contraction_schemes/contraction_scheme.py): the
    scheme object, the objects it shares with the graph it builds, and the
    methods [update], [_get_supernode_id], [_get_component_set_id],
    [contract], [is_valid], [invalidate], [_make_dec_graph] and
    [update_attr].

    Python objects that are reachable through more than one reference
    (supernodes, decontractible graphs) live in stores addressed by
    references; everything a method mutates is threaded through a state and
    exception monad that also records the calls made to the abstract hooks
    and the identifiers handed out by the two counters. *)

From stdpp Require Import gmap strings pretty list fin_maps.

(** ** Identifiers, keys and exceptions *)

(** References to heap objects. *)
Abbreviation Addr := positive (only parsing).

(** Attribute maps ([**attr] dictionaries). *)
Abbreviation attrs := (gmap string string) (only parsing).

(** A grouping signature: a frozenset of component sets, each component set
    standing for its value (its members). *)
Abbreviation Sig := (gset (gset string)) (only parsing).

(** Python's [str] on integers. *)
Definition str (z : Z) : string := pretty z.

(** [str(level) + "_" + contraction_name + "_" + str(id)]. *)
Definition supernode_key (lvl : Z) (name : string) (id : Z) : string :=
  str lvl +:+ "_" +:+ name +:+ "_" +:+ str id.

Inductive Exn : Type :=
  | DuplicateKey
  | DanglingEndpoint
  | InconsistentUpdate
  | AttributeError
  | StrategyFailure (msg : string).

Global Instance Exn_eq_dec : EqDecision Exn.
Proof. solve_decision. Defined.

(** ** Data model *)

(** Lower-level nodes and edges are referred to by their keys: a node by its
    key, an edge by the pair (tail key, head key). *)

(** Modelled from the spec: [ComponentSet] (not among the sources): an
    identified group of lower-level nodes with a decoration map; component
    sets are compared by their members, not by their id. *)
Record ComponentSet : Type := mkComponentSet {
  cs_key : Z;
  cs_nodes : gset string;
  cs_attr : attrs
}.

(** Modelled from the spec: [DecTable] (not among the sources): the mapping
    from each lower-level node to the component sets it belongs to, as the
    rows [for node, set_of_sets in dec_table] yields them, in that order. *)
Abbreviation DecTable := (list (string * list ComponentSet)) (only parsing).

(** [frozenset(set_of_sets)], with component sets compared by value. *)
Definition frozenset (set_of_sets : list ComponentSet) : gset (gset string) :=
  list_to_set (cs_nodes <$> set_of_sets).

(** Modelled from the spec: [UpdateQuadruple] (not among the sources): four
    sets, each given as the sequence its iteration yields. *)
Record UpdateQuadruple : Type := mkQuadruple {
  v_plus : list string;
  v_minus : list string;
  e_plus : list (string * string);
  e_minus : list (string * string)
}.

Definition empty_quadruple : UpdateQuadruple := mkQuadruple [] [] [] [].

(** The graph handed to [contract]: the nodes and the edges of the level
    below, the edges in the order [dec_graph.edges()] yields them. *)
Record LowerGraph : Type := mkLowerGraph {
  lg_nodes : list string;
  lg_edges : list (string * string)
}.

(** Modelled from the spec: the decontractible graph a [Supernode] owns
    (its [dec]): the lower-level nodes and edges collapsed into it. *)
Record InnerGraph : Type := mkInnerGraph {
  ig_V : gset string;
  ig_E : gset (string * string)
}.

(** Modelled from the spec: [Supernode] (not among the sources). *)
Record Supernode : Type := mkSupernode {
  sn_key : string;
  sn_level : Z;
  sn_set_of_sets : gset (gset string);
  sn_dec : InnerGraph;
  sn_attr : attrs
}.

(** Modelled from the spec: [Superedge] (not among the sources); [se_tail]
    and [se_head] are references to supernode objects, [se_dec] the
    lower-level edges it aggregates. *)
Record Superedge : Type := mkSuperedge {
  se_tail : Addr;
  se_head : Addr;
  se_level : Z;
  se_dec : gset (string * string);
  se_attr : attrs
}.

(** Modelled from the spec: [DecGraph] (not among the sources): node key to
    node, (tail key, head key) to edge. *)
Record DecGraph : Type := mkDecGraph {
  V : gmap string Addr;
  E : gmap (string * string) Superedge
}.

(** The attributes of a [ContractionScheme] instance. *)
Record Scheme : Type := mkScheme {
  level : Z;
  dec_graph : option Addr;
  contraction_sets_table : option (list (string * list ComponentSet));
  supernode_table : gmap (gset (gset string)) Addr;
  update_quadruple : UpdateQuadruple;
  _supernode_id_counter : Z;
  _component_set_id_counter : Z;
  _valid : bool
}.

(** Everything the methods can read or write: the scheme itself, the store
    of [DecGraph] objects, the store of [Supernode] objects, and the
    [supernode] back-reference of every lower-level node. *)
Record World : Type := mkWorld {
  self : Scheme;
  graphs : gmap Addr DecGraph;
  supernodes : gmap Addr Supernode;
  node_supernode : gmap string Addr
}.

(** [ContractionScheme.__init__]. *)
Definition init : Scheme :=
  {| level := 0;
     dec_graph := None;
     contraction_sets_table := None;
     supernode_table := ∅;
     update_quadruple := empty_quadruple;
     _supernode_id_counter := 0;
     _component_set_id_counter := 0;
     _valid := false |}.

Definition init_world : World :=
  {| self := init; graphs := ∅; supernodes := ∅; node_supernode := ∅ |}.

(** Field updates. *)
Definition set_self (f : Scheme → Scheme) (w : World) : World :=
  {| self := f (self w); graphs := graphs w;
     supernodes := supernodes w; node_supernode := node_supernode w |}.

Definition set_graphs (f : gmap Addr DecGraph → gmap Addr DecGraph)
    (w : World) : World :=
  {| self := self w; graphs := f (graphs w);
     supernodes := supernodes w; node_supernode := node_supernode w |}.

Definition set_supernodes (f : gmap Addr Supernode → gmap Addr Supernode)
    (w : World) : World :=
  {| self := self w; graphs := graphs w;
     supernodes := f (supernodes w); node_supernode := node_supernode w |}.

Definition set_node_supernode (f : gmap string Addr → gmap string Addr)
    (w : World) : World :=
  {| self := self w; graphs := graphs w;
     supernodes := supernodes w; node_supernode := f (node_supernode w) |}.

Definition with_dec_graph (g : option Addr) (s : Scheme) : Scheme :=
  {| level := level s; dec_graph := g;
     contraction_sets_table := contraction_sets_table s;
     supernode_table := supernode_table s;
     update_quadruple := update_quadruple s;
     _supernode_id_counter := _supernode_id_counter s;
     _component_set_id_counter := _component_set_id_counter s;
     _valid := _valid s |}.

Definition with_contraction_sets_table
    (t : option (list (string * list ComponentSet))) (s : Scheme) : Scheme :=
  {| level := level s; dec_graph := dec_graph s;
     contraction_sets_table := t;
     supernode_table := supernode_table s;
     update_quadruple := update_quadruple s;
     _supernode_id_counter := _supernode_id_counter s;
     _component_set_id_counter := _component_set_id_counter s;
     _valid := _valid s |}.

Definition with_supernode_table (t : gmap (gset (gset string)) Addr)
    (s : Scheme) : Scheme :=
  {| level := level s; dec_graph := dec_graph s;
     contraction_sets_table := contraction_sets_table s;
     supernode_table := t;
     update_quadruple := update_quadruple s;
     _supernode_id_counter := _supernode_id_counter s;
     _component_set_id_counter := _component_set_id_counter s;
     _valid := _valid s |}.

Definition with_supernode_id_counter (c : Z) (s : Scheme) : Scheme :=
  {| level := level s; dec_graph := dec_graph s;
     contraction_sets_table := contraction_sets_table s;
     supernode_table := supernode_table s;
     update_quadruple := update_quadruple s;
     _supernode_id_counter := c;
     _component_set_id_counter := _component_set_id_counter s;
     _valid := _valid s |}.

Definition with_component_set_id_counter (c : Z) (s : Scheme) : Scheme :=
  {| level := level s; dec_graph := dec_graph s;
     contraction_sets_table := contraction_sets_table s;
     supernode_table := supernode_table s;
     update_quadruple := update_quadruple s;
     _supernode_id_counter := _supernode_id_counter s;
     _component_set_id_counter := c;
     _valid := _valid s |}.

Definition with_valid (b : bool) (s : Scheme) : Scheme :=
  {| level := level s; dec_graph := dec_graph s;
     contraction_sets_table := contraction_sets_table s;
     supernode_table := supernode_table s;
     update_quadruple := update_quadruple s;
     _supernode_id_counter := _supernode_id_counter s;
     _component_set_id_counter := _component_set_id_counter s;
     _valid := b |}.

(** ** Observable events *)

(** The calls [update] makes to the four abstract hooks. *)
Inductive HookCall : Type :=
  | RemovedEdge (e : string * string)
  | RemovedNode (n : string)
  | AddedNode (n : string)
  | AddedEdge (e : string * string).

Inductive Event : Type :=
  | EvHook (c : HookCall)
  | EvSupernodeId (id : Z)
  | EvComponentSetId (id : Z).

(** ** The state and exception monad *)

(** A computation runs from a world to the events it produced, the world it
    left, and either the raised exception or its result.  An exception
    leaves the world as it was when it was raised. *)
Definition M (A : Type) : Type := World → list Event * World * (Exn + A).

Definition ret {A} (a : A) : M A := λ w, ([], w, inr a).

Definition raise {A} (e : Exn) : M A := λ w, ([], w, inl e).

Definition bind {A B} (m : M A) (k : A → M B) : M B := λ w,
  match m w with
  | (t1, w1, inl e) => (t1, w1, inl e)
  | (t1, w1, inr a) =>
      match k a w1 with
      | (t2, w2, r) => (t1 ++ t2, w2, r)
      end
  end.

Declare Scope scheme_scope.
Delimit Scope scheme_scope with scheme.
Notation "'do' x <- m ; k" := (bind m (λ x, k))
  (at level 10, x name, m at level 100, k at level 200) : scheme_scope.
Notation "m ;; k" := (bind m (λ _, k))
  (at level 100, k at level 200, right associativity) : scheme_scope.
Local Open Scope scheme_scope.

Definition get : M World := λ w, ([], w, inr w).
Definition modify (f : World → World) : M unit := λ w, ([], f w, inr tt).
Definition emit (ev : Event) : M unit := λ w, ([ev], w, inr tt).

(** [for x in l: body(x)]; the loop stops at the first exception. *)
Fixpoint for_each {X} (l : list X) (body : X → M unit) : M unit :=
  match l with
  | [] => ret tt
  | x :: l' => body x ;; for_each l' body
  end.

(** Projections of a run. *)
Definition events_of {A} (r : list Event * World * (Exn + A)) : list Event :=
  r.1.1.
Definition world_of {A} (r : list Event * World * (Exn + A)) : World :=
  r.1.2.
Definition outcome_of {A} (r : list Event * World * (Exn + A)) : Exn + A :=
  r.2.

(** ** Operations of the graph model

    Modelled from the spec: the methods of [DecGraph], [Supernode] and
    [Superedge] that [ContractionScheme] calls (not among the sources).  A
    reference with no object behind it behaves like [None]. *)

(** [DecGraph()]: a new, empty graph object. *)
Definition new_DecGraph : M Addr := λ w,
  let a := fresh (dom (graphs w)) in
  ([], set_graphs <[a := mkDecGraph ∅ ∅]> w, inr a).

(** [Supernode(key=..., level=..., set_of_sets=...)]: a new supernode object
    with an empty inner graph and no attributes. *)
Definition new_Supernode (key : string) (lvl : Z) (sos : gset (gset string))
    : M Addr := λ w,
  let a := fresh (dom (supernodes w)) in
  ([], set_supernodes <[a := mkSupernode key lvl sos (mkInnerGraph ∅ ∅) ∅]> w,
   inr a).

(** [graph.add_node(supernode)]: fails with [DuplicateKey] when the key is
    taken. *)
Definition DecGraph_add_node (graph supernode : Addr) : M unit :=
  do w <- get;
  match graphs w !! graph, supernodes w !! supernode with
  | Some g, Some sn =>
      if decide (is_Some (V g !! sn_key sn)) then raise DuplicateKey
      else modify (set_graphs
                     <[graph := mkDecGraph (<[sn_key sn := supernode]> (V g))
                                           (E g)]>)
  | _, _ => raise AttributeError
  end.

(** A supernode with its inner graph replaced. *)
Definition with_sn_dec (d : InnerGraph) (sn : Supernode) : Supernode :=
  mkSupernode (sn_key sn) (sn_level sn) (sn_set_of_sets sn) d (sn_attr sn).

Definition InnerGraph_add_node (node : string) (d : InnerGraph)
    : InnerGraph :=
  mkInnerGraph ({[node]} ∪ ig_V d) (ig_E d).

Definition InnerGraph_add_edge (edge : string * string) (d : InnerGraph)
    : InnerGraph :=
  mkInnerGraph (ig_V d) ({[edge]} ∪ ig_E d).

(** [supernode.add_node(node)]: inserts the node into the supernode's inner
    graph (failing with [DuplicateKey] when it is already there) and points
    the node's back-reference at the supernode. *)
Definition Supernode_add_node (supernode : Addr) (node : string) : M unit :=
  do w <- get;
  match supernodes w !! supernode with
  | Some sn =>
      if decide (node ∈ ig_V (sn_dec sn)) then raise DuplicateKey
      else
        modify (set_supernodes
          <[supernode :=
              with_sn_dec (InnerGraph_add_node node (sn_dec sn)) sn]>);;
        modify (set_node_supernode <[node := supernode]>)
  | None => raise AttributeError
  end.

(** [supernode.add_edge(edge)]: inserts the edge into the supernode's inner
    graph; fails with [DanglingEndpoint] when an endpoint is not a node of
    that graph and with [DuplicateKey] when the edge is already there. *)
Definition Supernode_add_edge (supernode : Addr) (edge : string * string)
    : M unit :=
  do w <- get;
  match supernodes w !! supernode with
  | Some sn =>
      if decide (edge.1 ∈ ig_V (sn_dec sn) ∧ edge.2 ∈ ig_V (sn_dec sn)) then
        if decide (edge ∈ ig_E (sn_dec sn)) then raise DuplicateKey
        else
          modify (set_supernodes
            <[supernode :=
                with_sn_dec (InnerGraph_add_edge edge (sn_dec sn)) sn]>)
      else raise DanglingEndpoint
  | None => raise AttributeError
  end.

(** [Superedge(tail, head, level=...)]. *)
Definition new_Superedge (tail head : Addr) (lvl : Z) : Superedge :=
  mkSuperedge tail head lvl ∅ ∅.

(** [superedge.add_edge(edge)]. *)
Definition Superedge_add_edge (se : Superedge) (edge : string * string)
    : Superedge :=
  mkSuperedge (se_tail se) (se_head se) (se_level se)
    ({[edge]} ∪ se_dec se) (se_attr se).

(** [entity.update] with keyword attributes: the new attributes are merged into the map. *)
Definition Supernode_update (new : attrs) (sn : Supernode) : Supernode :=
  mkSupernode (sn_key sn) (sn_level sn) (sn_set_of_sets sn) (sn_dec sn)
    (new ∪ sn_attr sn).

Definition Superedge_update (new : attrs) (se : Superedge) : Superedge :=
  mkSuperedge (se_tail se) (se_head se) (se_level se) (se_dec se)
    (new ∪ se_attr se).

Definition ComponentSet_update (new : attrs) (c : ComponentSet)
    : ComponentSet :=
  mkComponentSet (cs_key c) (cs_nodes c) (new ∪ cs_attr c).

(** ** The grouping strategy

    [contraction_function] is abstract.  An implementation builds the
    component sets of its table with identifiers it draws from
    [_get_component_set_id], and it may fail; a strategy is the tree of
    these interactions. *)
Inductive Strategy (A : Type) : Type :=
  | Return (a : A)
  | Raise (e : Exn)
  | NewComponentSetId (k : Z → Strategy A).
Arguments Return {A} a.
Arguments Raise {A} e.
Arguments NewComponentSetId {A} k.

(** ** The methods of [ContractionScheme] *)

(** [_get_supernode_id]. *)
Definition _get_supernode_id : M Z :=
  modify (set_self (λ s,
    with_supernode_id_counter (_supernode_id_counter s + 1) s));;
  do w <- get;
  emit (EvSupernodeId (_supernode_id_counter (self w)));;
  ret (_supernode_id_counter (self w)).

(** [_get_component_set_id]. *)
Definition _get_component_set_id : M Z :=
  modify (set_self (λ s,
    with_component_set_id_counter (_component_set_id_counter s + 1) s));;
  do w <- get;
  emit (EvComponentSetId (_component_set_id_counter (self w)));;
  ret (_component_set_id_counter (self w)).

(** Running a strategy against the scheme. *)
Fixpoint run_strategy {A} (s : Strategy A) : M A :=
  match s with
  | Return a => ret a
  | Raise e => raise e
  | NewComponentSetId k =>
      do id <- _get_component_set_id; run_strategy (k id)
  end.

(** [is_valid] and [invalidate]. *)
Definition is_valid : M bool :=
  do w <- get; ret (_valid (self w)).

Definition invalidate : M unit :=
  modify (set_self (with_valid false)).

Section ContractionScheme.

(** The abstract members a concrete scheme supplies, and the three
    decoration functions given to [__init__]. *)
Variable contraction_name : string.
Variable contraction_function :
  LowerGraph → Strategy (list (string * list ComponentSet)).
Variable update_added_node : string → World → World * (Exn + unit).
Variable update_removed_node : string → World → World * (Exn + unit).
Variable update_added_edge : string * string → World → World * (Exn + unit).
Variable update_removed_edge :
  string * string → World → World * (Exn + unit).
Variable _supernode_attr_function : Supernode → attrs.
Variable _superedge_attr_function : Superedge → attrs.
Variable _c_set_attr_function : gset string → attrs.

(** A call to one of the four hooks. *)
Definition hook_body (c : HookCall) : World → World * (Exn + unit) :=
  match c with
  | RemovedEdge e => update_removed_edge e
  | RemovedNode n => update_removed_node n
  | AddedNode n => update_added_node n
  | AddedEdge e => update_added_edge e
  end.

Definition call_hook (c : HookCall) : M unit := λ w,
  ([EvHook c], (hook_body c w).1, (hook_body c w).2).

(** [update]. *)
Definition update (q : UpdateQuadruple) : M (option Addr) :=
  for_each (e_minus q) (λ edge, call_hook (RemovedEdge edge));;
  for_each (v_minus q) (λ node, call_hook (RemovedNode node));;
  for_each (v_plus q) (λ node, call_hook (AddedNode node));;
  for_each (e_plus q) (λ edge, call_hook (AddedEdge edge));;
  do w <- get;
  ret (dec_graph (self w)).

(** The body of the first loop of [_make_dec_graph]. *)
Definition place_node (contracted_graph : Addr)
    (row : string * list ComponentSet) : M unit :=
  let node := row.1 in
  let f_set_of_sets := frozenset row.2 in
  do w <- get;
  do supernode <-
    match supernode_table (self w) !! f_set_of_sets with
    | None =>
        do id <- _get_supernode_id;
        do supernode <-
          new_Supernode
            (supernode_key (level (self w)) contraction_name id)
            (level (self w)) f_set_of_sets;
        modify (set_self (λ s,
          with_supernode_table
            (<[f_set_of_sets := supernode]> (supernode_table s)) s));;
        DecGraph_add_node contracted_graph supernode;;
        ret supernode
    | Some supernode => ret supernode
    end;
  Supernode_add_node supernode node;;
  modify (set_node_supernode <[node := supernode]>).

(** The body of the second loop of [_make_dec_graph]. *)
Definition place_edge (contracted_graph : Addr) (edge : string * string)
    : M unit :=
  let tail := edge.1 in
  let head := edge.2 in
  do w <- get;
  match node_supernode w !! tail ≫= (supernodes w !!.),
        node_supernode w !! head ≫= (supernodes w !!.),
        node_supernode w !! tail, node_supernode w !! head with
  | Some tail_sn, Some head_sn, Some tail_supernode, Some head_supernode =>
      if decide (sn_key tail_sn ≠ sn_key head_sn) then
        match graphs w !! contracted_graph with
        | Some g =>
            let k := (sn_key tail_sn, sn_key head_sn) in
            let se :=
              default (new_Superedge tail_supernode head_supernode
                         (level (self w))) (E g !! k) in
            modify (set_graphs
              <[contracted_graph :=
                  mkDecGraph (V g)
                    (<[k := Superedge_add_edge se edge]> (E g))]>)
        | None => raise AttributeError
        end
      else Supernode_add_edge tail_supernode edge
  | _, _, _, _ => raise AttributeError
  end.

(** [_make_dec_graph]. *)
Definition _make_dec_graph (dec_table : list (string * list ComponentSet))
    (dec_graph : LowerGraph) : M Addr :=
  modify (set_self (with_supernode_table ∅));;
  do contracted_graph <- new_DecGraph;
  for_each dec_table (place_node contracted_graph);;
  for_each (lg_edges dec_graph) (place_edge contracted_graph);;
  ret contracted_graph.

(** [update_attr]. *)
Definition decorate_supernode (supernode : Addr) : M unit :=
  modify (set_supernodes (alter (λ sn,
    Supernode_update (_supernode_attr_function sn) sn) supernode)).

Definition decorate_superedge (graph : Addr) (k : string * string)
    : M unit :=
  modify (set_graphs (alter (λ g,
    mkDecGraph (V g)
      (alter (λ se, Superedge_update (_superedge_attr_function se) se)
         k (E g))) graph)).

Definition decorate_c_set (c : ComponentSet) : ComponentSet :=
  ComponentSet_update (_c_set_attr_function (cs_nodes c)) c.

Definition decorate_table (t : list (string * list ComponentSet))
    : list (string * list ComponentSet) :=
  (λ row : string * list ComponentSet,
     (row.1, decorate_c_set <$> row.2)) <$> t.

Definition update_attr : M unit :=
  do w <- get;
  match dec_graph (self w) with
  | Some ga =>
      match graphs w !! ga with
      | Some g =>
          for_each (map_to_list (V g)).*2 decorate_supernode;;
          for_each (map_to_list (E g)).*1 (decorate_superedge ga);;
          match contraction_sets_table (self w) with
          | Some t =>
              modify (set_self (with_contraction_sets_table
                                  (Some (decorate_table t))))
          | None => raise AttributeError
          end
      | None => raise AttributeError
      end
  | None => raise AttributeError
  end.

(** [contract]. *)
Definition contract (dec_graph_arg : LowerGraph) : M (option Addr) :=
  do t <- run_strategy (contraction_function dec_graph_arg);
  modify (set_self (with_contraction_sets_table (Some t)));;
  do g <- _make_dec_graph t dec_graph_arg;
  modify (set_self (with_dec_graph (Some g)));;
  update_attr;;
  modify (set_self (with_valid true));;
  do w <- get;
  ret (dec_graph (self w)).

End ContractionScheme.

(** ** Invariants of the two loops of [_make_dec_graph] *)

(** The loop invariant: [w0] is the world the loop starts from, [done]
    the rows already visited. *)
Record NodeInv (contraction_name : string) (contracted_graph : Addr)
    (w0 : World) (done : list (string * list ComponentSet))
    (evs : list Event) (w : World) : Prop := {
  ni_self :
    self w = with_supernode_table (supernode_table (self w))
               (with_supernode_id_counter (_supernode_id_counter (self w))
                  (self w0));
  ni_counter :
    _supernode_id_counter (self w)
    = (_supernode_id_counter (self w0)
       + Z.of_nat (size (supernode_table (self w))))%Z;
  ni_events :
    evs = EvSupernodeId <$>
            seqZ (_supernode_id_counter (self w0) + 1)
                 (Z.of_nat (size (supernode_table (self w))));
  ni_graph :
    ∃ g, graphs w = <[contracted_graph := g]> (graphs w0)
      ∧ E g = ∅
      ∧ (∀ k a, V g !! k = Some a →
           ∃ s sn, supernode_table (self w) !! s = Some a
                   ∧ supernodes w !! a = Some sn ∧ sn_key sn = k)
      ∧ (∀ s a, supernode_table (self w) !! s = Some a →
           ∃ sn, supernodes w !! a = Some sn
                 ∧ V g !! sn_key sn = Some a);
  ni_old :
    ∀ a, a ∈ dom (supernodes w0) →
         supernodes w !! a = supernodes w0 !! a;
  ni_table_dom :
    ∀ s, is_Some (supernode_table (self w) !! s)
         ↔ ∃ row, row ∈ done ∧ frozenset row.2 = s;
  ni_table_obj :
    ∀ s a, supernode_table (self w) !! s = Some a →
      (a ∉ dom (supernodes w0))
      ∧ (∃ sn, supernodes w !! a = Some sn
          ∧ sn_set_of_sets sn = s
          ∧ sn_level sn = level (self w0)
          ∧ sn_attr sn = ∅
          ∧ (∃ id, (_supernode_id_counter (self w0) < id
                      ≤ _supernode_id_counter (self w))%Z
                   ∧ sn_key sn
                     = supernode_key (level (self w0)) contraction_name id)
          ∧ ig_E (sn_dec sn) = ∅
          ∧ (∀ n, n ∈ ig_V (sn_dec sn)
                  ↔ ∃ sos, (n, sos) ∈ done ∧ frozenset sos = s));
  ni_backref :
    ∀ n sos, (n, sos) ∈ done →
      node_supernode w !! n = supernode_table (self w) !! frozenset sos;
  ni_backref_frame :
    ∀ n, n ∉ done.*1 → node_supernode w !! n = node_supernode w0 !! n;
  ni_new :
    ∀ a, is_Some (supernodes w !! a) →
      a ∈ dom (supernodes w0) ∨ ∃ s, supernode_table (self w) !! s = Some a
}.

(** What a superedge stored under key [k] looks like after the edges [done]
    have been visited, in terms of the world [w1] the second loop started
    from. *)
Definition superedge_ok (w1 : World) (done : list (string * string))
    (k : string * string) (se : Superedge) : Prop :=
  ∃ sn1 sn2,
    supernodes w1 !! se_tail se = Some sn1
    ∧ supernodes w1 !! se_head se = Some sn2
    ∧ k = (sn_key sn1, sn_key sn2)
    ∧ sn_key sn1 ≠ sn_key sn2
    ∧ se_level se = level (self w1)
    ∧ se_attr se = ∅
    ∧ (∃ e, e ∈ se_dec se)
    ∧ (∀ e, e ∈ se_dec se
            ↔ e ∈ done
              ∧ node_supernode w1 !! e.1 = Some (se_tail se)
              ∧ node_supernode w1 !! e.2 = Some (se_head se)).

(** The invariant of the second loop. *)
Record EdgeInv (contracted_graph : Addr) (w1 : World)
    (done : list (string * string)) (w : World) : Prop := {
  ei_self : self w = self w1;
  ei_backref : node_supernode w = node_supernode w1;
  ei_graph :
    ∃ g1 g, graphs w1 !! contracted_graph = Some g1
      ∧ graphs w = <[contracted_graph := g]> (graphs w1)
      ∧ V g = V g1
      ∧ (∀ k se, E g !! k = Some se → superedge_ok w1 done k se)
      ∧ (∀ e a1 a2 sn1 sn2,
           e ∈ done →
           node_supernode w1 !! e.1 = Some a1 →
           node_supernode w1 !! e.2 = Some a2 →
           supernodes w1 !! a1 = Some sn1 →
           supernodes w1 !! a2 = Some sn2 →
           sn_key sn1 ≠ sn_key sn2 →
           is_Some (E g !! (sn_key sn1, sn_key sn2)));
  ei_supernodes_none :
    ∀ a, supernodes w1 !! a = None → supernodes w !! a = None;
  ei_supernodes :
    ∀ a sn1, supernodes w1 !! a = Some sn1 →
      ∃ ie, supernodes w !! a
            = Some (with_sn_dec (mkInnerGraph (ig_V (sn_dec sn1)) ie) sn1)
        ∧ (∀ e, e ∈ ie
                ↔ e ∈ ig_E (sn_dec sn1)
                  ∨ (e ∈ done
                     ∧ node_supernode w1 !! e.1 = Some a
                     ∧ node_supernode w1 !! e.2 = Some a))
}.

(** ** The grouping a table prescribes

    What the contracted graph must look like, stated on the table and the
    edges alone. *)

(** The signature of a node listed in the table. *)
Definition sig_of (t : list (string * list ComponentSet)) (n : string)
    : option (gset (gset string)) :=
  frozenset <$> (list_to_map t : gmap string (list ComponentSet)) !! n.

(** The distinct signatures of a table. *)
Definition signatures (t : list (string * list ComponentSet))
    : gset (gset (gset string)) :=
  list_to_set ((λ row, frozenset row.2) <$> t).

(** The nodes listed with signature [s]. *)
Definition members_of (t : list (string * list ComponentSet))
    (s : gset (gset string)) : gset string :=
  list_to_set (filter (λ row, frozenset row.2 = s) t).*1.

(** The edges that lead from a node of signature [s1] to a node of
    signature [s2]. *)
Definition edges_between (t : list (string * list ComponentSet))
    (edges : list (string * string)) (s1 s2 : gset (gset string))
    : gset (string * string) :=
  list_to_set
    (filter (λ e, sig_of t e.1 = Some s1 ∧ sig_of t e.2 = Some s2) edges).

(** The state [_make_dec_graph] leaves: [lvl] and [c0] are the level and
    the supernode counter it started with, [old] the supernode objects that
    existed before, [g] the graph object it returns. *)
Record Built (name : string) (t : list (string * list ComponentSet))
    (edges : list (string * string)) (lvl c0 : Z)
    (old : gmap Addr Supernode) (w : World) (cg : Addr) (g : DecGraph)
    : Prop := {
  bt_graph : graphs w !! cg = Some g;
  bt_table_dom :
    ∀ s, is_Some (supernode_table (self w) !! s) ↔ s ∈ signatures t;
  bt_table_obj :
    ∀ s a, supernode_table (self w) !! s = Some a →
      (a ∉ dom old)
      ∧ (∃ sn id,
           supernodes w !! a = Some sn
           ∧ sn_set_of_sets sn = s
           ∧ sn_level sn = lvl
           ∧ (c0 < id ≤ c0 + Z.of_nat (size (signatures t)))%Z
           ∧ sn_key sn = supernode_key lvl name id
           ∧ ig_V (sn_dec sn) = members_of t s
           ∧ ig_E (sn_dec sn) = edges_between t edges s s
           ∧ V g !! sn_key sn = Some a);
  bt_V :
    ∀ k a, V g !! k = Some a →
      ∃ s sn, supernode_table (self w) !! s = Some a
              ∧ supernodes w !! a = Some sn ∧ sn_key sn = k;
  bt_backref :
    ∀ n s, sig_of t n = Some s →
      node_supernode w !! n = supernode_table (self w) !! s;
  bt_E :
    ∀ k se, E g !! k = Some se →
      ∃ s1 s2 sn1 sn2,
        supernode_table (self w) !! s1 = Some (se_tail se)
        ∧ supernode_table (self w) !! s2 = Some (se_head se)
        ∧ supernodes w !! se_tail se = Some sn1
        ∧ supernodes w !! se_head se = Some sn2
        ∧ k = (sn_key sn1, sn_key sn2)
        ∧ s1 ≠ s2
        ∧ se_level se = lvl
        ∧ se_dec se = edges_between t edges s1 s2
        ∧ se_dec se ≠ ∅;
  bt_cross :
    ∀ e s1 s2, e ∈ edges →
      sig_of t e.1 = Some s1 → sig_of t e.2 = Some s2 → s1 ≠ s2 →
      ∃ a1 a2 sn1 sn2,
        supernode_table (self w) !! s1 = Some a1
        ∧ supernode_table (self w) !! s2 = Some a2
        ∧ supernodes w !! a1 = Some sn1
        ∧ supernodes w !! a2 = Some sn2
        ∧ is_Some (E g !! (sn_key sn1, sn_key sn2));
  bt_new :
    ∀ a, is_Some (supernodes w !! a) →
      a ∈ dom old ∨ ∃ s, supernode_table (self w) !! s = Some a
}.

(** A table lists every node once, the graph has every edge once, and the
    table covers the endpoints of the edges. *)
Definition well_formed (t : list (string * list ComponentSet))
    (G : LowerGraph) : Prop :=
  NoDup t.*1 ∧ NoDup (lg_edges G)
  ∧ Forall (λ e, e.1 ∈ t.*1 ∧ e.2 ∈ t.*1) (lg_edges G).

(** ** The strategy against the counter alone *)

(** What a strategy does when the component-set counter stands at [c]: the
    counter it leaves and its outcome. *)
Fixpoint strategy_result {A} (s : Strategy A) (c : Z) : Z * (Exn + A) :=
  match s with
  | Return a => (c, inr a)
  | Raise e => (c, inl e)
  | NewComponentSetId k => strategy_result (k (c + 1)%Z) (c + 1)%Z
  end.

(** ** Equality up to decoration *)

Definition same_supernode (sn sn' : Supernode) : Prop :=
  sn_key sn = sn_key sn' ∧ sn_level sn = sn_level sn'
  ∧ sn_set_of_sets sn = sn_set_of_sets sn' ∧ sn_dec sn = sn_dec sn'.

Definition same_superedge (se se' : Superedge) : Prop :=
  se_tail se = se_tail se' ∧ se_head se = se_head se'
  ∧ se_level se = se_level se' ∧ se_dec se = se_dec se'.

Definition same_graph (g g' : DecGraph) : Prop :=
  V g = V g' ∧ ∀ k, option_Forall2 same_superedge (E g !! k) (E g' !! k).

(** Two worlds that differ in attribute maps only (and in the decorated
    table of the scheme). *)
Record attr_equiv (w w' : World) : Prop := {
  ae_self :
    with_contraction_sets_table None (self w')
    = with_contraction_sets_table None (self w);
  ae_backref : node_supernode w' = node_supernode w;
  ae_supernodes :
    ∀ a, option_Forall2 same_supernode (supernodes w !! a) (supernodes w' !! a);
  ae_graphs :
    ∀ a, option_Forall2 same_graph (graphs w !! a) (graphs w' !! a)
}.

(** ** What [update] is required to do *)

(** The hook calls an update quadruple prescribes, in the prescribed order:
    removed edges, removed nodes, added nodes, added edges. *)
Definition prescribed_calls (q : UpdateQuadruple) : list HookCall :=
  (RemovedEdge <$> e_minus q) ++ (RemovedNode <$> v_minus q)
  ++ (AddedNode <$> v_plus q) ++ (AddedEdge <$> e_plus q).

(** ** Identifiers handed out during a run *)

Definition supernode_ids (evs : list Event) : list Z :=
  omap (λ ev, match ev with EvSupernodeId i => Some i | _ => None end) evs.

Definition component_set_ids (evs : list Event) : list Z :=
  omap (λ ev, match ev with EvComponentSetId i => Some i | _ => None end) evs.

(** A computation accounts for its identifiers when, from every world, the
    identifiers it hands out are exactly the values the two counters pass
    through, in order. *)
Definition accounts {A} (m : M A) : Prop :=
  ∀ w,
    let c := _supernode_id_counter (self w) in
    let c' := _supernode_id_counter (self (world_of (m w))) in
    let d := _component_set_id_counter (self w) in
    let d' := _component_set_id_counter (self (world_of (m w))) in
    (c ≤ c')%Z ∧ (d ≤ d')%Z
    ∧ supernode_ids (events_of (m w)) = seqZ (c + 1) (c' - c)
    ∧ component_set_ids (events_of (m w)) = seqZ (d + 1) (d' - d).

(** The calls a client can make on a scheme that draw identifiers or move
    its life cycle; [update] is left out because its hooks are abstract. *)
Inductive Call : Type :=
  | CallContract (G : LowerGraph)
  | CallGetSupernodeId
  | CallGetComponentSetId
  | CallIsValid
  | CallInvalidate.

Section Client.
Variable contraction_name : string.
Variable contraction_function :
  LowerGraph → Strategy (list (string * list ComponentSet)).
Variable _supernode_attr_function : Supernode → gmap string string.
Variable _superedge_attr_function : Superedge → gmap string string.
Variable _c_set_attr_function : gset string → gmap string string.

(** One call on the scheme: the events it produced and the world it left,
    whether it returned or raised. *)
Definition run_call (c : Call) (w : World) : list Event * World :=
  match c with
  | CallContract G =>
      let r := contract contraction_name contraction_function
                 _supernode_attr_function _superedge_attr_function
                 _c_set_attr_function G w in
      (events_of r, world_of r)
  | CallGetSupernodeId =>
      (events_of (_get_supernode_id w), world_of (_get_supernode_id w))
  | CallGetComponentSetId =>
      (events_of (_get_component_set_id w),
       world_of (_get_component_set_id w))
  | CallIsValid => (events_of (is_valid w), world_of (is_valid w))
  | CallInvalidate => (events_of (invalidate w), world_of (invalidate w))
  end.

(** A scheme's lifetime: a sequence of calls, each from the world the
    previous one left. *)
Fixpoint run_calls (cs : list Call) (w : World) : list Event * World :=
  match cs with
  | [] => ([], w)
  | c :: cs' =>
      let r1 := run_call c w in
      let r2 := run_calls cs' r1.2 in
      (r1.1 ++ r2.1, r2.2)
  end.
End Client.

(** ** Aggregates *)

(** An aggregate of the contracted graph [g]: the superedge stored under a
    pair of keys, or the inner graph of the supernode stored under a key.
    [in_aggregate w g x e]: the lower-level edge [e] is held by [x]. *)
Definition in_aggregate (w : World) (g : DecGraph)
    (x : (string * string) + string) (e : string * string) : Prop :=
  match x with
  | inl k => ∃ se, E g !! k = Some se ∧ e ∈ se_dec se
  | inr k => ∃ a sn, V g !! k = Some a ∧ supernodes w !! a = Some sn
                     ∧ e ∈ ig_E (sn_dec sn)
  end.

(** ** The structure of a contracted graph, identifiers left out *)

(** A table with every set of component sets replaced by its signature. *)
Definition signature_rows (t : list (string * list ComponentSet))
    : list (string * gset (gset string)) :=
  (λ row, (row.1, frozenset row.2)) <$> t.

(** What is left of a contraction once keys, identifiers, references and
    attributes are forgotten: for every supernode its signature, its
    members and its inner edges; for every superedge the signatures of its
    tail and head and the edges it holds; for every listed node the
    signature of the supernode it points at. *)
Record Structure : Type := mkStructure {
  st_supernodes :
    gset (gset (gset string) * gset string * gset (string * string));
  st_superedges :
    gset (gset (gset string) * gset (gset string) * gset (string * string));
  st_assignment : gset (string * gset (gset string))
}.

Definition sig_at (w : World) (a : Addr) : option (gset (gset string)) :=
  sn_set_of_sets <$> supernodes w !! a.

Definition supernode_shape (w : World) (a : Addr)
    : option (gset (gset string) * gset string * gset (string * string)) :=
  sn ← supernodes w !! a;
  Some (sn_set_of_sets sn, ig_V (sn_dec sn), ig_E (sn_dec sn)).

Definition superedge_shape (w : World) (se : Superedge)
    : option (gset (gset string) * gset (gset string)
              * gset (string * string)) :=
  s1 ← sig_at w (se_tail se);
  s2 ← sig_at w (se_head se);
  Some (s1, s2, se_dec se).

Definition node_shape (w : World) (n : string)
    : option (string * gset (gset string)) :=
  a ← node_supernode w !! n;
  s ← sig_at w a;
  Some (n, s).

(** The structure of the scheme's current graph. *)
Definition structure (w : World) : option Structure :=
  ga ← dec_graph (self w);
  g ← graphs w !! ga;
  t ← contraction_sets_table (self w);
  Some (mkStructure
          (list_to_set (omap (supernode_shape w) (map_to_list (V g)).*2))
          (list_to_set (omap (superedge_shape w) (map_to_list (E g)).*2))
          (list_to_set (omap (node_shape w) t.*1))).

(** The structure a table prescribes for a list of edges: one supernode per
    signature, one superedge per ordered pair of distinct signatures joined
    by an edge. *)
Definition prescribed_superedge (t : list (string * list ComponentSet))
    (edges : list (string * string)) (e : string * string)
    : option (gset (gset string) * gset (gset string)
              * gset (string * string)) :=
  s1 ← sig_of t e.1;
  s2 ← sig_of t e.2;
  if decide (s1 = s2) then None
  else Some (s1, s2, edges_between t edges s1 s2).

Definition prescribed_structure (t : list (string * list ComponentSet))
    (edges : list (string * string)) : Structure :=
  mkStructure
    (list_to_set
       ((λ s, (s, members_of t s, edges_between t edges s s))
          <$> elements (signatures t)))
    (list_to_set (omap (prescribed_superedge t edges) edges))
    (list_to_set (signature_rows t)).

(** ** A concrete scheme *)

(** Draws [n] component-set identifiers. *)
Fixpoint with_ids {A} (n : nat) (k : list Z → Strategy A) : Strategy A :=
  match n with
  | 0 => k []
  | S n' => NewComponentSetId (λ i, with_ids n' (λ ids, k (i :: ids)))
  end.

(** The edges whose reverse is an edge too. *)
Definition mutual_edges (G : LowerGraph) : list (string * string) :=
  filter (λ e, (e.2, e.1) ∈ lg_edges G) (lg_edges G).

(** A grouping strategy: one component set (with its own identifier) for
    every edge whose reverse is an edge too, holding its two endpoints; a
    node belongs to the component sets that hold it. *)
Definition mutual_strategy (G : LowerGraph)
    : Strategy (list (string * list ComponentSet)) :=
  with_ids (length (mutual_edges G)) (λ ids,
    Return ((λ n,
      (n, (λ ie, mkComponentSet ie.1 {[ie.2.1; ie.2.2]} ∅)
            <$> filter (λ ie, n = ie.2.1 ∨ n = ie.2.2)
                  (zip ids (mutual_edges G)))) <$> lg_nodes G)).

Definition example_graph : LowerGraph :=
  mkLowerGraph ["a"; "b"; "c"; "d"]
    [("a", "b"); ("b", "a"); ("b", "c"); ("c", "d")].

(** The table [mutual_strategy] returns for [example_graph] when the
    component-set counter stands at [c]. *)
Definition example_table (c : Z) : list (string * list ComponentSet) :=
  [("a", [mkComponentSet (c + 1) {["a"; "b"]} ∅;
          mkComponentSet (c + 2) {["b"; "a"]} ∅]);
   ("b", [mkComponentSet (c + 1) {["a"; "b"]} ∅;
          mkComponentSet (c + 2) {["b"; "a"]} ∅]);
   ("c", []); ("d", [])].

Global Instance well_formed_dec t G : Decision (well_formed t G).
Proof. unfold well_formed. apply _. Defined.

(** ** Relations between the worlds before and after a method *)

(** ** What a method leaves alone *)

(** [m] relates every world it starts from to the world it leaves, whether
    it returns or raises. *)
Definition preserves {A} (R : World → World → Prop) (m : M A) : Prop :=
  ∀ w, R w (world_of (m w)).

(** What building a graph leaves of the scheme and of the stores: the
    attributes that only [contract], [invalidate] and [__init__] assign,
    the component-set counter, and the objects that exist, which are never
    deleted. *)
Record build_frame (w w' : World) : Prop := {
  bf_level : level (self w') = level (self w);
  bf_dec_graph : dec_graph (self w') = dec_graph (self w);
  bf_table :
    contraction_sets_table (self w') = contraction_sets_table (self w);
  bf_quadruple : update_quadruple (self w') = update_quadruple (self w);
  bf_component :
    _component_set_id_counter (self w')
    = _component_set_id_counter (self w);
  bf_valid : _valid (self w') = _valid (self w);
  bf_graphs : dom (graphs w) ⊆ dom (graphs w');
  bf_supernodes : dom (supernodes w) ⊆ dom (supernodes w')
}.

(** The attributes no method of the scheme assigns after [__init__]. *)
Definition same_level (w w' : World) : Prop :=
  level (self w') = level (self w)
  ∧ update_quadruple (self w') = update_quadruple (self w).

(** A scheme that reports itself valid holds a graph object and a table. *)
Definition valid_has_graph (w : World) : Prop :=
  _valid (self w) = true →
  (∃ cg, dec_graph (self w) = Some cg ∧ is_Some (graphs w !! cg))
  ∧ is_Some (contraction_sets_table (self w)).

(** What decorating the graph [ga], whose supernodes are the objects [L],
    leaves alone: every other supernode object, every other graph object,
    and the back-references. *)
Definition decoration_frame (L : list positive) (ga : positive)
    (w w' : World) : Prop :=
  (∀ a, a ∉ L → supernodes w' !! a = supernodes w !! a)
  ∧ (∀ b, b ≠ ga → graphs w' !! b = graphs w !! b)
  ∧ node_supernode w' = node_supernode w.

(** Attribute maps between two worlds: every supernode and every superedge
    of the later world has the attributes it had in the earlier one, or
    none. *)
Definition attrs_kept (w w' : World) : Prop :=
  (∀ a sn', supernodes w' !! a = Some sn' →
     sn_attr sn' = ∅
     ∨ ∃ sn, supernodes w !! a = Some sn ∧ sn_attr sn' = sn_attr sn)
  ∧ (∀ b g' k se', graphs w' !! b = Some g' → E g' !! k = Some se' →
       se_attr se' = ∅
       ∨ ∃ g se, graphs w !! b = Some g ∧ E g !! k = Some se
                 ∧ se_attr se' = se_attr se).

(** A graph whose table, as [unlisted_strategy] returns it, lists one
    endpoint of the first edge only. *)
Definition unlisted_graph : LowerGraph :=
  mkLowerGraph ["a"; "b"; "c"] [("a", "b"); ("b", "c"); ("c", "a")].

Definition unlisted_strategy (G : LowerGraph)
    : Strategy (list (string * list ComponentSet)) :=
  Return [("a", []); ("b", [])].

(** [example_graph] with its nodes and its edges in another order, and the
    table [mutual_strategy] returns for it. *)
Definition reordered_graph : LowerGraph :=
  mkLowerGraph ["d"; "c"; "b"; "a"]
    [("c", "d"); ("b", "c"); ("b", "a"); ("a", "b")].

Definition reordered_table (c : Z) : list (string * list ComponentSet) :=
  [("d", []); ("c", []);
   ("b", [mkComponentSet (c + 1) {["b"; "a"]} ∅;
          mkComponentSet (c + 2) {["a"; "b"]} ∅]);
   ("a", [mkComponentSet (c + 1) {["b"; "a"]} ∅;
          mkComponentSet (c + 2) {["a"; "b"]} ∅])].

(** Attribute functions that read the object they decorate. *)
Definition key_attr (sn : Supernode) : gmap string string :=
  {["key" := sn_key sn]}.

Definition weight_attr (se : Superedge) : gmap string string :=
  {["weight" := str (Z.of_nat (size (se_dec se)))]}.

(** ** The identifiers a lifetime hands out *)

(** The identifier a call of one of the two getters returned to its
    caller. *)
Definition returned_id (r : list Event * World * (Exn + Z)) : list Z :=
  match outcome_of r with
  | inr id => [id]
  | inl _ => []
  end.

Section Issued.
Variable contraction_name : string.
Variable contraction_function :
  LowerGraph → Strategy (list (string * list ComponentSet)).
Variable _supernode_attr_function : Supernode → gmap string string.
Variable _superedge_attr_function : Superedge → gmap string string.
Variable _c_set_attr_function : gset string → gmap string string.

(** The supernode identifiers one call hands out: the value
    [_get_supernode_id] returns to the client that called it, and the
    identifiers drawn while [contract] runs. *)
Definition issued_supernode_ids (c : Call) (w : World) : list Z :=
  match c with
  | CallContract G =>
      supernode_ids
        (events_of (contract contraction_name contraction_function
                      _supernode_attr_function _superedge_attr_function
                      _c_set_attr_function G w))
  | CallGetSupernodeId => returned_id (_get_supernode_id w)
  | _ => []
  end.

(** Likewise for the component-set identifiers. *)
Definition issued_component_set_ids (c : Call) (w : World) : list Z :=
  match c with
  | CallContract G =>
      component_set_ids
        (events_of (contract contraction_name contraction_function
                      _supernode_attr_function _superedge_attr_function
                      _c_set_attr_function G w))
  | CallGetComponentSetId => returned_id (_get_component_set_id w)
  | _ => []
  end.

(** The identifiers a sequence of calls hands out, in order: supernode
    identifiers first, component-set identifiers second. *)
Fixpoint issued_ids (cs : list Call) (w : World) : list Z * list Z :=
  match cs with
  | [] => ([], [])
  | c :: cs' =>
      let r :=
        issued_ids cs'
          (run_call contraction_name contraction_function
             _supernode_attr_function _superedge_attr_function
             _c_set_attr_function c w).2 in
      (issued_supernode_ids c w ++ r.1, issued_component_set_ids c w ++ r.2)
  end.
End Issued.

(** A call of a scheme's lifetime: one of the calls above, or [update]. *)
Inductive LifeCall : Type :=
  | Method (c : Call)
  | CallUpdate (q : UpdateQuadruple).

Section Life.
Variable contraction_name : string.
Variable contraction_function :
  LowerGraph → Strategy (list (string * list ComponentSet)).
Variable update_added_node : string → World → World * (Exn + unit).
Variable update_removed_node : string → World → World * (Exn + unit).
Variable update_added_edge : string * string → World → World * (Exn + unit).
Variable update_removed_edge :
  string * string → World → World * (Exn + unit).
Variable _supernode_attr_function : Supernode → gmap string string.
Variable _superedge_attr_function : Superedge → gmap string string.
Variable _c_set_attr_function : gset string → gmap string string.

(** One call of a lifetime: the supernode identifiers and the
    component-set identifiers it handed out, and the world it left,
    whether it returned or raised.  What a hook of [update] draws for
    itself shows in the counters only. *)
Definition run_life_call (c : LifeCall) (w : World)
    : list Z * list Z * World :=
  match c with
  | Method c =>
      (issued_supernode_ids contraction_name contraction_function
         _supernode_attr_function _superedge_attr_function
         _c_set_attr_function c w,
       issued_component_set_ids contraction_name contraction_function
         _supernode_attr_function _superedge_attr_function
         _c_set_attr_function c w,
       (run_call contraction_name contraction_function
          _supernode_attr_function _superedge_attr_function
          _c_set_attr_function c w).2)
  | CallUpdate q =>
      ([], [],
       world_of (update update_added_node update_removed_node
                   update_added_edge update_removed_edge q w))
  end.

(** A lifetime, [update] included. *)
Fixpoint run_lifetime (cs : list LifeCall) (w : World)
    : list Z * list Z * World :=
  match cs with
  | [] => ([], [], w)
  | c :: cs' =>
      let r1 := run_life_call c w in
      let r2 := run_lifetime cs' r1.2 in
      (r1.1.1 ++ r2.1.1, r1.1.2 ++ r2.1.2, r2.2)
  end.
End Life.

(** The identifiers [ids] were handed out, in this order, while a counter
    went from [c] to [c']: each lies above [c] and not above [c'], and
    they increase. *)
Definition issued_within (c c' : Z) (ids : list Z) : Prop :=
  (c ≤ c')%Z
  ∧ (∀ x, x ∈ ids → (c < x ≤ c')%Z)
  ∧ (∀ i j x y, i < j → ids !! i = Some x → ids !! j = Some y → (x < y)%Z).

(** The two counters of the later world are not below those of the
    earlier one. *)
Definition counters_le (w w' : World) : Prop :=
  (_supernode_id_counter (self w) ≤ _supernode_id_counter (self w'))%Z
  ∧ (_component_set_id_counter (self w)
     ≤ _component_set_id_counter (self w'))%Z.

(** A removed-node hook that draws a supernode identifier for itself and
    then raises. *)
Definition drawing_hook (n : string) (w : World) : World * (Exn + unit) :=
  (world_of (_get_supernode_id w), inl InconsistentUpdate).

(** Two tables that differ in the attributes of their component sets
    only: the same nodes in the same order, each with component sets of
    the same keys and the same members. *)
Definition same_c_set (c c' : ComponentSet) : Prop :=
  cs_key c = cs_key c' ∧ cs_nodes c = cs_nodes c'.

Definition same_table (t t' : list (string * list ComponentSet)) : Prop :=
  Forall2 (λ row row', row.1 = row'.1 ∧ Forall2 same_c_set row.2 row'.2)
    t t'.

(** * Properties *)

Set Warnings "-clear-no-such-hyp".

(** ** Keys *)

Lemma append_inj_r (p s1 s2 : string) : p +:+ s1 = p +:+ s2 → s1 = s2.
Proof. induction p as [|c p IH]; simpl; [done|]. intros [=]. auto. Qed.

Lemma str_inj (x y : Z) : str x = str y → x = y.
Proof. unfold str. apply (inj pretty). Qed.

(** For a fixed level and name, distinct identifiers give distinct keys. *)
Lemma supernode_key_inj (lvl : Z) (name : string) (i j : Z) :
  supernode_key lvl name i = supernode_key lvl name j → i = j.
Proof.
  unfold supernode_key. intros H.
  do 4 apply append_inj_r in H. by apply str_inj.
Qed.

(** ** Running loops *)

Ltac run :=
  unfold bind, get, modify, ret, raise, emit; simpl.

(** Unfolding the two public methods where a section abbreviates them. *)
Ltac unfold_contract := unfold contract.
Ltac unfold_update := unfold update.

Lemma bind_ok {A B} (m : M A) (k : A → M B) w t1 w1 a :
  m w = (t1, w1, inr a) →
  bind m k w = (t1 ++ (k a w1).1.1, (k a w1).1.2, (k a w1).2).
Proof. unfold bind. intros ->. by destruct (k a w1) as [[??]?]. Qed.

Lemma bind_raise {A B} (m : M A) (k : A → M B) w t1 w1 e :
  m w = (t1, w1, inl e) → bind m k w = (t1, w1, inl e).
Proof. unfold bind. by intros ->. Qed.

Lemma for_each_app {X} (body : X → M unit) (l1 l2 : list X) w :
  for_each (l1 ++ l2) body w = (for_each l1 body;; for_each l2 body) w.
Proof.
  revert w. induction l1 as [|x l1 IH]; intros w; simpl.
  - unfold bind, ret. by destruct (for_each l2 body w) as [[??][?|[]]].
  - unfold bind. destruct (body x w) as [[t1 w1] [e|[]]]; [done|].
    rewrite IH. unfold bind.
    destruct (for_each l1 body w1) as [[t2 w2] [e|[]]]; [done|].
    destruct (for_each l2 body w2) as [[t3 w3] r]. by rewrite (assoc_L (++)).
Qed.

(** The invariant rule for a loop whose body never fails: [I done evs w]
    relates the elements already visited, the events produced so far and
    the current world. *)
Lemma for_each_invariant {X} (body : X → M unit)
    (I : list X → list Event → World → Prop) (l : list X) (w : World) :
  I [] [] w →
  (∀ done x rest evs w1,
     l = done ++ x :: rest → I done evs w1 →
     ∃ evs' w2, body x w1 = (evs', w2, inr tt) ∧
                I (done ++ [x]) (evs ++ evs') w2) →
  ∃ evs w', for_each l body w = (evs, w', inr tt) ∧ I l evs w'.
Proof.
  intros Hinit Hstep.
  cut (∀ rest done evs w1, l = done ++ rest → I done evs w1 →
         ∃ evs' w2, for_each rest body w1 = (evs', w2, inr tt) ∧
                    I (done ++ rest) (evs ++ evs') w2).
  { intros Hgen. destruct (Hgen l [] [] w) as (evs & w' & ? & ?); eauto. }
  induction rest as [|x rest IH]; intros done evs w1 Hl HI.
  - exists [], w1. rewrite !app_nil_r. done.
  - destruct (Hstep done x rest evs w1 Hl HI) as (evs1 & w2 & Hb & HI2).
    destruct (IH (done ++ [x]) (evs ++ evs1) w2) as (evs2 & w3 & Hf & HI3).
    { by rewrite <-(assoc_L (++)). }
    { done. }
    exists (evs1 ++ evs2), w3. split.
    + simpl. unfold bind. rewrite Hb, Hf. done.
    + rewrite <-(assoc_L (++)) in HI3. simpl in HI3.
      by rewrite (assoc_L (++)).
Qed.


(** ** The first loop of [_make_dec_graph] *)

Section NodeLoop.
Variable contraction_name : string.
Variable contracted_graph : Addr.

Lemma place_node_known w node set_of_sets a sn :
  supernode_table (self w) !! frozenset set_of_sets = Some a →
  supernodes w !! a = Some sn →
  node ∉ ig_V (sn_dec sn) →
  ∃ w', place_node contraction_name contracted_graph (node, set_of_sets) w
          = ([], w', inr tt)
    ∧ self w' = self w
    ∧ graphs w' = graphs w
    ∧ supernodes w'
        = <[a := with_sn_dec (InnerGraph_add_node node (sn_dec sn)) sn]>
            (supernodes w)
    ∧ node_supernode w' = <[node := a]> (node_supernode w).
Proof.
  intros Ht Hsn Hn. eexists. split.
  - unfold place_node, Supernode_add_node. run. rewrite Ht. simpl.
    rewrite Hsn. rewrite decide_False by done. simpl. reflexivity.
  - simpl. by rewrite insert_insert_eq.
Qed.

Lemma place_node_fresh w node set_of_sets g :
  let id := (_supernode_id_counter (self w) + 1)%Z in
  let key := supernode_key (level (self w)) contraction_name id in
  let a := fresh (dom (supernodes w)) in
  supernode_table (self w) !! frozenset set_of_sets = None →
  graphs w !! contracted_graph = Some g →
  V g !! key = None →
  ∃ w', place_node contraction_name contracted_graph (node, set_of_sets) w
          = ([EvSupernodeId id], w', inr tt)
    ∧ self w'
        = with_supernode_table
            (<[frozenset set_of_sets := a]> (supernode_table (self w)))
            (with_supernode_id_counter id (self w))
    ∧ graphs w'
        = <[contracted_graph := mkDecGraph (<[key := a]> (V g)) (E g)]>
            (graphs w)
    ∧ supernodes w'
        = <[a := mkSupernode key (level (self w)) (frozenset set_of_sets)
                   (mkInnerGraph {[node]} ∅) ∅]> (supernodes w)
    ∧ node_supernode w' = <[node := a]> (node_supernode w).
Proof.
  intros id key a Ht Hg Hk. subst id key a. eexists. split.
  - unfold place_node, Supernode_add_node, DecGraph_add_node,
      _get_supernode_id, new_Supernode. run. rewrite Ht. simpl.
    rewrite Hg. rewrite lookup_insert_eq. simpl.
    rewrite decide_False by (rewrite Hk; by intros [??]). simpl.
    rewrite lookup_insert_eq. simpl.
    rewrite decide_False by set_solver. simpl. reflexivity.
  - simpl. rewrite !insert_insert_eq. repeat split; try done.
    unfold with_sn_dec, InnerGraph_add_node. simpl.
    by rewrite (right_id_L ∅ (∪)).
Qed.

Lemma NodeInv_init w0 :
  supernode_table (self w0) = ∅ →
  graphs w0 !! contracted_graph = Some (mkDecGraph ∅ ∅) →
  NodeInv contraction_name contracted_graph w0 [] [] w0.
Proof.
  intros Ht Hg. split.
  - rewrite Ht. by destruct w0 as [[] ???]; simpl in *; subst.
  - rewrite Ht, map_size_empty. lia.
  - by rewrite Ht, map_size_empty.
  - exists (mkDecGraph ∅ ∅). rewrite insert_id by done. simpl.
    rewrite Ht. repeat split; intros ??; by rewrite lookup_empty.
  - done.
  - intros s. rewrite Ht, lookup_empty. split; [by intros [??]|].
    intros (? & []%elem_of_nil & _).
  - intros s a. by rewrite Ht, lookup_empty.
  - intros ?? []%elem_of_nil.
  - done.
  - intros a Ha. left. by apply elem_of_dom.
Qed.

Lemma not_in_snoc_fst (done : list (string * list ComponentSet)) n sos n' :
  n' ∉ (done ++ [(n, sos)]).*1 → (n' ∉ done.*1) ∧ n ≠ n'.
Proof.
  rewrite fmap_app. intros Hn. split.
  - intros Hin. apply Hn, elem_of_app. by left.
  - intros ->. apply Hn, elem_of_app. right. simpl.
    by apply list_elem_of_singleton.
Qed.

Lemma NodeInv_dom w0 done evs w :
  NodeInv contraction_name contracted_graph w0 done evs w → dom (supernodes w0) ⊆ dom (supernodes w).
Proof.
  intros HI a Ha. apply elem_of_dom. rewrite (ni_old _ _ _ _ _ _ HI a Ha).
  by apply elem_of_dom.
Qed.

Lemma NodeInv_step w0 t done row rest evs w :
  t = done ++ row :: rest → NoDup t.*1 →
  NodeInv contraction_name contracted_graph w0 done evs w →
  ∃ evs' w',
    place_node contraction_name contracted_graph row w = (evs', w', inr tt)
    ∧ NodeInv contraction_name contracted_graph w0 (done ++ [row]) (evs ++ evs') w'.
Proof.
  intros -> Hnd HI. destruct row as [n sos].
  assert (Hn : n ∉ done.*1).
  { rewrite fmap_app, fmap_cons in Hnd. apply NoDup_app in Hnd as (_ & Hd & _).
    intros Hin. apply (Hd n Hin). simpl. left. }
  pose proof (NodeInv_dom _ _ _ _ HI) as Hsub.
  destruct HI
    as [Hself Hc Hev (g & Hg & HE & HV & HTV) Hold Hdom Hobj Hbr Hfr Hnw].
  destruct (supernode_table (self w) !! frozenset sos) as [a|] eqn:Ht.
  - destruct (Hobj _ _ Ht)
      as (Ha0 & sn & Hsn & Hsos & Hlvl & Hattr & (id & Hid & Hkey) & HigE & HigV).
    assert (Hnin : n ∉ ig_V (sn_dec sn)).
    { rewrite HigV. intros (sos' & Hin & _). apply Hn.
      apply list_elem_of_fmap. by exists (n, sos'). }
    destruct (place_node_known w n sos a sn Ht Hsn Hnin)
      as (w' & Hrun & Hs' & Hg' & Hsn' & Hb').
    exists [], w'. split; [done|]. rewrite app_nil_r.
    split; rewrite ?Hs', ?Hg', ?Hsn', ?Hb'; try done.
    + exists g. repeat split; try done.
      * intros k a' Hk. destruct (HV k a' Hk) as (s & sn' & ? & ? & ?).
        destruct (decide (a' = a)) as [->|].
        -- eexists s, _. rewrite lookup_insert_eq. simplify_eq. done.
        -- exists s, sn'. by rewrite lookup_insert_ne.
      * intros s a' Hs. destruct (HTV s a' Hs) as (sn' & ? & ?).
        destruct (decide (a' = a)) as [->|].
        -- eexists. rewrite lookup_insert_eq. simplify_eq.
           split; [reflexivity|by simpl].
        -- exists sn'. by rewrite lookup_insert_ne.
    + intros a' Ha'. rewrite lookup_insert_ne; [auto|]. by intros ->.
    + intros s. rewrite Hdom. split.
      * intros (row & Hin & ?). exists row. split; [|done].
        apply elem_of_app. by left.
      * intros (row & [Hin|Hin%list_elem_of_singleton]%elem_of_app & Hr).
        -- by exists row.
        -- subst row. simpl in Hr. subst s. apply Hdom. by rewrite Ht.
    + intros s a' Hs.
      destruct (Hobj s a' Hs)
        as (? & sn' & Hsn'' & ? & ? & ? & ? & ? & HV').
      split; [done|]. destruct (decide (a' = a)) as [->|Hne].
      * eexists. rewrite lookup_insert_eq. split; [done|]. simplify_eq.
        simpl. repeat split; try done.
        -- intros [->%elem_of_singleton|Hin]%elem_of_union.
           ++ exists sos. split; [|done]. apply elem_of_app. right.
              by apply list_elem_of_singleton.
           ++ apply HV' in Hin as (sos' & ? & ?). exists sos'.
              split; [|done]. apply elem_of_app. by left.
        -- intros (sos' & [Hin|Hin%list_elem_of_singleton]%elem_of_app & Hr).
           ++ apply elem_of_union. right. apply HV'. by exists sos'.
           ++ simplify_eq. apply elem_of_union. left.
              by apply elem_of_singleton.
      * exists sn'. rewrite lookup_insert_ne by done.
        repeat split; try done.
        -- intros Hin. apply HV' in Hin as (sos' & ? & ?). exists sos'.
           split; [|done]. apply elem_of_app. by left.
        -- intros (sos' & [Hin|Hin%list_elem_of_singleton]%elem_of_app & Hr).
           ++ apply HV'. by exists sos'.
           ++ exfalso. simplify_eq. congruence.
    + intros n' sos' [Hin|Hin%list_elem_of_singleton]%elem_of_app.
      * rewrite lookup_insert_ne; [by apply Hbr|]. intros ->. apply Hn.
        apply list_elem_of_fmap. by exists (n', sos').
      * simplify_eq. by rewrite lookup_insert_eq.
    + intros n' [Hn1 Hn2]%not_in_snoc_fst.
      rewrite lookup_insert_ne by done. by apply Hfr.
    + intros a' Ha'. destruct (decide (a' = a)) as [->|Hne].
      * right. by exists (frozenset sos).
      * rewrite lookup_insert_ne in Ha' by done. by apply Hnw.
  - assert (Hlv : level (self w) = level (self w0)) by (by rewrite Hself).
    assert (Hgl : graphs w !! contracted_graph = Some g).
    { by rewrite Hg, lookup_insert_eq. }
    assert (Hk : V g !! supernode_key (level (self w)) contraction_name
                         (_supernode_id_counter (self w) + 1) = None).
    { destruct (V g !! _) as [a'|] eqn:Hk; [|done].
      destruct (HV _ _ Hk) as (s & sn & Hs & Hsn & Hkey).
      destruct (Hobj _ _ Hs) as (_ & sn' & Hsn' & _ & _ & _ & (id & Hid & Hkey') & _).
      simplify_eq. rewrite Hlv in Hkey. rewrite Hkey' in Hkey.
      apply supernode_key_inj in Hkey. lia. }
    destruct (place_node_fresh w n sos g Ht Hgl Hk)
      as (w' & Hrun & Hs' & Hg' & Hsn' & Hb').
    pose proof (is_fresh (dom (supernodes w))) as Hfresh.
    set (a := fresh (dom (supernodes w))) in *.
    assert (Hanone : supernodes w !! a = None) by (by apply not_elem_of_dom).
    assert (Hatbl : ∀ s, supernode_table (self w) !! s ≠ Some a).
    { intros s Hs. destruct (Hobj _ _ Hs) as (_ & sn & Hsn & _). congruence. }
    eexists _, w'. split; [done|].
    split; rewrite ?Hs', ?Hg', ?Hsn', ?Hb'; simpl.
    + rewrite Hself. done.
    + rewrite map_size_insert_None by done. rewrite Hc. lia.
    + rewrite map_size_insert_None by done. rewrite Hev.
      rewrite Nat2Z.inj_succ, <-Z.add_1_r.
      rewrite seqZ_app by lia. rewrite fmap_app. simpl. do 3 f_equal.
      rewrite Hc. lia.
    + eexists. split; [rewrite Hg; by rewrite insert_insert_eq|].
      split; [done|]. split.
      * simpl. intros k a' Hka.
        destruct (decide (k = supernode_key (level (self w)) contraction_name
                              (_supernode_id_counter (self w) + 1))) as [->|Hne].
        -- rewrite lookup_insert_eq in Hka. simplify_eq.
           eexists (frozenset sos), _. rewrite !lookup_insert_eq. done.
        -- rewrite lookup_insert_ne in Hka by done.
           destruct (HV _ _ Hka) as (s & sn & Hs & Hsn & Hkey).
           exists s, sn. rewrite !lookup_insert_ne; [done|congruence|congruence].
      * simpl. intros s a' Hs.
        destruct (decide (s = frozenset sos)) as [->|Hne].
        -- rewrite lookup_insert_eq in Hs. simplify_eq. eexists.
           rewrite lookup_insert_eq. split; [reflexivity|]. simpl.
           by rewrite lookup_insert_eq.
        -- rewrite lookup_insert_ne in Hs by done.
           destruct (HTV _ _ Hs) as (sn & Hsn & HVk). exists sn.
           rewrite lookup_insert_ne by congruence. split; [done|].
           rewrite lookup_insert_ne; [done|]. intros Heq.
           rewrite <-Heq in HVk. congruence.
    + intros a' Ha'. rewrite lookup_insert_ne; [auto|]. intros <-.
      apply Hfresh. by apply Hsub.
    + intros s. destruct (decide (s = frozenset sos)) as [->|Hne].
      * rewrite lookup_insert_eq. split; [|by eauto]. intros _.
        exists (n, sos). split; [|done]. apply elem_of_app. right.
        by apply list_elem_of_singleton.
      * rewrite lookup_insert_ne by done. rewrite Hdom. split.
        -- intros (row & Hin & ?). exists row. split; [|done].
           apply elem_of_app. by left.
        -- intros (row & [Hin|Hin%list_elem_of_singleton]%elem_of_app & Hr).
           ++ by exists row.
           ++ subst row. simpl in Hr. congruence.
    + intros s a' Hs. destruct (decide (s = frozenset sos)) as [->|Hne].
      * rewrite lookup_insert_eq in Hs. simplify_eq. split.
        { intros Hin. apply Hfresh. by apply Hsub. }
        eexists. rewrite lookup_insert_eq. split; [done|]. simpl.
        repeat split; try done.
        -- exists (_supernode_id_counter (self w) + 1)%Z.
           split; [lia|]. by rewrite Hlv.
        -- intros ->%elem_of_singleton. exists sos. split; [|done].
           apply elem_of_app. right. by apply list_elem_of_singleton.
        -- intros (sos' & [Hin|Hin%list_elem_of_singleton]%elem_of_app & Hr).
           ++ assert (is_Some (supernode_table (self w) !! frozenset sos)) as [??].
              { apply Hdom. by exists (n0, sos'). }
              congruence.
           ++ simplify_eq. by apply elem_of_singleton.
      * rewrite lookup_insert_ne in Hs by done.
        destruct (Hobj s a' Hs)
          as (? & sn' & Hsn'' & ? & ? & ? & (id & ? & ?) & ? & HV').
        split; [done|]. exists sn'.
        rewrite lookup_insert_ne by congruence.
        repeat split; try done.
        -- exists id. split; [lia|done].
        -- intros Hin. apply HV' in Hin as (sos' & ? & ?). exists sos'.
           split; [|done]. apply elem_of_app. by left.
        -- intros (sos' & [Hin|Hin%list_elem_of_singleton]%elem_of_app & Hr).
           ++ apply HV'. by exists sos'.
           ++ simplify_eq.
    + intros n' sos' [Hin|Hin%list_elem_of_singleton]%elem_of_app.
      * assert (n' ≠ n).
        { intros ->. apply Hn. apply list_elem_of_fmap. by exists (n, sos'). }
        rewrite lookup_insert_ne by done. rewrite (Hbr _ _ Hin).
        rewrite lookup_insert_ne; [done|]. intros Heq.
        assert (is_Some (supernode_table (self w) !! frozenset sos)) as [??].
        { apply Hdom. exists (n', sos'). by rewrite Heq. }
        congruence.
      * simplify_eq. by rewrite !lookup_insert_eq.
    + intros n' [Hn1 Hn2]%not_in_snoc_fst.
      rewrite lookup_insert_ne by done. by apply Hfr.
    + intros a' Ha'. destruct (decide (a' = a)) as [->|Hne].
      * right. exists (frozenset sos). by rewrite lookup_insert_eq.
      * rewrite lookup_insert_ne in Ha' by done.
        destruct (Hnw a' Ha') as [?|[s Hs]]; [by left|right].
        exists s. rewrite lookup_insert_ne; [done|]. intros <-. congruence.
Qed.

(** The first loop runs to completion on a table that lists every node
    once, and establishes the invariant for the whole table. *)
Lemma node_loop w0 t :
  supernode_table (self w0) = ∅ →
  graphs w0 !! contracted_graph = Some (mkDecGraph ∅ ∅) →
  NoDup t.*1 →
  ∃ evs w',
    for_each t (place_node contraction_name contracted_graph) w0
      = (evs, w', inr tt)
    ∧ NodeInv contraction_name contracted_graph w0 t evs w'.
Proof.
  intros Ht Hg Hnd. apply for_each_invariant.
  - by apply NodeInv_init.
  - intros done x rest evs w1 Hl HI. by eapply NodeInv_step.
Qed.
End NodeLoop.

(** ** The second loop of [_make_dec_graph] *)

Section EdgeLoop.
Variable contracted_graph : Addr.

Lemma place_edge_cross w edge a1 a2 sn1 sn2 g :
  node_supernode w !! edge.1 = Some a1 →
  node_supernode w !! edge.2 = Some a2 →
  supernodes w !! a1 = Some sn1 →
  supernodes w !! a2 = Some sn2 →
  sn_key sn1 ≠ sn_key sn2 →
  graphs w !! contracted_graph = Some g →
  place_edge contracted_graph edge w
  = ([],
     set_graphs
       <[contracted_graph :=
           mkDecGraph (V g)
             (<[(sn_key sn1, sn_key sn2) :=
                  Superedge_add_edge
                    (default (new_Superedge a1 a2 (level (self w)))
                       (E g !! (sn_key sn1, sn_key sn2))) edge]> (E g))]> w,
     inr tt).
Proof.
  intros H1 H2 Hs1 Hs2 Hk Hg. unfold place_edge. run.
  rewrite H1, H2. simpl. rewrite Hs1, Hs2. simpl.
  rewrite decide_True by done. by rewrite Hg.
Qed.

Lemma place_edge_inner w edge a1 a2 sn1 sn2 :
  node_supernode w !! edge.1 = Some a1 →
  node_supernode w !! edge.2 = Some a2 →
  supernodes w !! a1 = Some sn1 →
  supernodes w !! a2 = Some sn2 →
  sn_key sn1 = sn_key sn2 →
  edge.1 ∈ ig_V (sn_dec sn1) →
  edge.2 ∈ ig_V (sn_dec sn1) →
  edge ∉ ig_E (sn_dec sn1) →
  place_edge contracted_graph edge w
  = ([],
     set_supernodes
       <[a1 := with_sn_dec (InnerGraph_add_edge edge (sn_dec sn1)) sn1]> w,
     inr tt).
Proof.
  intros H1 H2 Hs1 Hs2 Hk Ht Hh He. unfold place_edge, Supernode_add_edge. run.
  rewrite H1, H2. simpl. rewrite Hs1, Hs2. simpl.
  rewrite decide_False by (intros Hne; by apply Hne). simpl.
  rewrite Hs1. rewrite decide_True by done. by rewrite decide_False by done.
Qed.

(** The world the second loop starts from: the contracted graph has no edge
    yet; every endpoint of an edge has been placed in a supernode whose
    inner graph has no edge yet; supernodes that hold endpoints are told
    apart by their keys. *)
Variable w1 : World.
Variable edges : list (string * string).
Variable g1 : DecGraph.
Hypothesis Hg1 : graphs w1 !! contracted_graph = Some g1.
Hypothesis HE1 : E g1 = ∅.
Hypothesis Hplaced :
  ∀ e n, e ∈ edges → n = e.1 ∨ n = e.2 →
    ∃ a sn, node_supernode w1 !! n = Some a
            ∧ supernodes w1 !! a = Some sn
            ∧ n ∈ ig_V (sn_dec sn)
            ∧ ig_E (sn_dec sn) = ∅.
Hypothesis Hkeys :
  ∀ e1 n1 e2 n2 a1 a2 sn1 sn2,
    e1 ∈ edges → n1 = e1.1 ∨ n1 = e1.2 →
    e2 ∈ edges → n2 = e2.1 ∨ n2 = e2.2 →
    node_supernode w1 !! n1 = Some a1 →
    node_supernode w1 !! n2 = Some a2 →
    supernodes w1 !! a1 = Some sn1 →
    supernodes w1 !! a2 = Some sn2 →
    sn_key sn1 = sn_key sn2 → a1 = a2.
Hypothesis Hnodup : NoDup edges.

Lemma EdgeInv_init : EdgeInv contracted_graph w1 [] w1.
Proof.
  split; try done.
  - exists g1, g1. rewrite insert_id by done. repeat split; try done.
    + intros k se. by rewrite HE1, lookup_empty.
    + intros e ???? []%elem_of_nil.
  - intros a sn1 Hsn. exists (ig_E (sn_dec sn1)). split.
    + by destruct sn1 as [???[]?].
    + intros e. split; [by left|]. by intros [?|[[]%elem_of_nil _]].
Qed.

Lemma EdgeInv_step done edge rest w :
  edges = done ++ edge :: rest →
  EdgeInv contracted_graph w1 done w →
  ∃ w', place_edge contracted_graph edge w = ([], w', inr tt)
        ∧ EdgeInv contracted_graph w1 (done ++ [edge]) w'.
Proof.
  intros Hl HI.
  assert (Hin : edge ∈ edges).
  { rewrite Hl. apply elem_of_app. right. left. }
  assert (Hnew : edge ∉ done).
  { rewrite Hl in Hnodup. apply NoDup_app in Hnodup as (_ & Hd & _).
    intros Hd'. apply (Hd _ Hd'). left. }
  destruct (Hplaced edge edge.1 Hin (or_introl eq_refl))
    as (a1 & sn1 & Hb1 & Hs1 & HV1 & HE1').
  destruct (Hplaced edge edge.2 Hin (or_intror eq_refl))
    as (a2 & sn2 & Hb2 & Hs2 & HV2 & HE2').
  destruct HI as [Hself Hbr (g1' & g & Hg1' & Hg & HVg & Hse & Hcross) Hnone Hsn].
  assert (g1' = g1) as -> by congruence.
  destruct (Hsn a1 sn1 Hs1) as (ie1 & Hc1 & Hie1).
  destruct (Hsn a2 sn2 Hs2) as (ie2 & Hc2 & Hie2).
  destruct (decide (sn_key sn1 = sn_key sn2)) as [Hk|Hk].
  - assert (a1 = a2) as <-.
    { eapply (Hkeys edge edge.1 edge edge.2); eauto. }
    assert (sn2 = sn1) as -> by congruence. clear ie2 Hc2 Hie2.
    eexists. split.
    { eapply place_edge_inner; rewrite ?Hbr; eauto.
      simpl. rewrite Hie1, HE1'. intros [[]%elem_of_empty|[? _]]. done. }
    split; simpl; try done.
    + exists g1, g. split_and!; try done.
      * intros k se Hkse. destruct (Hse k se Hkse)
          as (s1 & s2 & ? & ? & ? & ? & ? & ? & ? & Hdec).
        exists s1, s2. split_and!; try done. intros e. split.
        -- intros He. apply Hdec in He as (? & ? & ?). split_and!; try done.
           apply elem_of_app. by left.
        -- intros ([He|He%list_elem_of_singleton]%elem_of_app & Ht & Hh).
           ++ by apply Hdec.
           ++ subst e. exfalso. assert (se_tail se = se_head se) by congruence.
              assert (s1 = s2) by congruence. congruence.
      * intros e b1 b2 t1 t2 [He|He%list_elem_of_singleton]%elem_of_app ?????.
        -- by eapply Hcross.
        -- subst e. congruence.
    + intros a Ha. rewrite lookup_insert_ne; [by apply Hnone|]. congruence.
    + intros a sn Ha. destruct (decide (a = a1)) as [->|Hne].
      * assert (sn = sn1) as -> by congruence.
        rewrite lookup_insert_eq. exists ({[edge]} ∪ ie1). split; [done|].
        intros e. rewrite elem_of_union, elem_of_singleton, Hie1.
        rewrite elem_of_app, list_elem_of_singleton. naive_solver.
      * rewrite lookup_insert_ne by done.
        destruct (Hsn a sn Ha) as (ie & ? & Hie). exists ie. split; [done|].
        intros e. rewrite Hie, elem_of_app, list_elem_of_singleton.
        naive_solver.
  - eexists. split.
    { eapply place_edge_cross; rewrite ?Hbr; eauto.
      rewrite Hg. apply lookup_insert_eq. }
    simpl. split; simpl; try done.
    + exists g1. eexists. split; [done|]. split.
      { rewrite Hg. by rewrite insert_insert_eq. }
      simpl. split; [done|]. split.
      * intros k se. destruct (decide (k = (sn_key sn1, sn_key sn2))) as [->|Hne].
        -- rewrite lookup_insert_eq. intros [= <-].
           destruct (E g !! (sn_key sn1, sn_key sn2)) as [se0|] eqn:Hse0; simpl.
           ++ destruct (Hse _ _ Hse0)
                as (s1 & s2 & Ht1 & Ht2 & Hkk & ? & ? & ? & (e0 & He0) & Hdec).
              pose proof He0 as He0'. apply Hdec in He0' as (Hd0 & Hb01 & Hb02).
              assert (He0in : e0 ∈ edges).
              { rewrite Hl. apply elem_of_app. by left. }
              injection Hkk as Hkk1 Hkk2.
              assert (se_tail se0 = a1) as Eq1.
              { eapply (Hkeys e0 e0.1 edge edge.1); eauto. }
              assert (se_head se0 = a2) as Eq2.
              { eapply (Hkeys e0 e0.2 edge edge.2); eauto. }
              exists s1, s2. simpl. split_and!; try done.
              { by rewrite <-Hkk1, <-Hkk2. }
              { exists edge. apply elem_of_union. left. by apply elem_of_singleton. }
              intros e. rewrite elem_of_union, elem_of_singleton, Hdec.
              rewrite elem_of_app, list_elem_of_singleton. split.
              { intros [->|(? & ? & ?)]; [|by split_and!; [left|..]].
                rewrite Eq1, Eq2. by split_and!; [right|..]. }
              { intros ([?| ->] & ? & ?); [right|left]; done. }
           ++ exists sn1, sn2. simpl. rewrite Hself. split_and!; try done.
              { exists edge. apply elem_of_union. left. by apply elem_of_singleton. }
              intros e. rewrite elem_of_union, elem_of_singleton.
              rewrite elem_of_app, list_elem_of_singleton. split.
              { intros [->|[]%elem_of_empty]. by split_and!; [right|..]. }
              { intros ([He| ->] & ? & ?); [|by left].
                destruct (Hcross e a1 a2 sn1 sn2) as [? Hx]; try done.
                congruence. }
        -- rewrite lookup_insert_ne by done. intros Hkse.
           destruct (Hse k se Hkse)
             as (s1 & s2 & ? & ? & ? & ? & ? & ? & ? & Hdec).
           exists s1, s2. split_and!; try done. intros e. split.
           ++ intros He. apply Hdec in He as (? & ? & ?). split_and!; try done.
              apply elem_of_app. by left.
           ++ intros ([He | ->%list_elem_of_singleton]%elem_of_app & Ht & Hh).
              ** by apply Hdec.
              ** exfalso. apply Hne. subst k.
                 assert (se_tail se = a1) by congruence.
                 assert (se_head se = a2) by congruence.
                 assert (s1 = sn1) by congruence.
                 assert (s2 = sn2) by congruence. by subst.
      * intros e b1 b2 t1 t2 [He | ->%list_elem_of_singleton]%elem_of_app ?????.
        -- apply lookup_insert_is_Some'. right. by eapply Hcross.
        -- apply lookup_insert_is_Some'. left.
           assert (b1 = a1) by congruence. assert (b2 = a2) by congruence.
           subst. assert (t1 = sn1) by congruence.
           assert (t2 = sn2) by congruence. by subst.
    + intros a sn Ha. destruct (Hsn a sn Ha) as (ie & ? & Hie). exists ie.
      split; [done|]. intros e. rewrite Hie, elem_of_app, list_elem_of_singleton.
      split; [naive_solver|]. intros [?|([?| ->] & ? & ?)]; [by left|by right|].
      exfalso. apply Hk. assert (a1 = a) by congruence.
      assert (a2 = a) by congruence. congruence.
Qed.

Lemma edge_loop :
  ∃ w', for_each edges (place_edge contracted_graph) w1 = ([], w', inr tt)
        ∧ EdgeInv contracted_graph w1 edges w'.
Proof.
  destruct (for_each_invariant (place_edge contracted_graph)
              (λ done evs w, evs = [] ∧ EdgeInv contracted_graph w1 done w)
              edges w1) as (evs & w' & Hrun & -> & HI).
  - split; [done|]. apply EdgeInv_init.
  - intros done x rest evs w Hl [-> HI].
    destruct (EdgeInv_step done x rest w Hl HI) as (w2 & ? & ?).
    by exists [], w2.
  - by exists w'.
Qed.
End EdgeLoop.

(** ** Grouping prescribed by a table *)

Lemma sig_of_Some t n s :
  NoDup t.*1 →
  sig_of t n = Some s ↔ ∃ sos, (n, sos) ∈ t ∧ frozenset sos = s.
Proof.
  intros Hnd. unfold sig_of. rewrite fmap_Some. split.
  - intros (sos & Hl & ->). exists sos. split; [|done].
    by apply elem_of_list_to_map.
  - intros (sos & Hin & <-). exists sos. split; [|done].
    by apply elem_of_list_to_map.
Qed.

Lemma sig_of_listed t n :
  NoDup t.*1 → n ∈ t.*1 → ∃ sos, (n, sos) ∈ t ∧ sig_of t n = Some (frozenset sos).
Proof.
  intros Hnd ([n' sos] & -> & Hin)%list_elem_of_fmap. exists sos.
  split; [done|]. apply sig_of_Some; [done|]. by exists sos.
Qed.

Lemma elem_of_signatures t s :
  s ∈ signatures t ↔ ∃ row, row ∈ t ∧ frozenset row.2 = s.
Proof.
  unfold signatures. rewrite elem_of_list_to_set, list_elem_of_fmap.
  naive_solver.
Qed.

Lemma elem_of_members_of t s n :
  n ∈ members_of t s ↔ ∃ sos, (n, sos) ∈ t ∧ frozenset sos = s.
Proof.
  unfold members_of. rewrite elem_of_list_to_set, list_elem_of_fmap. split.
  - intros ([n' sos] & -> & [? ?]%list_elem_of_filter). by exists sos.
  - intros (sos & ? & ?). exists (n, sos). split; [done|].
    by apply list_elem_of_filter.
Qed.

Lemma elem_of_edges_between t edges s1 s2 e :
  e ∈ edges_between t edges s1 s2
  ↔ e ∈ edges ∧ sig_of t e.1 = Some s1 ∧ sig_of t e.2 = Some s2.
Proof.
  unfold edges_between. rewrite elem_of_list_to_set, list_elem_of_filter.
  naive_solver.
Qed.

(** ** [_make_dec_graph] as a whole *)

Lemma make_dec_graph_built name t G w :
  well_formed t G →
  let c0 := _supernode_id_counter (self w) in
  let cg := fresh (dom (graphs w)) in
  let k := Z.of_nat (size (signatures t)) in
  ∃ w' g,
    _make_dec_graph name t G w
      = (EvSupernodeId <$> seqZ (c0 + 1) k, w', inr cg)
    ∧ self w' = with_supernode_table (supernode_table (self w'))
                  (with_supernode_id_counter (c0 + k) (self w))
    ∧ graphs w' = <[cg := g]> (graphs w)
    ∧ (∀ a, a ∈ dom (supernodes w) → supernodes w' !! a = supernodes w !! a)
    ∧ (∀ n, n ∉ t.*1 → node_supernode w' !! n = node_supernode w !! n)
    ∧ Built name t (lg_edges G) (level (self w)) c0 (supernodes w) w' cg g.
Proof.
  intros (Hnd & Hnde & Hcov) c0 cg k. rewrite Forall_forall in Hcov.
  set (wb := set_graphs <[cg := mkDecGraph ∅ ∅]>
               (set_self (with_supernode_table ∅) w)).
  destruct (node_loop name cg wb t) as (evs & w1 & Hrun1 & HN); [done| |done|].
  { simpl. apply lookup_insert_eq. }
  pose proof HN
    as [Hself Hc Hev (g1 & Hg1 & HE1 & HV & HTV) Hold Hdom Hobj Hbr Hfr Hnw].
  simpl in Hself, Hc, Hev, Hg1, Hold, Hobj, Hfr.
  rewrite insert_insert_eq in Hg1.
  set (tbl := supernode_table (self w1)) in *.
  assert (Hinj : ∀ s1 s2 a, tbl !! s1 = Some a → tbl !! s2 = Some a → s1 = s2).
  { intros s1 s2 a H1 H2.
    destruct (Hobj _ _ H1) as (_ & sn & Hsn & <- & _).
    destruct (Hobj _ _ H2) as (_ & sn' & Hsn' & <- & _). congruence. }
  assert (Hbrsig : ∀ n s a, n ∈ t.*1 → tbl !! s = Some a →
            node_supernode w1 !! n = Some a ↔ sig_of t n = Some s).
  { intros n s a Hn Hs. destruct (sig_of_listed t n Hnd Hn) as (sos & Hin & Hsig).
    rewrite (Hbr _ _ Hin), Hsig. split.
    - intros Ha. f_equal. by eapply Hinj.
    - intros [= ->]. done. }
  assert (Hsize : size tbl = size (signatures t)).
  { rewrite <-size_dom. f_equal. apply set_eq. intros s.
    rewrite elem_of_dom, Hdom, elem_of_signatures. done. }
  assert (Hg1l : graphs w1 !! cg = Some g1) by (by rewrite Hg1, lookup_insert_eq).
  destruct (edge_loop cg w1 (lg_edges G) g1 Hg1l HE1) as (w2 & Hrun2 & HEI); [| |done|].
  { intros e n He Hn.
    assert (n ∈ t.*1) as Hnt by (destruct (Hcov e He); by destruct Hn as [->| ->]).
    destruct (sig_of_listed t n Hnd Hnt) as (sos & Hin & Hsig).
    assert (is_Some (tbl !! frozenset sos)) as [a Ha].
    { apply Hdom. by exists (n, sos). }
    destruct (Hobj _ _ Ha) as (_ & sn & Hsn & _ & _ & _ & _ & HigE & HigV).
    exists a, sn. split_and!; try done.
    - by rewrite (Hbr _ _ Hin).
    - apply HigV. by exists sos. }
  { intros e1 n1 e2 n2 a1 a2 sn1 sn2 He1 Hn1 He2 Hn2 Hb1 Hb2 Hs1 Hs2 Hk.
    assert (n1 ∈ t.*1) as Hnt1 by (destruct (Hcov e1 He1); by destruct Hn1 as [->| ->]).
    assert (n2 ∈ t.*1) as Hnt2 by (destruct (Hcov e2 He2); by destruct Hn2 as [->| ->]).
    destruct (sig_of_listed t n1 Hnd Hnt1) as (sos1 & Hin1 & _).
    destruct (sig_of_listed t n2 Hnd Hnt2) as (sos2 & Hin2 & _).
    rewrite (Hbr _ _ Hin1) in Hb1. rewrite (Hbr _ _ Hin2) in Hb2.
    destruct (HTV _ _ Hb1) as (sn1' & ? & HV1).
    destruct (HTV _ _ Hb2) as (sn2' & ? & HV2).
    assert (sn1' = sn1) as -> by congruence.
    assert (sn2' = sn2) as -> by congruence.
    rewrite Hk in HV1. congruence. }
  destruct HEI as [Hself2 Hbr2 (g1' & g2 & Hg1' & Hg2 & HVg2 & Hse & Hcross) Hnone Hsn2].
  assert (g1' = g1) as -> by congruence.
  exists w2, g2. split_and!.
  - unfold _make_dec_graph, bind, modify, new_DecGraph, ret. simpl.
    fold cg. fold wb. rewrite Hrun1, Hrun2. rewrite app_nil_r.
    rewrite Hev. fold tbl. rewrite Hsize. done.
  - rewrite Hself2, Hself. fold tbl. rewrite Hc. fold tbl. by rewrite Hsize.
  - rewrite Hg2, Hg1. by rewrite insert_insert_eq.
  - intros a Ha. rewrite <-(Hold a Ha).
    assert (is_Some (supernodes w1 !! a)) as [sn Hsn].
    { rewrite (Hold a Ha). by apply elem_of_dom. }
    destruct (Hsn2 a sn Hsn) as (ie & Hsn' & Hie). rewrite Hsn', Hsn.
    f_equal. destruct sn as [? ? ? [] ?]. unfold with_sn_dec. simpl. do 2 f_equal.
    apply set_eq. intros e. rewrite Hie. simpl. split; [|by left].
    intros [?|(He & Hb1 & Hb2)]; [done|]. exfalso.
    destruct (Hcov e He) as [Ht1 _].
    destruct (sig_of_listed t e.1 Hnd Ht1) as (sos & Hin & _).
    rewrite (Hbr _ _ Hin) in Hb1. destruct (Hobj _ _ Hb1) as (Hnew & _).
    by apply Hnew.
  - intros n Hn. rewrite Hbr2. by rewrite (Hfr n Hn).
  - split.
    + rewrite Hg2. apply lookup_insert_eq.
    + intros s. rewrite Hself2. fold tbl. rewrite Hdom, elem_of_signatures. done.
    + intros s a. rewrite Hself2. fold tbl. intros Hs.
      destruct (Hobj _ _ Hs)
        as (Hnew & sn & Hsn & Hsos & Hlvl & _ & (id & Hid & Hkey) & HigE & HigV).
      split; [done|].
      destruct (Hsn2 a sn Hsn) as (ie & Hsn' & Hie).
      rewrite Hc in Hid. fold tbl in Hid. rewrite Hsize in Hid.
      eexists _, id. split; [exact Hsn'|]. simpl.
      split_and!; try done; try (unfold c0; lia).
      * apply set_eq. intros n. by rewrite HigV, elem_of_members_of.
      * apply set_eq. intros e. rewrite Hie, HigE, elem_of_edges_between.
        split.
        -- intros [[]%elem_of_empty|(He & Hb1 & Hb2)].
           destruct (Hcov e He) as [??].
           split_and!; [done|by eapply Hbrsig|by eapply Hbrsig].
        -- intros (He & Hb1 & Hb2). right. destruct (Hcov e He) as [??].
           split_and!; [done|by eapply Hbrsig|by eapply Hbrsig].
      * rewrite HVg2. destruct (HTV _ _ Hs) as (sn' & ? & ?).
        by assert (sn' = sn) as -> by congruence.
    + intros key a. rewrite HVg2, Hself2. fold tbl. intros Hka.
      destruct (HV _ _ Hka) as (s & sn & Hs & Hsn & Hkey).
      destruct (Hsn2 a sn Hsn) as (ie & Hsn' & _).
      eexists s, _. split_and!; [done|exact Hsn'|done].
    + intros n s Hsig. rewrite Hbr2, Hself2. fold tbl.
      apply sig_of_Some in Hsig as (sos & Hin & <-); [|done]. by apply Hbr.
    + intros key se Hkse. rewrite Hself2. fold tbl.
      destruct (Hse key se Hkse)
        as (sn1 & sn2 & Hs1 & Hs2 & -> & Hkne & Hlvl & _ & (e0 & He0) & Hdec).
      pose proof He0 as He0'. apply Hdec in He0' as (He0in & Hb1 & Hb2).
      destruct (Hcov e0 He0in) as [Ht1 Ht2].
      destruct (sig_of_listed t e0.1 Hnd Ht1) as (sos1 & Hin1 & Hsig1).
      destruct (sig_of_listed t e0.2 Hnd Ht2) as (sos2 & Hin2 & Hsig2).
      pose proof Hb1 as Hb1'. rewrite (Hbr _ _ Hin1) in Hb1'.
      pose proof Hb2 as Hb2'. rewrite (Hbr _ _ Hin2) in Hb2'.
      destruct (Hsn2 _ sn1 Hs1) as (ie1 & Hsn1' & _).
      destruct (Hsn2 _ sn2 Hs2) as (ie2 & Hsn2' & _).
      eexists (frozenset sos1), (frozenset sos2), _, _.
      split_and!;
        [done|done|exact Hsn1'|exact Hsn2'|done| |by rewrite Hlvl, Hself| |].
      * intros Heq. rewrite Heq in Hb1'. apply Hkne.
        assert (se_tail se = se_head se) by congruence.
        assert (sn1 = sn2) by congruence. by subst.
      * apply set_eq. intros e. rewrite Hdec, elem_of_edges_between. split.
        -- intros (He & Hx1 & Hx2). destruct (Hcov e He) as [??].
           split_and!; [done|by eapply Hbrsig|by eapply Hbrsig].
        -- intros (He & Hx1 & Hx2). destruct (Hcov e He) as [??].
           split_and!; [done|by eapply Hbrsig|by eapply Hbrsig].
      * intros Hemp. rewrite Hemp in He0. by apply elem_of_empty in He0.
    + intros e s1 s2 He Hsig1 Hsig2 Hne. rewrite Hself2. fold tbl.
      destruct (Hcov e He) as [Ht1 Ht2].
      assert (is_Some (tbl !! s1)) as [a1 Ha1].
      { apply Hdom. apply sig_of_Some in Hsig1 as (sos & ? & ?); [|done].
        by exists (e.1, sos). }
      assert (is_Some (tbl !! s2)) as [a2 Ha2].
      { apply Hdom. apply sig_of_Some in Hsig2 as (sos & ? & ?); [|done].
        by exists (e.2, sos). }
      destruct (HTV _ _ Ha1) as (sn1 & Hsn1 & HV1).
      destruct (HTV _ _ Ha2) as (sn2 & Hsn2' & HV2).
      destruct (Hsn2 _ sn1 Hsn1) as (ie1 & Hsn1'' & _).
      destruct (Hsn2 _ sn2 Hsn2') as (ie2 & Hsn2'' & _).
      eexists a1, a2, _, _.
      split_and!; [done|done|exact Hsn1''|exact Hsn2''|]. simpl.
      eapply (Hcross e a1 a2); try done.
      * by eapply Hbrsig.
      * by eapply Hbrsig.
      * intros Hk. rewrite Hk in HV1. apply Hne. eapply Hinj; [done|].
        congruence.
    + intros a Ha. rewrite Hself2. fold tbl.
      destruct (supernodes w1 !! a) as [sn|] eqn:Hsn1.
      * apply Hnw. by rewrite Hsn1.
      * rewrite (Hnone a Hsn1) in Ha. by destruct Ha.
Qed.

(** ** Strategies, decoration and [contract] *)

Lemma set_component_set_id_counter_id w :
  set_self (with_component_set_id_counter (_component_set_id_counter (self w))) w
  = w.
Proof. by destruct w as [[] ? ? ?]. Qed.

Lemma strategy_result_le {A} (s : Strategy A) c :
  (c ≤ (strategy_result s c).1)%Z.
Proof.
  revert c. induction s as [a|e|k IH]; intros c; simpl; [lia|lia|].
  specialize (IH (c + 1)%Z (c + 1)%Z). lia.
Qed.

(** Running a strategy draws consecutive component-set identifiers and
    touches nothing but their counter. *)
Lemma run_strategy_spec {A} (s : Strategy A) w :
  let c := _component_set_id_counter (self w) in
  let c' := (strategy_result s c).1 in
  run_strategy s w
  = (EvComponentSetId <$> seqZ (c + 1) (c' - c),
     set_self (with_component_set_id_counter c') w,
     (strategy_result s c).2).
Proof.
  revert w. induction s as [a|e|k IH]; intros w; simpl.
  - rewrite Z.sub_diag. simpl. unfold ret.
    by rewrite set_component_set_id_counter_id.
  - rewrite Z.sub_diag. simpl. unfold raise.
    by rewrite set_component_set_id_counter_id.
  - unfold bind, _get_component_set_id, modify, get, emit, ret. simpl.
    rewrite IH. simpl.
    set (c := _component_set_id_counter (self w)).
    pose proof (strategy_result_le (k (c + 1)%Z) (c + 1)%Z) as Hle.
    set (c' := (strategy_result (k (c + 1)%Z) (c + 1)%Z).1) in *.
    rewrite (seqZ_cons (c + 1) (c' - c)) by lia. simpl.
    replace (Z.succ (c + 1)) with (c + 1 + 1)%Z by lia.
    replace (Z.pred (c' - c)) with (c' - (c + 1))%Z by lia.
    by destruct w as [[] ? ? ?].
Qed.

Global Instance same_supernode_refl : Reflexive same_supernode.
Proof. by intros sn. Qed.
Global Instance same_supernode_trans : Transitive same_supernode.
Proof. intros ??? (?&?&?&?) (?&?&?&?). split_and!; congruence. Qed.
Global Instance same_superedge_refl : Reflexive same_superedge.
Proof. by intros se. Qed.
Global Instance same_superedge_trans : Transitive same_superedge.
Proof. intros ??? (?&?&?&?) (?&?&?&?). split_and!; congruence. Qed.
Global Instance same_graph_refl : Reflexive same_graph.
Proof. intros g. split; [done|]. intros k. reflexivity. Qed.
Global Instance same_graph_trans : Transitive same_graph.
Proof.
  intros g1 g2 g3 [? H1] [? H2]. split; [congruence|].
  intros k. etrans; [apply H1|apply H2].
Qed.

Global Instance attr_equiv_refl : Reflexive attr_equiv.
Proof. intros w. split; try done; intros a; reflexivity. Qed.
Global Instance attr_equiv_trans : Transitive attr_equiv.
Proof.
  intros w1 w2 w3 [? ? S1 G1] [? ? S2 G2]. split; try congruence.
  - intros a. etrans; [apply S1|apply S2].
  - intros a. etrans; [apply G1|apply G2].
Qed.

Lemma for_each_decorate {X} (f : X → World → World) (l : list X) w :
  (∀ x w, attr_equiv w (f x w)) →
  ∃ w', for_each l (λ x, modify (f x)) w = ([], w', inr tt) ∧ attr_equiv w w'.
Proof.
  intros Hf. revert w. induction l as [|x l IH]; intros w; simpl.
  - by exists w.
  - destruct (IH (f x w)) as (w' & Hrun & Heq). exists w'. split.
    + unfold bind, modify at 1. by rewrite Hrun.
    + etrans; [apply Hf|exact Heq].
Qed.

Section Decoration.
Variable _supernode_attr_function : Supernode → gmap string string.
Variable _superedge_attr_function : Superedge → gmap string string.
Variable _c_set_attr_function : gset string → gmap string string.

Lemma decorate_supernode_equiv a w :
  attr_equiv w
    (set_supernodes (alter (λ sn,
       Supernode_update (_supernode_attr_function sn) sn) a) w).
Proof.
  split; try done; simpl; try (intros b; reflexivity).
  intros b. destruct (decide (a = b)) as [->|].
  - rewrite lookup_alter_eq. by destruct (supernodes w !! b); constructor.
  - rewrite lookup_alter_ne by done. reflexivity.
Qed.

Lemma decorate_superedge_equiv ga k w :
  attr_equiv w
    (set_graphs (alter (λ g,
       mkDecGraph (V g)
         (alter (λ se, Superedge_update (_superedge_attr_function se) se)
            k (E g))) ga) w).
Proof.
  split; try done; simpl; try (intros b; reflexivity).
  intros b. destruct (decide (ga = b)) as [->|].
  - rewrite lookup_alter_eq. destruct (graphs w !! b) as [g|]; constructor.
    split; [done|]. simpl. intros k'. destruct (decide (k = k')) as [->|].
    + rewrite lookup_alter_eq. by destruct (E g !! k'); constructor.
    + rewrite lookup_alter_ne by done. reflexivity.
  - rewrite lookup_alter_ne by done. reflexivity.
Qed.

(** [update_attr] succeeds once the scheme holds a graph and a table, and
    changes attribute maps only. *)
Lemma update_attr_spec w ga g t :
  dec_graph (self w) = Some ga →
  graphs w !! ga = Some g →
  contraction_sets_table (self w) = Some t →
  ∃ w',
    update_attr _supernode_attr_function _superedge_attr_function
      _c_set_attr_function w = ([], w', inr tt)
    ∧ attr_equiv w w'
    ∧ contraction_sets_table (self w')
      = Some (decorate_table _c_set_attr_function t).
Proof.
  intros Hga Hg Ht.
  destruct (for_each_decorate
              (λ a, set_supernodes (alter (λ sn,
                 Supernode_update (_supernode_attr_function sn) sn) a))
              (map_to_list (V g)).*2 w) as (w1 & Hrun1 & Heq1).
  { intros. apply decorate_supernode_equiv. }
  destruct (for_each_decorate
              (λ k, set_graphs (alter (λ g,
                 mkDecGraph (V g)
                   (alter (λ se,
                      Superedge_update (_superedge_attr_function se) se)
                      k (E g))) ga))
              (map_to_list (E g)).*1 w1) as (w2 & Hrun2 & Heq2).
  { intros. apply decorate_superedge_equiv. }
  eexists. split_and!.
  - unfold update_attr, bind, get. simpl. rewrite Hga, Hg.
    unfold decorate_supernode, decorate_superedge.
    rewrite Hrun1, Hrun2. rewrite Ht. unfold modify. simpl. reflexivity.
  - etrans; [exact Heq1|]. etrans; [exact Heq2|].
    split; try done; intros a; reflexivity.
  - done.
Qed.
End Decoration.

Lemma option_Forall2_Some_l {A} (R : relation A) x my :
  option_Forall2 R (Some x) my → ∃ y, my = Some y ∧ R x y.
Proof. inversion 1; eauto. Qed.

Lemma option_Forall2_Some_r {A} (R : relation A) mx y :
  option_Forall2 R mx (Some y) → ∃ x, mx = Some x ∧ R x y.
Proof. inversion 1; eauto. Qed.

(** What [_make_dec_graph] built survives decoration. *)
Lemma Built_attr_equiv name t edges lvl c0 old w w' cg g :
  Built name t edges lvl c0 old w cg g →
  attr_equiv w w' →
  ∃ g', Built name t edges lvl c0 old w' cg g'.
Proof.
  intros [Hg Hdom Hobj HV Hbr HE Hcross Hnw] [Hself Hbr' Hsn Hgr].
  assert (Htbl : supernode_table (self w') = supernode_table (self w)).
  { by apply (f_equal supernode_table) in Hself. }
  pose proof (Hgr cg) as Hg'. rewrite Hg in Hg'.
  apply option_Forall2_Some_l in Hg' as (g' & E2 & HVeq & HEeq).
  assert (Hsn_at : ∀ a sn, supernodes w !! a = Some sn →
            ∃ sn', supernodes w' !! a = Some sn' ∧ same_supernode sn sn').
  { intros a sn Ha. pose proof (Hsn a) as Hx. rewrite Ha in Hx.
    by apply option_Forall2_Some_l in Hx. }
  assert (Hse_at : ∀ k se', E g' !! k = Some se' →
            ∃ se, E g !! k = Some se ∧ same_superedge se se').
  { intros k se' Hk. pose proof (HEeq k) as Hx. rewrite Hk in Hx.
    by apply option_Forall2_Some_r in Hx. }
  exists g'. split; rewrite ?Htbl, ?Hbr'; try done.
  - intros s a Hs. destruct (Hobj s a Hs)
      as (? & sn & id & Ha & ? & ? & ? & ? & ? & ? & ?).
    split; [done|]. destruct (Hsn_at a sn Ha) as (sn' & Ha' & K & L & S & D).
    exists sn', id. rewrite <-K, <-L, <-S, <-D, <-HVeq. done.
  - intros k a. rewrite <-HVeq. intros Hk.
    destruct (HV k a Hk) as (s & sn & ? & Ha & ?).
    destruct (Hsn_at a sn Ha) as (sn' & Ha' & K & _).
    exists s, sn'. rewrite <-K. done.
  - intros k se' Hk. destruct (Hse_at k se' Hk) as (se & Hk0 & T & H & L & D).
    destruct (HE k se Hk0)
      as (s1 & s2 & sn1 & sn2 & ? & ? & Ha1 & Ha2 & ? & ? & ? & ? & ?).
    destruct (Hsn_at _ sn1 Ha1) as (sn1' & Ha1' & K1 & _).
    destruct (Hsn_at _ sn2 Ha2) as (sn2' & Ha2' & K2 & _).
    exists s1, s2, sn1', sn2'. rewrite <-T, <-H, <-L, <-D, <-K1, <-K2. done.
  - intros e s1 s2 He H1 H2 Hne.
    destruct (Hcross e s1 s2 He H1 H2 Hne)
      as (a1 & a2 & sn1 & sn2 & ? & ? & Ha1 & Ha2 & [se Hse]).
    destruct (Hsn_at _ sn1 Ha1) as (sn1' & Ha1' & K1 & _).
    destruct (Hsn_at _ sn2 Ha2) as (sn2' & Ha2' & K2 & _).
    exists a1, a2, sn1', sn2'. rewrite <-K1, <-K2. split_and!; try done.
    pose proof (HEeq (sn_key sn1, sn_key sn2)) as Hx. rewrite Hse in Hx.
    apply option_Forall2_Some_l in Hx as (se' & ? & _). by exists se'.
  - intros a [sn' Ha]. apply Hnw. pose proof (Hsn a) as Hx. rewrite Ha in Hx.
    apply option_Forall2_Some_r in Hx as (sn & ? & _). by exists sn.
Qed.

(** ** [contract] as a whole *)

Section Contract.
Variable contraction_name : string.
Variable contraction_function :
  LowerGraph → Strategy (list (string * list ComponentSet)).
Variable _supernode_attr_function : Supernode → gmap string string.
Variable _superedge_attr_function : Superedge → gmap string string.
Variable _c_set_attr_function : gset string → gmap string string.

Local Abbreviation contract :=
  (contract contraction_name contraction_function _supernode_attr_function
     _superedge_attr_function _c_set_attr_function).

(** When the strategy returns a well-formed table, [contract] returns a
    new graph object, leaves the scheme valid, and the world is as
    [Built] describes. *)
Lemma contract_built G w t :
  let c := _component_set_id_counter (self w) in
  let c0 := _supernode_id_counter (self w) in
  let cg := fresh (dom (graphs w)) in
  let k := Z.of_nat (size (signatures t)) in
  (strategy_result (contraction_function G) c).2 = inr t →
  well_formed t G →
  let c' := (strategy_result (contraction_function G) c).1 in
  ∃ w' g,
    contract G w
      = ((EvComponentSetId <$> seqZ (c + 1) (c' - c))
           ++ (EvSupernodeId <$> seqZ (c0 + 1) k),
         w', inr (Some cg))
    ∧ self w'
      = mkScheme (level (self w)) (Some cg)
          (Some (decorate_table _c_set_attr_function t))
          (supernode_table (self w')) (update_quadruple (self w))
          (c0 + k) c' true
    ∧ (∀ a, a ≠ cg → option_Forall2 same_graph (graphs w !! a) (graphs w' !! a))
    ∧ (∀ n, n ∉ t.*1 → node_supernode w' !! n = node_supernode w !! n)
    ∧ (∀ a, a ∈ dom (supernodes w) →
         option_Forall2 same_supernode (supernodes w !! a) (supernodes w' !! a))
    ∧ Built contraction_name t (lg_edges G) (level (self w)) c0
        (supernodes w) w' cg g.
Proof.
  intros c c0 cg k Hres Hwf c'.
  pose proof (run_strategy_spec (contraction_function G) w) as Hrun.
  simpl in Hrun. fold c in Hrun. fold c' in Hrun. rewrite Hres in Hrun.
  set (wa := set_self (with_contraction_sets_table (Some t))
               (set_self (with_component_set_id_counter c') w)).
  destruct (make_dec_graph_built contraction_name t G wa Hwf)
    as (w1 & g1 & Hmk & Hself1 & Hg1 & Hold1 & Hfr1 & HB).
  simpl in Hmk, Hself1, Hg1, Hold1, Hfr1, HB.
  fold c0 in Hmk, Hself1, HB. fold cg in Hmk, Hg1, HB. fold k in Hmk, Hself1.
  set (wb := set_self (with_dec_graph (Some cg)) w1).
  destruct (update_attr_spec _supernode_attr_function _superedge_attr_function
              _c_set_attr_function wb cg g1 t) as (w2 & Hup & Heq & Htbl).
  { done. }
  { simpl. rewrite Hg1. apply lookup_insert_eq. }
  { simpl. by rewrite Hself1. }
  assert (HBb : Built contraction_name t (lg_edges G) (level (self w)) c0
                  (supernodes w) wb cg g1).
  { destruct HB. by split. }
  destruct (Built_attr_equiv _ _ _ _ _ _ _ _ _ _ HBb Heq) as (g2 & HB2).
  exists (set_self (with_valid true) w2), g2. split_and!.
  - unfold_contract. unfold bind, modify, get, ret. rewrite Hrun.
    cbv beta iota. fold wa. rewrite Hmk.
    cbv beta iota. fold wb. rewrite Hup.
    cbv beta iota.
    destruct Heq as [Hs _ _ _]. apply (f_equal dec_graph) in Hs. simpl in Hs.
    simpl. rewrite Hs. by rewrite !app_nil_r.
  - destruct Heq as [Hs _ _ _]. simpl.
    destruct (self w2) as [l d ct st uq c1 c2 v] eqn:Hw2. simpl in *.
    injection Hs as -> -> Hst -> -> -> ->. rewrite Hself1. simpl.
    by rewrite Htbl.
  - intros a Ha. simpl. destruct Heq as [_ _ _ Hgr].
    specialize (Hgr a). simpl in Hgr. rewrite Hg1 in Hgr.
    by rewrite lookup_insert_ne in Hgr.
  - intros n Hn. simpl. destruct Heq as [_ Hbr _ _]. rewrite Hbr. simpl.
    by apply Hfr1.
  - intros a Ha. simpl. destruct Heq as [_ _ Hsn _].
    specialize (Hsn a). simpl in Hsn. by rewrite (Hold1 a Ha) in Hsn.
  - destruct HB2. by split.
Qed.
End Contract.

(** ** [update], identifiers and failures *)

Lemma bind_assoc {A B C} (m : M A) (f : A → M B) (g : B → M C) w :
  bind (bind m f) g w = bind m (λ a, bind (f a) g) w.
Proof.
  unfold bind. destruct (m w) as [[t1 w1] [e|a]]; [done|].
  destruct (f a w1) as [[t2 w2] [e|b]]; [done|].
  destruct (g b w2) as [[t3 w3] r]. by rewrite (assoc_L (++)).
Qed.

Lemma bind_ext {A B} (m : M A) (f g : A → M B) w :
  (∀ a w', f a w' = g a w') → bind m f w = bind m g w.
Proof.
  intros H. unfold bind. destruct (m w) as [[t1 w1] [e|a]]; [done|].
  by rewrite H.
Qed.

Lemma for_each_fmap {X Y} (f : X → Y) (body : Y → M unit) (l : list X) :
  for_each (f <$> l) body = for_each l (λ x, body (f x)).
Proof.
  induction l as [|x l IH]; [done|]. rewrite fmap_cons.
  change (for_each (f x :: (f <$> l)) body)
    with (body (f x);; for_each (f <$> l) body).
  by rewrite IH.
Qed.

Lemma for_each_app_then {X B} (body : X → M unit) (l1 l2 : list X)
    (k : M B) w :
  (for_each (l1 ++ l2) body;; k) w
  = (for_each l1 body;; for_each l2 body;; k) w.
Proof.
  rewrite <-bind_assoc. unfold bind at 1 3.
  by rewrite for_each_app.
Qed.

Section Update.
Variable update_added_node : string → World → World * (Exn + unit).
Variable update_removed_node : string → World → World * (Exn + unit).
Variable update_added_edge : string * string → World → World * (Exn + unit).
Variable update_removed_edge : string * string → World → World * (Exn + unit).

Local Abbreviation call_hook :=
  (call_hook update_added_node update_removed_node update_added_edge
     update_removed_edge).
Local Abbreviation update :=
  (update update_added_node update_removed_node update_added_edge
     update_removed_edge).

(** [update] is the prescribed sequence of hook calls, stopped by the first
    exception, followed by reading the scheme's graph reference. *)
Lemma update_unfold q w :
  update q w
  = (for_each (prescribed_calls q) call_hook;;
     do w' <- get; ret (dec_graph (self w'))) w.
Proof.
  unfold prescribed_calls. unfold_update.
  rewrite for_each_app_then, for_each_fmap. apply bind_ext. intros _ w1.
  rewrite for_each_app_then, for_each_fmap. apply bind_ext. intros _ w2.
  rewrite for_each_app_then, for_each_fmap. apply bind_ext. intros _ w3.
  by rewrite for_each_fmap.
Qed.

(** The events of a sequence of hook calls are the calls made, in order;
    all of them when no hook raised. *)
Lemma for_each_call_hook_events cs w :
  ∃ n, events_of (for_each cs call_hook w) = EvHook <$> take n cs
       ∧ (∀ u, outcome_of (for_each cs call_hook w) = inr u → n = length cs).
Proof.
  revert w. induction cs as [|c cs IH]; intros w.
  - exists 0. by split.
  - simpl. unfold bind.
    assert (Hc : call_hook c w
                 = ([EvHook c],
                    (hook_body update_added_node update_removed_node
                       update_added_edge update_removed_edge c w).1,
                    (hook_body update_added_node update_removed_node
                       update_added_edge update_removed_edge c w).2)) by done.
    rewrite Hc. clear Hc.
    destruct (hook_body _ _ _ _ c w) as [w1 [e|[]]]; simpl.
    + exists 1. split; [by destruct cs|]. intros u Hu. by unfold outcome_of in Hu.
    + destruct (IH w1) as (n & Hev & Hn).
      destruct (for_each cs call_hook w1) as [[t2 w2] r] eqn:Hf.
      exists (S n). unfold events_of, outcome_of in *. simpl in *.
      split; [by rewrite Hev|]. intros u Hu. f_equal. by eapply Hn.
Qed.


(** Claim C10.  With a quadruple whose four sets are empty, [update] calls
    no hook (no event), leaves the whole world as it was, and returns the
    scheme's current [dec_graph]. *)
Theorem update_empty_quadruple q w :
  e_minus q = [] → v_minus q = [] → v_plus q = [] → e_plus q = [] →
  update q w = ([], w, inr (dec_graph (self w))).
Proof.
  destruct q as [vp vm ep em]. simpl. intros -> -> -> ->. reflexivity.
Qed.


End Update.

(** With hooks that raise whenever they are called, [update] on the empty
    quadruple still returns. *)
Lemma update_empty_quadruple_witness :
  update (λ _ w, (w, inl InconsistentUpdate))
    (λ _ w, (w, inl InconsistentUpdate))
    (λ _ w, (w, inl InconsistentUpdate))
    (λ _ w, (w, inl InconsistentUpdate)) empty_quadruple init_world
  = ([], init_world, inr None).
Proof. apply update_empty_quadruple; reflexivity. Defined.

Lemma accounts_ret {A} (a : A) : accounts (ret a).
Proof. intros w. simpl. rewrite !Z.sub_diag. by split_and!. Qed.

Lemma accounts_raise {A} (e : Exn) : accounts (@raise A e).
Proof. intros w. simpl. rewrite !Z.sub_diag. by split_and!. Qed.

Lemma accounts_get : accounts get.
Proof. intros w. simpl. rewrite !Z.sub_diag. by split_and!. Qed.

Lemma accounts_modify (f : World → World) :
  (∀ w, _supernode_id_counter (self (f w)) = _supernode_id_counter (self w)
        ∧ _component_set_id_counter (self (f w))
          = _component_set_id_counter (self w)) →
  accounts (modify f).
Proof.
  intros Hf w. simpl. unfold world_of. simpl. destruct (Hf w) as [-> ->].
  rewrite !Z.sub_diag. by split_and!.
Qed.

Lemma seqZ_split (a b c : Z) :
  (a ≤ b)%Z → (b ≤ c)%Z →
  seqZ (a + 1) (b - a) ++ seqZ (b + 1) (c - b) = seqZ (a + 1) (c - a).
Proof.
  intros ??. replace (c - a)%Z with ((b - a) + (c - b))%Z by lia.
  rewrite seqZ_app by lia. do 2 f_equal. lia.
Qed.

Lemma accounts_bind {A B} (m : M A) (k : A → M B) :
  accounts m → (∀ a, accounts (k a)) → accounts (bind m k).
Proof.
  intros Hm Hk w. specialize (Hm w). unfold bind.
  destruct (m w) as [[t1 w1] [e|a]]; [done|].
  specialize (Hk a w1). destruct (k a w1) as [[t2 w2] r].
  unfold world_of, events_of in *. simpl in *.
  destruct Hm as (? & ? & Hs1 & Hc1). destruct Hk as (? & ? & Hs2 & Hc2).
  unfold supernode_ids, component_set_ids in *.
  rewrite !omap_app, Hs1, Hs2, Hc1, Hc2.
  split_and!; try lia; by apply seqZ_split.
Qed.

Lemma accounts_for_each {X} (l : list X) (body : X → M unit) :
  (∀ x, accounts (body x)) → accounts (for_each l body).
Proof.
  intros Hb. induction l as [|x l IH]; simpl.
  - apply accounts_ret.
  - apply accounts_bind; [apply Hb|]. by intros _.
Qed.

Lemma accounts_get_supernode_id : accounts _get_supernode_id.
Proof.
  intros w. unfold world_of, events_of. simpl. split_and!; try lia.
  - replace (_ + 1 - _)%Z with 1%Z by lia. done.
  - by rewrite Z.sub_diag.
Qed.

Lemma accounts_get_component_set_id : accounts _get_component_set_id.
Proof.
  intros w. unfold world_of, events_of. simpl. split_and!; try lia.
  - by rewrite Z.sub_diag.
  - replace (_ + 1 - _)%Z with 1%Z by lia. done.
Qed.

Lemma accounts_run_strategy {A} (s : Strategy A) : accounts (run_strategy s).
Proof.
  induction s as [a|e|k IH]; simpl.
  - apply accounts_ret.
  - apply accounts_raise.
  - apply accounts_bind; [apply accounts_get_component_set_id|done].
Qed.

(** Steps that decompose a computation built from the monad's operations. *)
Ltac accounts_step :=
  first
    [ apply accounts_ret
    | apply accounts_raise
    | apply accounts_get
    | apply accounts_get_supernode_id
    | apply accounts_get_component_set_id
    | apply accounts_run_strategy
    | apply accounts_modify; intros; simpl; by split
    | apply accounts_for_each; intros
    | apply accounts_bind; [|intros]
    | case_match
    | case_decide ].

Ltac accounts_auto := repeat accounts_step.

Lemma accounts_new_DecGraph : accounts new_DecGraph.
Proof.
  intros w. unfold world_of, events_of. simpl. rewrite !Z.sub_diag.
  by split_and!.
Qed.

Lemma accounts_new_Supernode key lvl sos : accounts (new_Supernode key lvl sos).
Proof.
  intros w. unfold world_of, events_of. simpl. rewrite !Z.sub_diag.
  by split_and!.
Qed.

Lemma accounts_DecGraph_add_node g a : accounts (DecGraph_add_node g a).
Proof. unfold DecGraph_add_node. accounts_auto. Qed.

Lemma accounts_Supernode_add_node a n : accounts (Supernode_add_node a n).
Proof. unfold Supernode_add_node. accounts_auto. Qed.

Lemma accounts_Supernode_add_edge a e : accounts (Supernode_add_edge a e).
Proof. unfold Supernode_add_edge. accounts_auto. Qed.

Section Accounting.
Variable contraction_name : string.
Variable contraction_function :
  LowerGraph → Strategy (list (string * list ComponentSet)).
Variable _supernode_attr_function : Supernode → gmap string string.
Variable _superedge_attr_function : Superedge → gmap string string.
Variable _c_set_attr_function : gset string → gmap string string.

Local Abbreviation contract :=
  (contract contraction_name contraction_function _supernode_attr_function
     _superedge_attr_function _c_set_attr_function).

Lemma accounts_place_node cg row :
  accounts (place_node contraction_name cg row).
Proof.
  unfold place_node. apply accounts_bind; [apply accounts_get|]. intros w.
  apply accounts_bind.
  - case_match; [apply accounts_ret|].
    apply accounts_bind; [apply accounts_get_supernode_id|]. intros id.
    apply accounts_bind; [apply accounts_new_Supernode|]. intros a.
    apply accounts_bind; [accounts_auto|]. intros _.
    apply accounts_bind; [apply accounts_DecGraph_add_node|]. intros _.
    apply accounts_ret.
  - intros a. apply accounts_bind; [apply accounts_Supernode_add_node|].
    intros _. accounts_auto.
Qed.

Lemma accounts_place_edge cg e : accounts (place_edge cg e).
Proof.
  unfold place_edge. apply accounts_bind; [apply accounts_get|]. intros w.
  repeat case_match; try apply accounts_raise;
    try apply accounts_Supernode_add_edge; accounts_auto.
Qed.

Lemma accounts_make_dec_graph t G :
  accounts (_make_dec_graph contraction_name t G).
Proof.
  unfold _make_dec_graph.
  apply accounts_bind; [accounts_auto|]. intros _.
  apply accounts_bind; [apply accounts_new_DecGraph|]. intros cg.
  apply accounts_bind.
  { apply accounts_for_each. intros. apply accounts_place_node. }
  intros _. apply accounts_bind.
  { apply accounts_for_each. intros. apply accounts_place_edge. }
  intros _. apply accounts_ret.
Qed.

Lemma accounts_update_attr :
  accounts (update_attr _supernode_attr_function _superedge_attr_function
              _c_set_attr_function).
Proof.
  unfold update_attr, decorate_supernode, decorate_superedge.
  accounts_auto.
Qed.

Lemma accounts_contract G : accounts (contract G).
Proof.
  unfold_contract.
  apply accounts_bind; [apply accounts_run_strategy|]. intros t.
  apply accounts_bind; [accounts_auto|]. intros _.
  apply accounts_bind; [apply accounts_make_dec_graph|]. intros g.
  apply accounts_bind; [accounts_auto|]. intros _.
  apply accounts_bind; [apply accounts_update_attr|]. intros _.
  accounts_auto.
Qed.
End Accounting.

Lemma seqZ_increasing (m n : Z) (i j : nat) (x y : Z) :
  i < j → seqZ m n !! i = Some x → seqZ m n !! j = Some y → (x < y)%Z.
Proof. rewrite !lookup_seqZ. lia. Qed.

Lemma accounts_is_valid : accounts is_valid.
Proof. unfold is_valid. accounts_auto. Qed.

Lemma accounts_invalidate : accounts invalidate.
Proof. unfold invalidate. accounts_auto. Qed.

Section Lifetime.
Variable contraction_name : string.
Variable contraction_function :
  LowerGraph → Strategy (list (string * list ComponentSet)).
Variable _supernode_attr_function : Supernode → gmap string string.
Variable _superedge_attr_function : Superedge → gmap string string.
Variable _c_set_attr_function : gset string → gmap string string.

Local Abbreviation contract :=
  (contract contraction_name contraction_function _supernode_attr_function
     _superedge_attr_function _c_set_attr_function).
Local Abbreviation run_call :=
  (run_call contraction_name contraction_function _supernode_attr_function
     _superedge_attr_function _c_set_attr_function).
Local Abbreviation run_calls :=
  (run_calls contraction_name contraction_function _supernode_attr_function
     _superedge_attr_function _c_set_attr_function).

Lemma run_call_accounts c w :
  let r := run_call c w in
  let c0 := _supernode_id_counter (self w) in
  let d0 := _component_set_id_counter (self w) in
  (c0 ≤ _supernode_id_counter (self r.2))%Z
  ∧ (d0 ≤ _component_set_id_counter (self r.2))%Z
  ∧ supernode_ids r.1
    = seqZ (c0 + 1) (_supernode_id_counter (self r.2) - c0)
  ∧ component_set_ids r.1
    = seqZ (d0 + 1) (_component_set_id_counter (self r.2) - d0).
Proof.
  destruct c as [G| | | |].
  - exact (accounts_contract contraction_name contraction_function
             _supernode_attr_function _superedge_attr_function
             _c_set_attr_function G w).
  - exact (accounts_get_supernode_id w).
  - exact (accounts_get_component_set_id w).
  - exact (accounts_is_valid w).
  - exact (accounts_invalidate w).
Qed.

Lemma run_calls_accounts cs w :
  let r := run_calls cs w in
  let c0 := _supernode_id_counter (self w) in
  let d0 := _component_set_id_counter (self w) in
  (c0 ≤ _supernode_id_counter (self r.2))%Z
  ∧ (d0 ≤ _component_set_id_counter (self r.2))%Z
  ∧ supernode_ids r.1
    = seqZ (c0 + 1) (_supernode_id_counter (self r.2) - c0)
  ∧ component_set_ids r.1
    = seqZ (d0 + 1) (_component_set_id_counter (self r.2) - d0).
Proof.
  revert w. induction cs as [|c cs IH]; intros w; simpl.
  - rewrite !Z.sub_diag. by split_and!.
  - destruct (run_call_accounts c w) as (? & ? & Hs1 & Hc1).
    destruct (IH (run_call c w).2) as (? & ? & Hs2 & Hc2).
    unfold supernode_ids, component_set_ids in *.
    rewrite !omap_app, Hs1, Hs2, Hc1, Hc2.
    split_and!; try lia; by apply seqZ_split.
Qed.

(** Claim C6, amended.  When the grouping strategy fails during
    [contract], the failure reaches the caller unchanged and [contract]
    itself has changed nothing: the scheme's graph, table, supernode table,
    supernode counter and validity flag, the stores and the
    back-references are as before.  The component-set counter stands where
    the strategy left it: it has advanced by the identifiers the strategy
    drew before failing. *)
Theorem contract_strategy_failure G w e :
  let d := _component_set_id_counter (self w) in
  let d' := (strategy_result (contraction_function G) d).1 in
  (strategy_result (contraction_function G) d).2 = inl e →
  contract G w
  = (EvComponentSetId <$> seqZ (d + 1) (d' - d),
     set_self (with_component_set_id_counter d') w, inl e)
  ∧ (d ≤ d')%Z.
Proof.
  intros d d' Hres. split; [|apply strategy_result_le].
  unfold_contract. unfold bind.
  rewrite run_strategy_spec. fold d. fold d'. by rewrite Hres.
Qed.
End Lifetime.

(** Claim C6 as stated fails: a strategy that draws one component-set
    identifier and then fails leaves the counter advanced. *)
Lemma contract_strategy_failure_moves_counter :
  let r := contract "scc"
             (λ _, NewComponentSetId (λ _, Raise (StrategyFailure "failed")))
             (λ _, ∅) (λ _, ∅) (λ _, ∅) (mkLowerGraph [] []) init_world in
  outcome_of r = inl (StrategyFailure "failed")
  ∧ _component_set_id_counter (self (world_of r))
    ≠ _component_set_id_counter (self init_world).
Proof. vm_compute. split; [reflexivity|discriminate]. Qed.

Lemma contract_strategy_failure_witness :
  contract "scc"
    (λ _, NewComponentSetId (λ _, Raise (StrategyFailure "failed")))
    (λ _, ∅) (λ _, ∅) (λ _, ∅) (mkLowerGraph [] []) init_world
  = ([EvComponentSetId 1],
     set_self (with_component_set_id_counter 1) init_world,
     inl (StrategyFailure "failed"))
  ∧ (0 ≤ 1)%Z.
Proof.
  apply (contract_strategy_failure "scc"
           (λ _, NewComponentSetId (λ _, Raise (StrategyFailure "failed")))
           (λ _, ∅) (λ _, ∅) (λ _, ∅) (mkLowerGraph [] []) init_world
           (StrategyFailure "failed")).
  reflexivity.
Defined.

(** ** Consequences of [Built] *)

Section BuiltFacts.
Variable name : string.
Variable t : list (string * list ComponentSet).
Variable edges : list (string * string).
Variable lvl c0 : Z.
Variable old : gmap positive Supernode.
Variable w : World.
Variable cg : positive.
Variable g : DecGraph.
Hypothesis HB : Built name t edges lvl c0 old w cg g.
Hypothesis Hnd : NoDup t.*1.
Hypothesis Hcov : ∀ e, e ∈ edges → e.1 ∈ t.*1 ∧ e.2 ∈ t.*1.

Lemma Built_table_inj s1 s2 a :
  supernode_table (self w) !! s1 = Some a →
  supernode_table (self w) !! s2 = Some a → s1 = s2.
Proof.
  intros H1 H2.
  destruct (bt_table_obj _ _ _ _ _ _ _ _ _ HB _ _ H1) as (_ & sn & ? & ? & <- & _).
  destruct (bt_table_obj _ _ _ _ _ _ _ _ _ HB _ _ H2) as (_ & sn' & ? & ? & <- & _).
  congruence.
Qed.

(** A listed node points at the supernode of its signature. *)
Lemma Built_node n s :
  sig_of t n = Some s →
  ∃ a sn id,
    supernode_table (self w) !! s = Some a
    ∧ node_supernode w !! n = Some a
    ∧ supernodes w !! a = Some sn
    ∧ (a ∉ dom old)
    ∧ sn_set_of_sets sn = s
    ∧ sn_level sn = lvl
    ∧ (c0 < id ≤ c0 + Z.of_nat (size (signatures t)))%Z
    ∧ sn_key sn = supernode_key lvl name id
    ∧ ig_V (sn_dec sn) = members_of t s
    ∧ ig_E (sn_dec sn) = edges_between t edges s s
    ∧ V g !! sn_key sn = Some a.
Proof.
  intros Hs.
  assert (is_Some (supernode_table (self w) !! s)) as [a Ha].
  { apply (bt_table_dom _ _ _ _ _ _ _ _ _ HB). apply elem_of_signatures.
    apply sig_of_Some in Hs as (sos & ? & ?); [|done]. by exists (n, sos). }
  destruct (bt_table_obj _ _ _ _ _ _ _ _ _ HB _ _ Ha)
    as (? & sn & id & ? & ? & ? & ? & ? & ? & ? & ?).
  exists a, sn, id. split_and!; try done; try lia.
  by rewrite (bt_backref _ _ _ _ _ _ _ _ _ HB _ _ Hs).
Qed.

(** Supernodes of the table with the same key are the same object. *)
Lemma Built_key_inj s1 s2 a1 a2 sn1 sn2 :
  supernode_table (self w) !! s1 = Some a1 →
  supernode_table (self w) !! s2 = Some a2 →
  supernodes w !! a1 = Some sn1 → supernodes w !! a2 = Some sn2 →
  sn_key sn1 = sn_key sn2 → a1 = a2.
Proof.
  intros H1 H2 Hs1 Hs2 Hk.
  destruct (bt_table_obj _ _ _ _ _ _ _ _ _ HB _ _ H1)
    as (_ & sn & ? & ? & _ & _ & _ & _ & _ & _ & HV1).
  destruct (bt_table_obj _ _ _ _ _ _ _ _ _ HB _ _ H2)
    as (_ & sn' & ? & ? & _ & _ & _ & _ & _ & _ & HV2).
  assert (sn = sn1) as -> by congruence.
  assert (sn' = sn2) as -> by congruence.
  rewrite Hk in HV1. congruence.
Qed.

(** A superedge joins two distinct supernodes of the graph and holds the
    edges between their signatures. *)
Lemma Built_superedge k se :
  E g !! k = Some se →
  ∃ s1 s2 sn1 sn2,
    supernode_table (self w) !! s1 = Some (se_tail se)
    ∧ supernode_table (self w) !! s2 = Some (se_head se)
    ∧ supernodes w !! se_tail se = Some sn1
    ∧ supernodes w !! se_head se = Some sn2
    ∧ V g !! sn_key sn1 = Some (se_tail se)
    ∧ V g !! sn_key sn2 = Some (se_head se)
    ∧ k = (sn_key sn1, sn_key sn2)
    ∧ s1 ≠ s2
    ∧ se_dec se = edges_between t edges s1 s2
    ∧ se_dec se ≠ ∅.
Proof.
  intros Hk. destruct (bt_E _ _ _ _ _ _ _ _ _ HB _ _ Hk)
    as (s1 & s2 & sn1 & sn2 & H1 & H2 & Hs1 & Hs2 & ? & ? & ? & ? & ?).
  destruct (bt_table_obj _ _ _ _ _ _ _ _ _ HB _ _ H1)
    as (_ & sn & ? & ? & _ & _ & _ & _ & _ & _ & HV1).
  destruct (bt_table_obj _ _ _ _ _ _ _ _ _ HB _ _ H2)
    as (_ & sn' & ? & ? & _ & _ & _ & _ & _ & _ & HV2).
  assert (sn = sn1) as -> by congruence.
  assert (sn' = sn2) as -> by congruence.
  exists s1, s2, sn1, sn2. by split_and!.
Qed.

(** Where an edge of the input graph ends up. *)
Lemma Built_edge e :
  e ∈ edges →
  ∃ s1 s2 a1 a2 sn1 sn2,
    sig_of t e.1 = Some s1 ∧ sig_of t e.2 = Some s2
    ∧ node_supernode w !! e.1 = Some a1 ∧ node_supernode w !! e.2 = Some a2
    ∧ supernode_table (self w) !! s1 = Some a1
    ∧ supernode_table (self w) !! s2 = Some a2
    ∧ supernodes w !! a1 = Some sn1 ∧ supernodes w !! a2 = Some sn2
    ∧ V g !! sn_key sn1 = Some a1 ∧ V g !! sn_key sn2 = Some a2
    ∧ ig_E (sn_dec sn1) = edges_between t edges s1 s1
    ∧ ig_E (sn_dec sn2) = edges_between t edges s2 s2
    ∧ (a1 = a2 ↔ s1 = s2)
    ∧ (s1 ≠ s2 →
         ∃ se, E g !! (sn_key sn1, sn_key sn2) = Some se
               ∧ se_tail se = a1 ∧ se_head se = a2
               ∧ se_dec se = edges_between t edges s1 s2).
Proof.
  intros He. destruct (Hcov e He) as [Ht1 Ht2].
  destruct (sig_of_listed t e.1 Hnd Ht1) as (sos1 & _ & Hsig1).
  destruct (sig_of_listed t e.2 Hnd Ht2) as (sos2 & _ & Hsig2).
  destruct (Built_node _ _ Hsig1)
    as (a1 & sn1 & id1 & Ha1 & Hb1 & Hs1 & _ & _ & _ & _ & _ & _ & HE1 & HV1).
  destruct (Built_node _ _ Hsig2)
    as (a2 & sn2 & id2 & Ha2 & Hb2 & Hs2 & _ & _ & _ & _ & _ & _ & HE2 & HV2).
  exists (frozenset sos1), (frozenset sos2), a1, a2, sn1, sn2.
  split_and!; try done.
  - split; [intros <-; by eapply Built_table_inj|]. intros Heq.
    rewrite Heq in Ha1. congruence.
  - intros Hne.
    destruct (bt_cross _ _ _ _ _ _ _ _ _ HB e _ _ He Hsig1 Hsig2 Hne)
      as (b1 & b2 & tn1 & tn2 & ? & ? & ? & ? & [se Hse]).
    assert (b1 = a1) as -> by congruence.
    assert (b2 = a2) as -> by congruence.
    assert (tn1 = sn1) as -> by congruence.
    assert (tn2 = sn2) as -> by congruence.
    exists se. split; [done|].
    destruct (Built_superedge _ _ Hse)
      as (s1 & s2 & un1 & un2 & T1 & T2 & U1 & U2 & _ & _ & [= K1 K2] & _ & Hdec & _).
    assert (se_tail se = a1) as Et.
    { symmetry. by eapply (Built_key_inj _ _ _ _ sn1 un1). }
    assert (se_head se = a2) as Eh.
    { symmetry. by eapply (Built_key_inj _ _ _ _ sn2 un2). }
    split_and!; try done. rewrite Hdec. rewrite Et in T1. rewrite Eh in T2.
    by rewrite (Built_table_inj _ _ _ T1 Ha1), (Built_table_inj _ _ _ T2 Ha2).
Qed.
End BuiltFacts.

Lemma supernode_ids_component_set_events (l : list Z) :
  supernode_ids (EvComponentSetId <$> l) = [].
Proof.
  induction l as [|x l IH]; [done|]. rewrite fmap_cons.
  change (supernode_ids (EvComponentSetId x :: (EvComponentSetId <$> l)))
    with (supernode_ids (EvComponentSetId <$> l)).
  done.
Qed.

Lemma supernode_ids_supernode_events (l : list Z) :
  supernode_ids (EvSupernodeId <$> l) = l.
Proof.
  induction l as [|x l IH]; [done|]. rewrite fmap_cons.
  change (supernode_ids (EvSupernodeId x :: (EvSupernodeId <$> l)))
    with (x :: supernode_ids (EvSupernodeId <$> l)).
  by rewrite IH.
Qed.

Section ContractClaims.
Variable contraction_name : string.
Variable contraction_function :
  LowerGraph → Strategy (list (string * list ComponentSet)).
Variable _supernode_attr_function : Supernode → gmap string string.
Variable _superedge_attr_function : Superedge → gmap string string.
Variable _c_set_attr_function : gset string → gmap string string.

Local Abbreviation contract :=
  (contract contraction_name contraction_function _supernode_attr_function
     _superedge_attr_function _c_set_attr_function).

(** Claim C1.  [contract] returns; two nodes listed in the resulting table
    point at the same supernode exactly when their sets of component sets
    are equal as sets of values; every listed node points at a supernode
    object created by this call, registered in the supernode table under
    the node's signature, whose key is [str(level)], ["_"], the
    contraction name, ["_"] and [str(id)] for an identifier [id] drawn from
    the counter during this call, and whose inner graph holds the node;
    one identifier is drawn per distinct signature. *)
Theorem contract_groups_nodes_by_signature G w t :
  (strategy_result (contraction_function G)
     (_component_set_id_counter (self w))).2 = inr t →
  well_formed t G →
  let r := contract G w in
  let w' := world_of r in
  let c0 := _supernode_id_counter (self w) in
  (∃ cg, outcome_of r = inr (Some cg))
  ∧ contraction_sets_table (self w')
    = Some (decorate_table _c_set_attr_function t)
  ∧ (∀ n1 sos1 n2 sos2, (n1, sos1) ∈ t → (n2, sos2) ∈ t →
       node_supernode w' !! n1 = node_supernode w' !! n2
       ↔ frozenset sos1 = frozenset sos2)
  ∧ (∀ n sos, (n, sos) ∈ t →
       ∃ a sn id,
         node_supernode w' !! n = Some a
         ∧ supernodes w' !! a = Some sn
         ∧ supernode_table (self w') !! frozenset sos = Some a
         ∧ (a ∉ dom (supernodes w))
         ∧ sn_set_of_sets sn = frozenset sos
         ∧ sn_key sn
           = str (level (self w)) +:+ "_" +:+ contraction_name +:+ "_"
               +:+ str id
         ∧ (c0 < id)%Z
         ∧ EvSupernodeId id ∈ events_of r
         ∧ n ∈ ig_V (sn_dec sn))
  ∧ supernode_ids (events_of r)
    = seqZ (c0 + 1) (Z.of_nat (size (signatures t))).
Proof.
  intros Hres Hwf.
  destruct (contract_built contraction_name contraction_function
              _supernode_attr_function _superedge_attr_function
              _c_set_attr_function G w t Hres Hwf)
    as (w' & g & Hrun & Hself & Hgr & Hfr & Hold & HB).
  destruct Hwf as (Hnd & Hnde & Hcov). rewrite Forall_forall in Hcov.
  simpl. rewrite Hrun. unfold world_of, outcome_of, events_of. simpl.
  assert (Hrow : ∀ n sos, (n, sos) ∈ t → sig_of t n = Some (frozenset sos)).
  { intros n sos Hin. apply sig_of_Some; [done|]. by exists sos. }
  split_and!.
  - by eexists.
  - by rewrite Hself.
  - intros n1 sos1 n2 sos2 H1 H2.
    destruct (Built_node _ _ _ _ _ _ _ _ _ HB Hnd _ _ (Hrow _ _ H1))
      as (a1 & ? & ? & T1 & -> & _).
    destruct (Built_node _ _ _ _ _ _ _ _ _ HB Hnd _ _ (Hrow _ _ H2))
      as (a2 & ? & ? & T2 & -> & _).
    split.
    + intros [= ->]. by eapply Built_table_inj.
    + intros Heq. rewrite Heq in T1. congruence.
  - intros n sos Hin.
    destruct (Built_node _ _ _ _ _ _ _ _ _ HB Hnd _ _ (Hrow _ _ Hin))
      as (a & sn & id & ? & ? & ? & ? & ? & ? & Hid & ? & HV & _).
    exists a, sn, id. split_and!; try done; try lia.
    + apply elem_of_app. right. apply list_elem_of_fmap. exists id.
      split; [done|]. apply elem_of_seqZ. lia.
    + rewrite HV. apply elem_of_members_of. by exists sos.
  - unfold supernode_ids. rewrite omap_app.
    fold (supernode_ids (EvComponentSetId <$>
            seqZ (_component_set_id_counter (self w) + 1)
              ((strategy_result (contraction_function G)
                  (_component_set_id_counter (self w))).1
               - _component_set_id_counter (self w)))).
    rewrite supernode_ids_component_set_events. simpl.
    apply supernode_ids_supernode_events.
Qed.

(** Claim C2.  After [contract], for every edge of the input graph: when
    its tail and head point at different supernodes, the edge is held by the
    superedge stored under (tail-supernode key, head-supernode key), whose
    tail and head are those supernodes, and by no inner graph of them; when
    they point at the same supernode, the edge is held by that supernode's
    inner graph and by no superedge of the contracted graph.  The graph
    object is new, and every superedge in it holds an input edge: it was
    created when first used. *)
Theorem contract_routes_edges G w t :
  (strategy_result (contraction_function G)
     (_component_set_id_counter (self w))).2 = inr t →
  well_formed t G →
  let r := contract G w in
  let w' := world_of r in
  ∃ cg g,
    outcome_of r = inr (Some cg)
    ∧ graphs w !! cg = None
    ∧ graphs w' !! cg = Some g
    ∧ (∀ e, e ∈ lg_edges G →
         ∃ a1 a2 sn1 sn2,
           node_supernode w' !! e.1 = Some a1
           ∧ node_supernode w' !! e.2 = Some a2
           ∧ supernodes w' !! a1 = Some sn1
           ∧ supernodes w' !! a2 = Some sn2
           ∧ (a1 ≠ a2 →
                ∃ se, E g !! (sn_key sn1, sn_key sn2) = Some se
                      ∧ se_tail se = a1 ∧ se_head se = a2
                      ∧ e ∈ se_dec se
                      ∧ (e ∉ ig_E (sn_dec sn1)) ∧ (e ∉ ig_E (sn_dec sn2)))
           ∧ (a1 = a2 →
                e ∈ ig_E (sn_dec sn1)
                ∧ ∀ k se, E g !! k = Some se → e ∉ se_dec se))
    ∧ (∀ k se, E g !! k = Some se →
         ∃ e, e ∈ lg_edges G ∧ e ∈ se_dec se).
Proof.
  intros Hres Hwf.
  destruct (contract_built contraction_name contraction_function
              _supernode_attr_function _superedge_attr_function
              _c_set_attr_function G w t Hres Hwf)
    as (w' & g & Hrun & Hself & Hgr & Hfr & Hold & HB).
  destruct Hwf as (Hnd & Hnde & Hcov). rewrite Forall_forall in Hcov.
  simpl. rewrite Hrun. unfold world_of, outcome_of. simpl.
  exists (fresh (dom (graphs w))), g. split_and!.
  - done.
  - apply not_elem_of_dom. apply is_fresh.
  - apply (bt_graph _ _ _ _ _ _ _ _ _ HB).
  - intros e He.
    destruct (Built_edge _ _ _ _ _ _ _ _ _ HB Hnd Hcov e He)
      as (s1 & s2 & a1 & a2 & sn1 & sn2 & Hsig1 & Hsig2 & ? & ? & ? & ?
          & ? & ? & ? & ? & HE1 & HE2 & Hiff & Hcross).
    exists a1, a2, sn1, sn2. split_and!; try done.
    + intros Hne. destruct Hcross as (se & ? & ? & ? & Hdec).
      { intros Heq. by apply Hne, Hiff. }
      exists se. rewrite Hdec, HE1, HE2, !elem_of_edges_between.
      split_and!; try done.
      * intros (_ & _ & ?). apply Hne, Hiff. congruence.
      * intros (_ & ? & _). apply Hne, Hiff. congruence.
    + intros Heq. apply Hiff in Heq. subst s2. split.
      * rewrite HE1. by apply elem_of_edges_between.
      * intros k se Hk.
        destruct (Built_superedge _ _ _ _ _ _ _ _ _ HB _ _ Hk)
          as (t1 & t2 & _ & _ & _ & _ & _ & _ & _ & _ & _ & Hne & Hdec & _).
        rewrite Hdec, elem_of_edges_between. intros (_ & ? & ?).
        apply Hne. congruence.
  - intros k se Hk.
    destruct (Built_superedge _ _ _ _ _ _ _ _ _ HB _ _ Hk)
      as (t1 & t2 & _ & _ & _ & _ & _ & _ & _ & _ & _ & Hne & Hdec & Hnemp).
    apply set_choose_L in Hnemp as [e He]. exists e. split; [|done].
    rewrite Hdec in He. by apply elem_of_edges_between in He as (? & _).
Qed.

(** Claim C7.  After [contract], no two supernodes of the contracted graph
    have the same set of component sets; the supernode table maps every
    signature to a supernode of that signature; and its entries are exactly
    the supernodes of the contracted graph, which are exactly the supernode
    objects created during this call. *)
Theorem contract_one_supernode_per_signature G w t :
  (strategy_result (contraction_function G)
     (_component_set_id_counter (self w))).2 = inr t →
  well_formed t G →
  let r := contract G w in
  let w' := world_of r in
  ∃ cg g,
    outcome_of r = inr (Some cg)
    ∧ graphs w' !! cg = Some g
    ∧ (∀ k1 k2 a1 a2 sn1 sn2,
         V g !! k1 = Some a1 → V g !! k2 = Some a2 →
         supernodes w' !! a1 = Some sn1 → supernodes w' !! a2 = Some sn2 →
         sn_set_of_sets sn1 = sn_set_of_sets sn2 → k1 = k2 ∧ a1 = a2)
    ∧ (∀ s a, supernode_table (self w') !! s = Some a →
         ∃ sn, supernodes w' !! a = Some sn ∧ sn_set_of_sets sn = s)
    ∧ (∀ a, (∃ s, supernode_table (self w') !! s = Some a)
            ↔ (∃ k, V g !! k = Some a))
    ∧ (∀ a, (∃ s, supernode_table (self w') !! s = Some a)
            ↔ a ∈ dom (supernodes w') ∧ (a ∉ dom (supernodes w))).
Proof.
  intros Hres Hwf.
  destruct (contract_built contraction_name contraction_function
              _supernode_attr_function _superedge_attr_function
              _c_set_attr_function G w t Hres Hwf)
    as (w' & g & Hrun & Hself & Hgr & Hfr & Hold & HB).
  destruct Hwf as (Hnd & Hnde & Hcov). rewrite Forall_forall in Hcov.
  simpl. rewrite Hrun. unfold world_of, outcome_of. simpl.
  exists (fresh (dom (graphs w))), g. split_and!.
  - done.
  - apply (bt_graph _ _ _ _ _ _ _ _ _ HB).
  - intros k1 k2 a1 a2 sn1 sn2 H1 H2 Hs1 Hs2 Heq.
    destruct (bt_V _ _ _ _ _ _ _ _ _ HB _ _ H1) as (s1 & tn1 & T1 & ? & <-).
    destruct (bt_V _ _ _ _ _ _ _ _ _ HB _ _ H2) as (s2 & tn2 & T2 & ? & <-).
    assert (tn1 = sn1) as -> by congruence.
    assert (tn2 = sn2) as -> by congruence.
    destruct (bt_table_obj _ _ _ _ _ _ _ _ _ HB _ _ T1) as (_ & un1 & ? & ? & E1 & _).
    destruct (bt_table_obj _ _ _ _ _ _ _ _ _ HB _ _ T2) as (_ & un2 & ? & ? & E2 & _).
    assert (un1 = sn1) as -> by congruence.
    assert (un2 = sn2) as -> by congruence.
    assert (a1 = a2) as -> by congruence.
    split; [|done]. congruence.
  - intros s a Hs.
    destruct (bt_table_obj _ _ _ _ _ _ _ _ _ HB _ _ Hs) as (_ & sn & ? & ? & ? & _).
    by exists sn.
  - intros a. split.
    + intros [s Hs].
      destruct (bt_table_obj _ _ _ _ _ _ _ _ _ HB _ _ Hs)
        as (_ & sn & ? & _ & _ & _ & _ & _ & _ & _ & ?).
      by exists (sn_key sn).
    + intros [k Hk].
      destruct (bt_V _ _ _ _ _ _ _ _ _ HB _ _ Hk) as (s & ? & ? & _).
      by exists s.
  - intros a. split.
    + intros [s Hs].
      destruct (bt_table_obj _ _ _ _ _ _ _ _ _ HB _ _ Hs) as (? & sn & ? & ? & _).
      split; [|done]. apply elem_of_dom. by exists sn.
    + intros [Hin Hnew]. apply elem_of_dom in Hin.
      by destruct (bt_new _ _ _ _ _ _ _ _ _ HB a Hin).
Qed.

(** Claim C8.  After [contract], the tail and the head of every superedge
    of the contracted graph are nodes of that graph, stored under the keys
    the superedge is stored under; and every edge of the input graph is held
    by exactly one aggregate, a superedge or the inner graph of a
    supernode. *)
Theorem contract_no_dangling_edges G w t :
  (strategy_result (contraction_function G)
     (_component_set_id_counter (self w))).2 = inr t →
  well_formed t G →
  let r := contract G w in
  let w' := world_of r in
  ∃ cg g,
    outcome_of r = inr (Some cg)
    ∧ graphs w' !! cg = Some g
    ∧ (∀ k se, E g !! k = Some se →
         ∃ sn1 sn2,
           supernodes w' !! se_tail se = Some sn1
           ∧ supernodes w' !! se_head se = Some sn2
           ∧ V g !! sn_key sn1 = Some (se_tail se)
           ∧ V g !! sn_key sn2 = Some (se_head se)
           ∧ k = (sn_key sn1, sn_key sn2))
    ∧ (∀ e, e ∈ lg_edges G →
         ∃ x, in_aggregate w' g x e
              ∧ ∀ y, in_aggregate w' g y e → y = x).
Proof.
  intros Hres Hwf.
  destruct (contract_built contraction_name contraction_function
              _supernode_attr_function _superedge_attr_function
              _c_set_attr_function G w t Hres Hwf)
    as (w' & g & Hrun & Hself & Hgr & Hfr & Hold & HB).
  destruct Hwf as (Hnd & Hnde & Hcov). rewrite Forall_forall in Hcov.
  simpl. rewrite Hrun. unfold world_of, outcome_of. simpl.
  exists (fresh (dom (graphs w))), g. split_and!.
  - done.
  - apply (bt_graph _ _ _ _ _ _ _ _ _ HB).
  - intros k se Hk.
    destruct (Built_superedge _ _ _ _ _ _ _ _ _ HB _ _ Hk)
      as (s1 & s2 & sn1 & sn2 & _ & _ & ? & ? & ? & ? & ? & _).
    by exists sn1, sn2.
  - intros e He.
    destruct (Built_edge _ _ _ _ _ _ _ _ _ HB Hnd Hcov e He)
      as (s1 & s2 & a1 & a2 & sn1 & sn2 & Hsig1 & Hsig2 & ? & ? & T1 & T2
          & Hs1 & Hs2 & HV1 & HV2 & HE1 & HE2 & Hiff & Hcross).
    assert (Huniq_l : ∀ k se, E g !! k = Some se → e ∈ se_dec se →
              s1 ≠ s2 ∧ k = (sn_key sn1, sn_key sn2)).
    { intros k se Hk Hin.
      destruct (Built_superedge _ _ _ _ _ _ _ _ _ HB _ _ Hk)
        as (t1 & t2 & tn1 & tn2 & U1 & U2 & ? & ? & _ & _ & -> & Hne & Hdec & _).
      rewrite Hdec in Hin. apply elem_of_edges_between in Hin as (_ & ? & ?).
      assert (t1 = s1) as -> by congruence.
      assert (t2 = s2) as -> by congruence.
      split; [done|].
      assert (se_tail se = a1) by congruence.
      assert (se_head se = a2) by congruence.
      assert (tn1 = sn1) by congruence. assert (tn2 = sn2) by congruence.
      by subst. }
    assert (Huniq_r : ∀ k a sn, V g !! k = Some a →
              supernodes w' !! a = Some sn → e ∈ ig_E (sn_dec sn) →
              s1 = s2 ∧ k = sn_key sn1).
    { intros k a sn Hk Hsn Hin.
      destruct (bt_V _ _ _ _ _ _ _ _ _ HB _ _ Hk) as (s & tn & T & ? & <-).
      assert (tn = sn) as -> by congruence.
      destruct (bt_table_obj _ _ _ _ _ _ _ _ _ HB _ _ T)
        as (_ & un & ? & ? & _ & _ & _ & _ & _ & HE & _).
      assert (un = sn) as -> by congruence.
      rewrite HE in Hin. apply elem_of_edges_between in Hin as (_ & ? & ?).
      assert (s = s1) as -> by congruence.
      assert (s1 = s2) as <- by congruence. split; [done|].
      assert (a = a1) by congruence. assert (sn = sn1) by congruence.
      by subst. }
    destruct (decide (s1 = s2)) as [Heq|Hne].
    + exists (inr (sn_key sn1)). split.
      * exists a1, sn1. split_and!; try done. rewrite HE1.
        apply elem_of_edges_between. subst s2. by split_and!.
      * intros [k|k]; simpl.
        -- intros (se & Hk & Hin). by destruct (Huniq_l _ _ Hk Hin).
        -- intros (a & sn & Hk & Hsn & Hin).
           by destruct (Huniq_r _ _ _ Hk Hsn Hin) as [_ ->].
    + exists (inl (sn_key sn1, sn_key sn2)).
      destruct (Hcross Hne) as (se & Hk & _ & _ & Hdec). split.
      * exists se. split; [done|]. rewrite Hdec.
        by apply elem_of_edges_between.
      * intros [k|k]; simpl.
        -- intros (se' & Hk' & Hin). by destruct (Huniq_l _ _ Hk' Hin) as [_ ->].
        -- intros (a & sn & Hk' & Hsn & Hin).
           by destruct (Huniq_r _ _ _ Hk' Hsn Hin).
Qed.
End ContractClaims.

(** ** The contracted graph has the prescribed structure *)

Lemma elem_of_signature_rows t n s :
  (n, s) ∈ signature_rows t ↔ ∃ sos, (n, sos) ∈ t ∧ frozenset sos = s.
Proof.
  unfold signature_rows. rewrite list_elem_of_fmap. split.
  - intros ([n' sos] & [= -> ->] & ?). by exists sos.
  - intros (sos & ? & <-). by exists (n, sos).
Qed.

Lemma signature_rows_fst t : (signature_rows t).*1 = t.*1.
Proof.
  unfold signature_rows. rewrite <-list_fmap_compose. done.
Qed.

Lemma decorate_table_fst f t : (decorate_table f t).*1 = t.*1.
Proof. unfold decorate_table. by rewrite <-list_fmap_compose. Qed.

Section SameRows.
Variable t1 t2 : list (string * list ComponentSet).
Hypothesis Hrows : signature_rows t1 = signature_rows t2.
Hypothesis Hnd : NoDup t1.*1.

Lemma same_rows_fst : t2.*1 = t1.*1.
Proof. by rewrite <-!signature_rows_fst, Hrows. Qed.

Lemma same_rows_sig_of n : sig_of t1 n = sig_of t2 n.
Proof.
  assert (Hnd2 : NoDup t2.*1) by (by rewrite same_rows_fst).
  apply option_eq. intros s.
  rewrite !sig_of_Some by done.
  by rewrite <-!elem_of_signature_rows, Hrows.
Qed.

Lemma same_rows_signatures : signatures t1 = signatures t2.
Proof.
  apply set_eq. intros s. rewrite !elem_of_signatures. split.
  - intros ([n sos] & Hin & Hs).
    assert ((n, s) ∈ signature_rows t2) as (sos' & ? & ?)%elem_of_signature_rows.
    { rewrite <-Hrows. apply elem_of_signature_rows. by exists sos. }
    by exists (n, sos').
  - intros ([n sos] & Hin & Hs).
    assert ((n, s) ∈ signature_rows t1) as (sos' & ? & ?)%elem_of_signature_rows.
    { rewrite Hrows. apply elem_of_signature_rows. by exists sos. }
    by exists (n, sos').
Qed.

Lemma same_rows_members_of s : members_of t1 s = members_of t2 s.
Proof.
  apply set_eq. intros n. rewrite !elem_of_members_of.
  by rewrite <-!elem_of_signature_rows, Hrows.
Qed.

Lemma same_rows_edges_between edges s1 s2 :
  edges_between t1 edges s1 s2 = edges_between t2 edges s1 s2.
Proof.
  apply set_eq. intros e. rewrite !elem_of_edges_between.
  by rewrite !same_rows_sig_of.
Qed.

Lemma same_rows_prescribed_structure edges :
  prescribed_structure t1 edges = prescribed_structure t2 edges.
Proof.
  unfold prescribed_structure. f_equal.
  - rewrite same_rows_signatures. f_equal. apply list_fmap_ext.
    intros _ s _. by rewrite same_rows_members_of, same_rows_edges_between.
  - f_equal. apply list_omap_ext, Forall_Forall2_diag, Forall_forall.
    intros e _.
    unfold prescribed_superedge. rewrite !same_rows_sig_of.
    destruct (sig_of t2 e.1) as [s1|]; [|done]. simpl.
    destruct (sig_of t2 e.2) as [s2|]; [|done]. simpl.
    by rewrite same_rows_edges_between.
  - by rewrite Hrows.
Qed.
End SameRows.

Section BuiltStructure.
Variable name : string.
Variable t : list (string * list ComponentSet).
Variable edges : list (string * string).
Variable lvl c0 : Z.
Variable old : gmap positive Supernode.
Variable w : World.
Variable cg : positive.
Variable g : DecGraph.
Hypothesis HB : Built name t edges lvl c0 old w cg g.
Hypothesis Hnd : NoDup t.*1.
Hypothesis Hcov : ∀ e, e ∈ edges → e.1 ∈ t.*1 ∧ e.2 ∈ t.*1.

Lemma Built_sig_at s a :
  supernode_table (self w) !! s = Some a → sig_at w a = Some s.
Proof.
  intros Hs. destruct (bt_table_obj _ _ _ _ _ _ _ _ _ HB _ _ Hs)
    as (_ & sn & ? & Hsn & <- & _).
  unfold sig_at. by rewrite Hsn.
Qed.

Lemma Built_supernode_shapes :
  list_to_set (omap (supernode_shape w) (map_to_list (V g)).*2)
  = st_supernodes (prescribed_structure t edges).
Proof.
  apply set_eq. intros x. simpl.
  rewrite !elem_of_list_to_set, list_elem_of_omap, list_elem_of_fmap. split.
  - intros (a & ([k a'] & -> & Hk%elem_of_map_to_list)%list_elem_of_fmap & Hx).
    simpl in Hx.
    destruct (bt_V _ _ _ _ _ _ _ _ _ HB _ _ Hk) as (s & sn & Hs & Hsn & _).
    destruct (bt_table_obj _ _ _ _ _ _ _ _ _ HB _ _ Hs)
      as (_ & sn' & ? & Hsn' & <- & _ & _ & _ & HV & HE & _).
    assert (sn' = sn) as -> by congruence.
    unfold supernode_shape in Hx. rewrite Hsn in Hx. simpl in Hx.
    injection Hx as <-. exists (sn_set_of_sets sn). split.
    + by rewrite HV, HE.
    + apply elem_of_elements. apply (bt_table_dom _ _ _ _ _ _ _ _ _ HB).
      by rewrite Hs.
  - intros (s & -> & Hs%elem_of_elements).
    apply (bt_table_dom _ _ _ _ _ _ _ _ _ HB) in Hs as [a Ha].
    destruct (bt_table_obj _ _ _ _ _ _ _ _ _ HB _ _ Ha)
      as (_ & sn & ? & Hsn & <- & _ & _ & _ & HV & HE & HVg).
    exists a. split.
    + apply list_elem_of_fmap. exists (sn_key sn, a). split; [done|].
      by apply elem_of_map_to_list.
    + unfold supernode_shape. rewrite Hsn. simpl. by rewrite HV, HE.
Qed.

Lemma Built_superedge_shapes :
  list_to_set (omap (superedge_shape w) (map_to_list (E g)).*2)
  = st_superedges (prescribed_structure t edges).
Proof.
  apply set_eq. intros x. simpl.
  rewrite !elem_of_list_to_set, !list_elem_of_omap. split.
  - intros (se & ([k se'] & -> & Hk%elem_of_map_to_list)%list_elem_of_fmap & Hx).
    simpl in Hx.
    destruct (Built_superedge _ _ _ _ _ _ _ _ _ HB _ _ Hk)
      as (s1 & s2 & sn1 & sn2 & T1 & T2 & _ & _ & _ & _ & _ & Hne & Hdec & Hnemp).
    unfold superedge_shape in Hx.
    rewrite (Built_sig_at _ _ T1), (Built_sig_at _ _ T2) in Hx. simpl in Hx.
    injection Hx as <-.
    apply set_choose_L in Hnemp as [e He]. rewrite Hdec in He.
    apply elem_of_edges_between in He as (He & Hs1 & Hs2).
    exists e. split; [done|]. unfold prescribed_superedge.
    rewrite Hs1, Hs2. simpl. rewrite decide_False by done. by rewrite Hdec.
  - intros (e & He & Hx). unfold prescribed_superedge in Hx.
    destruct (Built_edge _ _ _ _ _ _ _ _ _ HB Hnd Hcov e He)
      as (s1 & s2 & a1 & a2 & sn1 & sn2 & Hsig1 & Hsig2 & _ & _ & T1 & T2
          & _ & _ & _ & _ & _ & _ & _ & Hcross).
    rewrite Hsig1, Hsig2 in Hx. simpl in Hx.
    destruct (decide (s1 = s2)) as [|Hne]; [done|]. injection Hx as <-.
    destruct (Hcross Hne) as (se & Hk & Et & Eh & Hdec).
    exists se. split.
    + apply list_elem_of_fmap. exists ((sn_key sn1, sn_key sn2), se).
      split; [done|]. by apply elem_of_map_to_list.
    + unfold superedge_shape. rewrite Et, Eh.
      rewrite (Built_sig_at _ _ T1), (Built_sig_at _ _ T2). simpl.
      by rewrite Hdec.
Qed.

Lemma Built_node_shapes :
  list_to_set (omap (node_shape w) t.*1)
  = st_assignment (prescribed_structure t edges).
Proof.
  apply set_eq. intros [n s]. simpl.
  rewrite !elem_of_list_to_set, list_elem_of_omap, elem_of_signature_rows.
  split.
  - intros (n' & Hn' & Hx).
    destruct (sig_of_listed t n' Hnd Hn') as (sos & Hin & Hsig).
    destruct (Built_node _ _ _ _ _ _ _ _ _ HB Hnd _ _ Hsig)
      as (a & sn & id & T & Hb & _).
    unfold node_shape in Hx. rewrite Hb in Hx. simpl in Hx.
    rewrite (Built_sig_at _ _ T) in Hx. simpl in Hx. injection Hx as <- <-.
    by exists sos.
  - intros (sos & Hin & <-). exists n. split.
    + apply list_elem_of_fmap. by exists (n, sos).
    + assert (sig_of t n = Some (frozenset sos)) as Hsig.
      { apply sig_of_Some; [done|]. by exists sos. }
      destruct (Built_node _ _ _ _ _ _ _ _ _ HB Hnd _ _ Hsig)
        as (a & sn & id & T & Hb & _).
      unfold node_shape. rewrite Hb. simpl.
      by rewrite (Built_sig_at _ _ T).
Qed.
End BuiltStructure.

Section Rebuild.
Variable contraction_name : string.
Variable contraction_function :
  LowerGraph → Strategy (list (string * list ComponentSet)).
Variable _supernode_attr_function : Supernode → gmap string string.
Variable _superedge_attr_function : Superedge → gmap string string.
Variable _c_set_attr_function : gset string → gmap string string.

Local Abbreviation contract :=
  (contract contraction_name contraction_function _supernode_attr_function
     _superedge_attr_function _c_set_attr_function).

(** After [contract], the scheme's graph has the structure its table
    prescribes. *)
Lemma contract_structure G w t :
  (strategy_result (contraction_function G)
     (_component_set_id_counter (self w))).2 = inr t →
  well_formed t G →
  (∃ cg, outcome_of (contract G w) = inr (Some cg))
  ∧ structure (world_of (contract G w))
    = Some (prescribed_structure t (lg_edges G)).
Proof.
  intros Hres Hwf.
  destruct (contract_built contraction_name contraction_function
              _supernode_attr_function _superedge_attr_function
              _c_set_attr_function G w t Hres Hwf)
    as (w' & g & Hrun & Hself & Hgr & Hfr & Hold & HB).
  destruct Hwf as (Hnd & Hnde & Hcov). rewrite Forall_forall in Hcov.
  rewrite Hrun. unfold world_of, outcome_of. simpl. split; [by eexists|].
  unfold structure. rewrite Hself. simpl.
  rewrite (bt_graph _ _ _ _ _ _ _ _ _ HB). simpl.
  rewrite decorate_table_fst.
  rewrite (Built_supernode_shapes _ _ _ _ _ _ _ _ _ HB).
  rewrite (Built_superedge_shapes _ _ _ _ _ _ _ _ _ HB Hnd Hcov).
  rewrite (Built_node_shapes _ _ _ _ _ _ _ _ _ HB Hnd).
  done.
Qed.

(** Claim C4.  Calling [contract] on a graph and then again on the same
    graph, the strategy returning the same rows up to the identifiers of
    the component sets, gives twice the same structure: the same supernode
    signatures with the same members and inner edges, the same superedges
    between the same signatures holding the same edges, and the same
    assignment of nodes to signatures; keys and identifiers may differ. *)
Theorem contract_twice_same_structure G w t1 t2 :
  let w1 := world_of (contract G w) in
  (strategy_result (contraction_function G)
     (_component_set_id_counter (self w))).2 = inr t1 →
  well_formed t1 G →
  (strategy_result (contraction_function G)
     (_component_set_id_counter (self w1))).2 = inr t2 →
  signature_rows t1 = signature_rows t2 →
  (∃ cg1, outcome_of (contract G w) = inr (Some cg1))
  ∧ (∃ cg2, outcome_of (contract G w1) = inr (Some cg2))
  ∧ structure w1 = Some (prescribed_structure t1 (lg_edges G))
  ∧ structure (world_of (contract G w1)) = structure w1.
Proof.
  intros w1 Hres1 Hwf1 Hres2 Hrows.
  destruct (contract_structure G w t1 Hres1 Hwf1) as [Hok1 Hst1].
  assert (Hwf2 : well_formed t2 G).
  { destruct Hwf1 as (Hnd & Hnde & Hcov). unfold well_formed.
    by rewrite (same_rows_fst t1 t2 Hrows). }
  destruct (contract_structure G w1 t2 Hres2 Hwf2) as [Hok2 Hst2].
  split_and!; try done. fold w1 in Hst1. rewrite Hst1, Hst2. f_equal.
  symmetry. apply same_rows_prescribed_structure; [done|].
  by destruct Hwf1.
Qed.
End Rebuild.

Lemma example_result :
  (strategy_result (mutual_strategy example_graph)
     (_component_set_id_counter (self init_world))).2
  = inr (example_table 0).
Proof. vm_compute. reflexivity. Qed.

Lemma example_well_formed : well_formed (example_table 0) example_graph.
Proof. apply (bool_decide_unpack _). vm_compute. exact I. Qed.

Local Abbreviation example_contract :=
  (contract "mutual" mutual_strategy (λ _, ∅) (λ _, ∅) (λ _, ∅)).

Lemma contract_twice_same_structure_witness :
  let w1 := world_of (example_contract example_graph init_world) in
  (∃ cg1, outcome_of (example_contract example_graph init_world)
          = inr (Some cg1))
  ∧ (∃ cg2, outcome_of (example_contract example_graph w1) = inr (Some cg2))
  ∧ structure w1
    = Some (prescribed_structure (example_table 0) (lg_edges example_graph))
  ∧ structure (world_of (example_contract example_graph w1)) = structure w1.
Proof.
  apply (contract_twice_same_structure "mutual" mutual_strategy
           (λ _, ∅) (λ _, ∅) (λ _, ∅) example_graph init_world
           (example_table 0) (example_table 2)).
  - vm_compute. reflexivity.
  - apply (bool_decide_unpack _). vm_compute. exact I.
  - vm_compute. reflexivity.
  - apply (bool_decide_unpack _). vm_compute. exact I.
Defined.

(** ** The claims on a concrete scheme *)

Lemma contract_groups_nodes_by_signature_witness :
  let contraction_name := "mutual" in
  let _c_set_attr_function := (λ _ : gset string, (∅ : gmap string string)) in
  let contract := example_contract in
  let G := example_graph in
  let w := init_world in
  let t := example_table 0 in
  let r := contract G w in
  let w' := world_of r in
  let c0 := _supernode_id_counter (self w) in
  (∃ cg, outcome_of r = inr (Some cg))
  ∧ contraction_sets_table (self w')
    = Some (decorate_table _c_set_attr_function t)
  ∧ (∀ n1 sos1 n2 sos2, (n1, sos1) ∈ t → (n2, sos2) ∈ t →
       node_supernode w' !! n1 = node_supernode w' !! n2
       ↔ frozenset sos1 = frozenset sos2)
  ∧ (∀ n sos, (n, sos) ∈ t →
       ∃ a sn id,
         node_supernode w' !! n = Some a
         ∧ supernodes w' !! a = Some sn
         ∧ supernode_table (self w') !! frozenset sos = Some a
         ∧ (a ∉ dom (supernodes w))
         ∧ sn_set_of_sets sn = frozenset sos
         ∧ sn_key sn
           = str (level (self w)) +:+ "_" +:+ contraction_name +:+ "_"
               +:+ str id
         ∧ (c0 < id)%Z
         ∧ EvSupernodeId id ∈ events_of r
         ∧ n ∈ ig_V (sn_dec sn))
  ∧ supernode_ids (events_of r)
    = seqZ (c0 + 1) (Z.of_nat (size (signatures t))).
Proof.
  apply (contract_groups_nodes_by_signature "mutual" mutual_strategy
           (λ _, ∅) (λ _, ∅) (λ _, ∅) example_graph init_world
           (example_table 0)).
  - vm_compute. reflexivity.
  - apply (bool_decide_unpack _). vm_compute. exact I.
Defined.

Lemma contract_routes_edges_witness :
  let contraction_name := "mutual" in
  let _c_set_attr_function := (λ _ : gset string, (∅ : gmap string string)) in
  let contract := example_contract in
  let G := example_graph in
  let w := init_world in
  let t := example_table 0 in
  let r := contract G w in
  let w' := world_of r in
  ∃ cg g,
    outcome_of r = inr (Some cg)
    ∧ graphs w !! cg = None
    ∧ graphs w' !! cg = Some g
    ∧ (∀ e, e ∈ lg_edges G →
         ∃ a1 a2 sn1 sn2,
           node_supernode w' !! e.1 = Some a1
           ∧ node_supernode w' !! e.2 = Some a2
           ∧ supernodes w' !! a1 = Some sn1
           ∧ supernodes w' !! a2 = Some sn2
           ∧ (a1 ≠ a2 →
                ∃ se, E g !! (sn_key sn1, sn_key sn2) = Some se
                      ∧ se_tail se = a1 ∧ se_head se = a2
                      ∧ e ∈ se_dec se
                      ∧ (e ∉ ig_E (sn_dec sn1)) ∧ (e ∉ ig_E (sn_dec sn2)))
           ∧ (a1 = a2 →
                e ∈ ig_E (sn_dec sn1)
                ∧ ∀ k se, E g !! k = Some se → e ∉ se_dec se))
    ∧ (∀ k se, E g !! k = Some se →
         ∃ e, e ∈ lg_edges G ∧ e ∈ se_dec se).
Proof.
  apply (contract_routes_edges "mutual" mutual_strategy
           (λ _, ∅) (λ _, ∅) (λ _, ∅) example_graph init_world
           (example_table 0)).
  - vm_compute. reflexivity.
  - apply (bool_decide_unpack _). vm_compute. exact I.
Defined.

Lemma contract_one_supernode_per_signature_witness :
  let contraction_name := "mutual" in
  let _c_set_attr_function := (λ _ : gset string, (∅ : gmap string string)) in
  let contract := example_contract in
  let G := example_graph in
  let w := init_world in
  let t := example_table 0 in
  let r := contract G w in
  let w' := world_of r in
  ∃ cg g,
    outcome_of r = inr (Some cg)
    ∧ graphs w' !! cg = Some g
    ∧ (∀ k1 k2 a1 a2 sn1 sn2,
         V g !! k1 = Some a1 → V g !! k2 = Some a2 →
         supernodes w' !! a1 = Some sn1 → supernodes w' !! a2 = Some sn2 →
         sn_set_of_sets sn1 = sn_set_of_sets sn2 → k1 = k2 ∧ a1 = a2)
    ∧ (∀ s a, supernode_table (self w') !! s = Some a →
         ∃ sn, supernodes w' !! a = Some sn ∧ sn_set_of_sets sn = s)
    ∧ (∀ a, (∃ s, supernode_table (self w') !! s = Some a)
            ↔ (∃ k, V g !! k = Some a))
    ∧ (∀ a, (∃ s, supernode_table (self w') !! s = Some a)
            ↔ a ∈ dom (supernodes w') ∧ (a ∉ dom (supernodes w))).
Proof.
  apply (contract_one_supernode_per_signature "mutual" mutual_strategy
           (λ _, ∅) (λ _, ∅) (λ _, ∅) example_graph init_world
           (example_table 0)).
  - vm_compute. reflexivity.
  - apply (bool_decide_unpack _). vm_compute. exact I.
Defined.

Lemma contract_no_dangling_edges_witness :
  let contraction_name := "mutual" in
  let _c_set_attr_function := (λ _ : gset string, (∅ : gmap string string)) in
  let contract := example_contract in
  let G := example_graph in
  let w := init_world in
  let t := example_table 0 in
  let r := contract G w in
  let w' := world_of r in
  ∃ cg g,
    outcome_of r = inr (Some cg)
    ∧ graphs w' !! cg = Some g
    ∧ (∀ k se, E g !! k = Some se →
         ∃ sn1 sn2,
           supernodes w' !! se_tail se = Some sn1
           ∧ supernodes w' !! se_head se = Some sn2
           ∧ V g !! sn_key sn1 = Some (se_tail se)
           ∧ V g !! sn_key sn2 = Some (se_head se)
           ∧ k = (sn_key sn1, sn_key sn2))
    ∧ (∀ e, e ∈ lg_edges G →
         ∃ x, in_aggregate w' g x e
              ∧ ∀ y, in_aggregate w' g y e → y = x).
Proof.
  apply (contract_no_dangling_edges "mutual" mutual_strategy
           (λ _, ∅) (λ _, ∅) (λ _, ∅) example_graph init_world
           (example_table 0)).
  - vm_compute. reflexivity.
  - apply (bool_decide_unpack _). vm_compute. exact I.
Defined.

(** * Further properties of the methods *)

(** ** Frames *)

Section Preserves.
Context (R : World → World → Prop) `{!PreOrder R}.

Lemma preserves_ret {A} (a : A) : preserves R (ret a).
Proof. intros w. reflexivity. Qed.

Lemma preserves_raise {A} (e : Exn) : preserves R (@raise A e).
Proof. intros w. reflexivity. Qed.

Lemma preserves_get : preserves R get.
Proof. intros w. reflexivity. Qed.

Lemma preserves_emit ev : preserves R (emit ev).
Proof. intros w. reflexivity. Qed.

Lemma preserves_modify (f : World → World) :
  (∀ w, R w (f w)) → preserves R (modify f).
Proof. intros Hf w. apply Hf. Qed.

Lemma preserves_bind {A B} (m : M A) (k : A → M B) :
  preserves R m → (∀ a, preserves R (k a)) → preserves R (bind m k).
Proof.
  intros Hm Hk w. specialize (Hm w). unfold bind.
  destruct (m w) as [[t1 w1] [e|a]]; [done|].
  specialize (Hk a w1). destruct (k a w1) as [[t2 w2] r].
  unfold world_of in *. simpl in *. by etrans.
Qed.

Lemma preserves_for_each {X} (l : list X) (body : X → M unit) :
  (∀ x, preserves R (body x)) → preserves R (for_each l body).
Proof.
  intros Hb. induction l as [|x l IH]; simpl.
  - apply preserves_ret.
  - apply preserves_bind; [apply Hb|]. by intros _.
Qed.
End Preserves.

Global Instance build_frame_preorder : PreOrder build_frame.
Proof.
  split.
  - intros w. by split.
  - intros w1 w2 w3 [] []. split; try congruence; set_solver.
Qed.

Global Instance same_level_preorder : PreOrder same_level.
Proof.
  split.
  - intros w. by split.
  - intros w1 w2 w3 [] []. split; congruence.
Qed.

(** Steps that decompose a computation built from the monad's operations. *)
Ltac preserves_step tac :=
  lazymatch goal with
  | |- preserves ?R _ =>
      first
        [ apply (preserves_ret R)
        | apply (preserves_raise R)
        | apply (preserves_get R)
        | apply (preserves_emit R)
        | apply (preserves_modify R); intros; tac
        | apply (preserves_for_each R); intros
        | apply (preserves_bind R); [|intros]
        | case_match
        | case_decide ]
  end.

Ltac preserves_bind :=
  lazymatch goal with
  | |- preserves ?R _ => apply (preserves_bind R)
  end.

Ltac preserves_for_each :=
  lazymatch goal with
  | |- preserves ?R _ => apply (preserves_for_each R)
  end.

Ltac preserves_leaf :=
  lazymatch goal with
  | |- preserves ?R _ =>
      first [ apply (preserves_ret R) | apply (preserves_raise R)
            | apply (preserves_get R) | apply (preserves_emit R) ]
  end.

Ltac build_frame_modify :=
  split; simpl; try done; set_solver.

Ltac build_frame_auto := repeat preserves_step build_frame_modify.

Ltac same_level_auto := repeat preserves_step ltac:(by split).

Lemma build_frame_new_DecGraph : preserves build_frame new_DecGraph.
Proof. intros w. unfold world_of. simpl. build_frame_modify. Qed.

Lemma build_frame_new_Supernode key lvl sos :
  preserves build_frame (new_Supernode key lvl sos).
Proof. intros w. unfold world_of. simpl. build_frame_modify. Qed.

Lemma build_frame_get_supernode_id : preserves build_frame _get_supernode_id.
Proof. unfold _get_supernode_id. build_frame_auto. Qed.

Lemma build_frame_DecGraph_add_node g a :
  preserves build_frame (DecGraph_add_node g a).
Proof.
  unfold DecGraph_add_node. preserves_bind; [preserves_leaf|].
  intros w. repeat case_match; try preserves_leaf.
  apply (preserves_modify build_frame). intros w'. split; simpl; try done.
  (* the graph object is replaced in place *)
  intros b. rewrite !elem_of_dom. destruct (decide (b = g)) as [->|].
  - rewrite lookup_insert_eq. by eauto.
  - by rewrite lookup_insert_ne.
Qed.

Lemma build_frame_Supernode_add_node a n :
  preserves build_frame (Supernode_add_node a n).
Proof. unfold Supernode_add_node. build_frame_auto. Qed.

Lemma build_frame_Supernode_add_edge a e :
  preserves build_frame (Supernode_add_edge a e).
Proof. unfold Supernode_add_edge. build_frame_auto. Qed.

Lemma build_frame_place_node name cg row :
  preserves build_frame (place_node name cg row).
Proof.
  unfold place_node. preserves_bind; [preserves_leaf|]. intros w.
  preserves_bind.
  - case_match; [preserves_leaf|].
    preserves_bind; [apply build_frame_get_supernode_id|]. intros id.
    preserves_bind; [apply build_frame_new_Supernode|]. intros a.
    preserves_bind; [build_frame_auto|]. intros _.
    preserves_bind; [apply build_frame_DecGraph_add_node|]. intros _.
    preserves_leaf.
  - intros a. preserves_bind; [apply build_frame_Supernode_add_node|].
    intros _. build_frame_auto.
Qed.

Lemma build_frame_place_edge cg e : preserves build_frame (place_edge cg e).
Proof.
  unfold place_edge. preserves_bind; [preserves_leaf|]. intros w.
  repeat case_match; try preserves_leaf;
    try apply build_frame_Supernode_add_edge; build_frame_auto.
Qed.

Lemma build_frame_make_dec_graph name t G :
  preserves build_frame (_make_dec_graph name t G).
Proof.
  unfold _make_dec_graph.
  preserves_bind; [build_frame_auto|]. intros _.
  preserves_bind; [apply build_frame_new_DecGraph|]. intros cg.
  preserves_bind.
  { preserves_for_each. intros. apply build_frame_place_node. }
  intros _. preserves_bind.
  { preserves_for_each. intros. apply build_frame_place_edge. }
  intros _. preserves_leaf.
Qed.

(** ** The ways [contract] can end *)

(** [_make_dec_graph] is its two loops run on a new, empty graph object,
    whose reference it returns when neither loop raised. *)
Lemma make_dec_graph_unfold name t G w :
  let cg := fresh (dom (graphs w)) in
  let w0 := set_graphs <[cg := mkDecGraph ∅ ∅]>
              (set_self (with_supernode_table ∅) w) in
  let loops := for_each t (place_node name cg);;
               for_each (lg_edges G) (place_edge cg) in
  _make_dec_graph name t G w
  = (events_of (loops w0), world_of (loops w0),
     match outcome_of (loops w0) with
     | inl e => inl e
     | inr _ => inr cg
     end).
Proof.
  intros cg w0 loops. unfold _make_dec_graph.
  unfold bind at 1 2, modify, new_DecGraph. simpl. fold cg. fold w0.
  subst loops. unfold bind.
  destruct (for_each t (place_node name cg) w0) as [[t1 w1] [e|[]]]; [done|].
  destruct (for_each (lg_edges G) (place_edge cg) w1) as [[t2 w2] [e|[]]];
    unfold events_of, world_of, outcome_of; simpl; [done|].
  by rewrite app_nil_r.
Qed.

(** The reference [_make_dec_graph] returns is that of a graph object. *)
Lemma make_dec_graph_returns_graph name t G w cg :
  outcome_of (_make_dec_graph name t G w) = inr cg →
  cg = fresh (dom (graphs w))
  ∧ is_Some (graphs (world_of (_make_dec_graph name t G w)) !! cg).
Proof.
  rewrite make_dec_graph_unfold. unfold outcome_of, world_of. simpl.
  set (cg0 := fresh (dom (graphs w))).
  set (w0 := set_graphs <[cg0 := mkDecGraph ∅ ∅]>
               (set_self (with_supernode_table ∅) w)).
  intros Hout.
  assert (cg = cg0) as ->.
  { destruct ((for_each t (place_node name cg0);;
               for_each (lg_edges G) (place_edge cg0)) w0) as [[? ?] [?|?]];
      simpl in Hout; congruence. }
  split; [done|]. apply elem_of_dom.
  assert (preserves build_frame
            (for_each t (place_node name cg0);;
             for_each (lg_edges G) (place_edge cg0))) as Hfr.
  { preserves_bind.
    - preserves_for_each. intros. apply build_frame_place_node.
    - intros _. preserves_for_each. intros. apply build_frame_place_edge. }
  apply (bf_graphs _ _ (Hfr w0)). subst w0. simpl.
  rewrite dom_insert_L. set_solver.
Qed.

Section Outcomes.
Variable contraction_name : string.
Variable contraction_function :
  LowerGraph → Strategy (list (string * list ComponentSet)).
Variable _supernode_attr_function : Supernode → gmap string string.
Variable _superedge_attr_function : Superedge → gmap string string.
Variable _c_set_attr_function : gset string → gmap string string.

Local Abbreviation contract :=
  (contract contraction_name contraction_function _supernode_attr_function
     _superedge_attr_function _c_set_attr_function).
Local Abbreviation update_attr :=
  (update_attr _supernode_attr_function _superedge_attr_function
     _c_set_attr_function).

(** [contract] step by step: the strategy, the assignment of the table,
    [_make_dec_graph], the assignment of the graph, [update_attr], the
    validity flag. *)
Lemma contract_unfold G w :
  let c := _component_set_id_counter (self w) in
  let c' := (strategy_result (contraction_function G) c).1 in
  let cevs := EvComponentSetId <$> seqZ (c + 1) (c' - c) in
  contract G w
  = match (strategy_result (contraction_function G) c).2 with
    | inl e => (cevs, set_self (with_component_set_id_counter c') w, inl e)
    | inr t =>
        let wa := set_self (with_contraction_sets_table (Some t))
                    (set_self (with_component_set_id_counter c') w) in
        let r1 := _make_dec_graph contraction_name t G wa in
        match outcome_of r1 with
        | inl e => (cevs ++ events_of r1, world_of r1, inl e)
        | inr cg =>
            let wb := set_self (with_dec_graph (Some cg)) (world_of r1) in
            let r2 := update_attr wb in
            match outcome_of r2 with
            | inl e =>
                (cevs ++ events_of r1 ++ events_of r2, world_of r2, inl e)
            | inr _ =>
                (cevs ++ events_of r1 ++ events_of r2,
                 set_self (with_valid true) (world_of r2),
                 inr (dec_graph (self (world_of r2))))
            end
        end
    end.
Proof.
  intros c c' cevs. unfold_contract. unfold bind at 1.
  pose proof (run_strategy_spec (contraction_function G) w) as Hrun.
  simpl in Hrun. fold c in Hrun. fold c' in Hrun. fold cevs in Hrun.
  rewrite Hrun.
  destruct (strategy_result (contraction_function G) c).2 as [e|t]; [done|].
  unfold bind at 1, modify at 1. cbv beta iota.
  set (wa := set_self (with_contraction_sets_table (Some t))
               (set_self (with_component_set_id_counter c') w)).
  unfold bind at 1.
  destruct (_make_dec_graph contraction_name t G wa) as [[t1 w1] [e|cg]];
    unfold events_of, world_of, outcome_of; simpl; [done|].
  unfold bind at 1, modify at 1. cbv beta iota.
  set (wb := set_self (with_dec_graph (Some cg)) w1).
  unfold bind at 1.
  destruct (update_attr wb) as [[t2 w2] [e|[]]]; simpl.
  - done.
  - unfold bind, modify, get, ret. simpl. by rewrite ?app_nil_r.
Qed.
End Outcomes.

(** ** [update_attr] on any scheme *)

Lemma for_each_modify_self {X} (f : X → World → World) (l : list X) u u' :
  (∀ x u, self (f x u) = self u) →
  for_each l (λ x, modify (f x)) u = ([], u', inr tt) →
  self u' = self u.
Proof.
  intros Hf. revert u u'. induction l as [|x l IH]; intros u u'; simpl.
  - by intros [= <-].
  - unfold bind, modify at 1. intros Hrun.
    destruct (for_each l (λ x, modify (f x)) (f x u)) as [[t3 u3] r] eqn:Hl.
    destruct r as [|[]]; [done|]. injection Hrun as ? <-.
    destruct t3; [|done]. rewrite (IH _ _ Hl). apply Hf.
Qed.

Ltac unfold_update_attr := unfold update_attr.

Section UpdateAttr.
Variable _supernode_attr_function : Supernode → gmap string string.
Variable _superedge_attr_function : Superedge → gmap string string.
Variable _c_set_attr_function : gset string → gmap string string.

Local Abbreviation update_attr :=
  (update_attr _supernode_attr_function _superedge_attr_function
     _c_set_attr_function).

(** The two decoration loops always run to their end. *)
Lemma decoration_loops w ga g :
  ∃ w1 w2,
    for_each (map_to_list (V g)).*2
      (decorate_supernode _supernode_attr_function) w
    = ([], w1, inr tt)
    ∧ for_each (map_to_list (E g)).*1
        (decorate_superedge _superedge_attr_function ga) w1
      = ([], w2, inr tt)
    ∧ attr_equiv w w2
    ∧ self w2 = self w.
Proof.
  destruct (for_each_decorate
              (λ a, set_supernodes (alter (λ sn,
                 Supernode_update (_supernode_attr_function sn) sn) a))
              (map_to_list (V g)).*2 w) as (w1 & Hrun1 & Heq1).
  { intros. apply decorate_supernode_equiv. }
  destruct (for_each_decorate
              (λ k, set_graphs (alter (λ g,
                 mkDecGraph (V g)
                   (alter (λ se,
                      Superedge_update (_superedge_attr_function se) se)
                      k (E g))) ga))
              (map_to_list (E g)).*1 w1) as (w2 & Hrun2 & Heq2).
  { intros. apply decorate_superedge_equiv. }
  pose proof Hrun1 as Hs1. pose proof Hrun2 as Hs2.
  apply for_each_modify_self in Hs1; [|done].
  apply for_each_modify_self in Hs2; [|done].
  exists w1, w2. split_and!; try done.
  - by etrans.
  - by rewrite Hs2, Hs1.
Qed.

(** Every run of [update_attr]. *)
Lemma update_attr_run w :
  ∃ w',
    update_attr w
    = ([], w',
       match dec_graph (self w) ≫= (graphs w !!.),
             contraction_sets_table (self w) with
       | Some _, Some _ => inr tt
       | _, _ => inl AttributeError
       end)
    ∧ attr_equiv w w'.
Proof.
  unfold_update_attr.
  destruct (dec_graph (self w)) as [ga|] eqn:Hga; simpl.
  - destruct (graphs w !! ga) as [g|] eqn:Hg; simpl.
    + destruct (decoration_loops w ga g) as (w1 & w2 & Hrun1 & Hrun2 & Heq & _).
      destruct (contraction_sets_table (self w)) as [t|] eqn:Ht.
      * eexists. split.
        -- unfold bind, get. simpl. rewrite Hga, Hg, Hrun1, Hrun2, Ht.
           unfold modify. simpl. reflexivity.
        -- etrans; [exact Heq|]. split; try done; intros a; reflexivity.
      * exists w2. split; [|done].
        unfold bind, get. simpl. by rewrite Hga, Hg, Hrun1, Hrun2, Ht.
    + exists w. split; [|done]. unfold bind, get. simpl. by rewrite Hga, Hg.
  - exists w. split; [|done]. unfold bind, get. simpl. by rewrite Hga.
Qed.
End UpdateAttr.

(** ** Further properties of the methods *)

Lemma preserves_weaken {A} (R R' : World → World → Prop) (m : M A) :
  (∀ w w', R w w' → R' w w') → preserves R m → preserves R' m.
Proof. intros HR Hm w. apply HR, Hm. Qed.

Lemma build_frame_same_level w w' : build_frame w w' → same_level w w'.
Proof. intros []. by split. Qed.

Lemma attr_equiv_same_level w w' : attr_equiv w w' → same_level w w'.
Proof.
  intros [Hs _ _ _]. split.
  - by apply (f_equal level) in Hs.
  - by apply (f_equal update_quadruple) in Hs.
Qed.

Lemma same_level_run_strategy {A} (s : Strategy A) :
  preserves same_level (run_strategy s).
Proof.
  induction s as [a|e|k IH]; simpl.
  - preserves_leaf.
  - preserves_leaf.
  - preserves_bind; [|done]. unfold _get_component_set_id. same_level_auto.
Qed.

Section Methods.
Variable contraction_name : string.
Variable contraction_function :
  LowerGraph → Strategy (list (string * list ComponentSet)).
Variable _supernode_attr_function : Supernode → gmap string string.
Variable _superedge_attr_function : Superedge → gmap string string.
Variable _c_set_attr_function : gset string → gmap string string.

Local Abbreviation contract :=
  (contract contraction_name contraction_function _supernode_attr_function
     _superedge_attr_function _c_set_attr_function).
Local Abbreviation update_attr :=
  (update_attr _supernode_attr_function _superedge_attr_function
     _c_set_attr_function).
Local Abbreviation run_call :=
  (run_call contraction_name contraction_function _supernode_attr_function
     _superedge_attr_function _c_set_attr_function).
Local Abbreviation run_calls :=
  (run_calls contraction_name contraction_function _supernode_attr_function
     _superedge_attr_function _c_set_attr_function).


(** No method assigns [level] or [update_quadruple]: whatever a client
    calls on a scheme, and whether the calls return or raise, both
    attributes keep the values they had. *)
Theorem lifetime_keeps_level_and_quadruple cs w :
  level (self (run_calls cs w).2) = level (self w)
  ∧ update_quadruple (self (run_calls cs w).2) = update_quadruple (self w).
Proof.
  change (same_level w (run_calls cs w).2).
  revert w. induction cs as [|c cs IH]; intros w; [done|].
  simpl. etrans; [|apply IH].
  destruct c as [G| | | |]; simpl.
  - assert (preserves same_level (contract G)) as Hc; [|apply Hc].
    unfold_contract.
    preserves_bind; [apply same_level_run_strategy|]. intros t.
    preserves_bind; [same_level_auto|]. intros _.
    preserves_bind.
    { eapply preserves_weaken; [apply build_frame_same_level|].
      apply build_frame_make_dec_graph. }
    intros g. preserves_bind; [same_level_auto|]. intros _.
    preserves_bind.
    { intros u.
      destruct (update_attr_run _supernode_attr_function
                  _superedge_attr_function _c_set_attr_function u)
        as (u' & Hrun & Heq).
      rewrite Hrun. by apply attr_equiv_same_level. }
    intros _. same_level_auto.
  - assert (preserves same_level _get_supernode_id) as Hc; [|apply Hc].
    unfold _get_supernode_id. same_level_auto.
  - assert (preserves same_level _get_component_set_id) as Hc; [|apply Hc].
    unfold _get_component_set_id. same_level_auto.
  - done.
  - done.
Qed.

(** A scheme that reports itself valid holds a graph object and a table,
    and no sequence of calls breaks this: a [contract] that raises leaves
    the validity flag and the graph reference as they were, and graph
    objects are never deleted. *)
Theorem valid_scheme_has_graph cs w :
  valid_has_graph w → valid_has_graph (run_calls cs w).2.
Proof.
  revert w. induction cs as [|c cs IH]; intros w Hw; [done|].
  simpl. apply IH. clear IH.
  destruct c as [G| | | |]; simpl; try done.
  - unfold world_of. rewrite contract_unfold.
    set (c := _component_set_id_counter (self w)).
    destruct (strategy_result (contraction_function G) c).2 as [e|t]; [done|].
    simpl.
    set (wa := set_self (with_contraction_sets_table (Some t))
                 (set_self (with_component_set_id_counter
                    (strategy_result (contraction_function G) c).1) w)).
    pose proof (build_frame_make_dec_graph contraction_name t G wa) as Hfr.
    set (w1 := world_of (_make_dec_graph contraction_name t G wa)) in *.
    assert (contraction_sets_table (self w1) = Some t) as Ht.
    { by rewrite (bf_table _ _ Hfr). }
    destruct (outcome_of (_make_dec_graph contraction_name t G wa))
      as [e1|cg] eqn:Hout; simpl.
    + intros Hv. rewrite (bf_valid _ _ Hfr) in Hv.
      destruct (Hw Hv) as [(cg & Hcg & Hg) _]. split; [|by rewrite Ht].
      exists cg. rewrite (bf_dec_graph _ _ Hfr). split; [done|].
      apply elem_of_dom. apply (bf_graphs _ _ Hfr). by apply elem_of_dom.
    + destruct (make_dec_graph_returns_graph _ _ _ _ _ Hout) as [_ [g Hg]].
      fold w1 in Hg.
      set (wb := set_self (with_dec_graph (Some cg)) w1).
      destruct (update_attr_run _supernode_attr_function
                  _superedge_attr_function _c_set_attr_function wb)
        as (w2 & Hrun & Heq).
      simpl in Hrun. rewrite Hg, Ht in Hrun. simpl in Hrun.
      rewrite Hrun. unfold outcome_of, world_of. simpl. intros _.
      destruct Heq as [Hs _ _ Hgr]. split.
      * exists cg. split.
        -- by apply (f_equal dec_graph) in Hs.
        -- specialize (Hgr cg). simpl in Hgr. rewrite Hg in Hgr.
           apply option_Forall2_Some_l in Hgr as (g' & Hg' & _).
           simpl. by rewrite Hg'.
      * destruct (update_attr_spec _supernode_attr_function
                    _superedge_attr_function _c_set_attr_function wb cg g t)
          as (w2' & Hrun' & _ & Ht'); try done.
        assert (w2' = w2) as -> by congruence. simpl. by rewrite Ht'.
Qed.

End Methods.

Section UpdateFailure.
Variable update_added_node : string → World → World * (Exn + unit).
Variable update_removed_node : string → World → World * (Exn + unit).
Variable update_added_edge : string * string → World → World * (Exn + unit).
Variable update_removed_edge : string * string → World → World * (Exn + unit).

Local Abbreviation hook_body :=
  (hook_body update_added_node update_removed_node update_added_edge
     update_removed_edge).
Local Abbreviation call_hook :=
  (call_hook update_added_node update_removed_node update_added_edge
     update_removed_edge).
Local Abbreviation update :=
  (update update_added_node update_removed_node update_added_edge
     update_removed_edge).

(** When a hook raises, [update] stops there: the hooks for the changes
    before it have run, in the prescribed order, the hooks for the changes
    after it are not called, the exception reaches the caller unchanged,
    and the world is the one the failing hook left; nothing is rolled
    back. *)
Theorem update_stops_at_first_failure q w done c rest e :
  let r := for_each done call_hook w in
  prescribed_calls q = done ++ c :: rest →
  outcome_of r = inr tt →
  (hook_body c (world_of r)).2 = inl e →
  update q w
  = (EvHook <$> (done ++ [c]), (hook_body c (world_of r)).1, inl e).
Proof.
  intros r Hq Hok Hfail.
  rewrite (update_unfold update_added_node update_removed_node
             update_added_edge update_removed_edge).
  rewrite Hq. unfold bind at 1. rewrite for_each_app. unfold bind at 1.
  destruct (for_each_call_hook_events update_added_node update_removed_node
              update_added_edge update_removed_edge done w) as (n & Hev & Hn).
  subst r. destruct (for_each done call_hook w) as [[t1 w1] [e1|[]]];
    unfold outcome_of, world_of, events_of in *; simpl in *; [done|].
  rewrite (Hn tt eq_refl), firstn_all in Hev. subst t1.
  unfold bind at 1.
  change (call_hook c w1)
    with ([EvHook c], (hook_body c w1).1, (hook_body c w1).2).
  rewrite Hfail. by rewrite fmap_app.
Qed.
End UpdateFailure.

(** A removed-node hook that always raises: the removed edge has been
    handled, the added node and the added edge are never looked at. *)
Lemma update_stops_at_first_failure_witness :
  update (λ _ w, (w, inr tt)) (λ _ w, (w, inl InconsistentUpdate))
    (λ _ w, (w, inr tt))
    (λ _ w, (set_self (with_valid false) w, inr tt))
    (mkQuadruple ["x"] ["n"] [("x", "a")] [("n", "a")])
    (set_self (with_valid true) init_world)
  = ([EvHook (RemovedEdge ("n", "a")); EvHook (RemovedNode "n")],
     init_world, inl InconsistentUpdate).
Proof.
  apply (update_stops_at_first_failure
           (λ _ w, (w, inr tt)) (λ _ w, (w, inl InconsistentUpdate))
           (λ _ w, (w, inr tt))
           (λ _ w, (set_self (with_valid false) w, inr tt))
           (mkQuadruple ["x"] ["n"] [("x", "a")] [("n", "a")])
           (set_self (with_valid true) init_world)
           [RemovedEdge ("n", "a")] (RemovedNode "n")
           [AddedNode "x"; AddedEdge ("x", "a")] InconsistentUpdate);
    reflexivity.
Defined.

(** ** Decoration with the default attribute functions *)

Lemma Supernode_update_empty sn : Supernode_update ∅ sn = sn.
Proof. destruct sn. unfold Supernode_update. simpl. by rewrite (left_id_L ∅ (∪)). Qed.

Lemma Superedge_update_empty se : Superedge_update ∅ se = se.
Proof. destruct se. unfold Superedge_update. simpl. by rewrite (left_id_L ∅ (∪)). Qed.

Lemma ComponentSet_update_empty c : ComponentSet_update ∅ c = c.
Proof.
  destruct c. unfold ComponentSet_update. simpl. by rewrite (left_id_L ∅ (∪)).
Qed.

Lemma decorate_table_empty t : decorate_table (λ _, ∅) t = t.
Proof.
  unfold decorate_table. rewrite <-(list_fmap_id t) at 2.
  apply list_fmap_ext. intros _ [n sos] _. simpl. f_equal.
  rewrite <-(list_fmap_id sos) at 2. apply list_fmap_ext. intros _ c _.
  apply ComponentSet_update_empty.
Qed.

Lemma for_each_modify_id {X} (f : X → World → World) (l : list X) w :
  (∀ x u, f x u = u) →
  for_each l (λ x, modify (f x)) w = ([], w, inr tt).
Proof.
  intros Hf. induction l as [|x l IH]; [done|].
  simpl. unfold bind, modify at 1. by rewrite Hf, IH.
Qed.

(** With the attribute functions [__init__] falls back on, which return
    no attribute, [update_attr] on a scheme that holds a graph and a table
    changes nothing at all. *)
Theorem update_attr_default_functions w ga :
  dec_graph (self w) = Some ga →
  is_Some (graphs w !! ga) →
  is_Some (contraction_sets_table (self w)) →
  update_attr (λ _, ∅) (λ _, ∅) (λ _, ∅) w = ([], w, inr tt).
Proof.
  intros Hga [g Hg] [t Ht]. unfold update_attr, bind, get. simpl.
  rewrite Hga, Hg. unfold decorate_supernode, decorate_superedge.
  rewrite for_each_modify_id.
  - rewrite for_each_modify_id.
    + rewrite Ht. unfold modify. simpl. rewrite decorate_table_empty.
      destruct w as [s gr sns br]. destruct s. simpl in *. by subst.
    + intros k u. destruct u as [s gr sns br]. unfold set_graphs. simpl.
      f_equal. apply alter_id. intros g' _. destruct g' as [Vg Eg]. simpl.
      f_equal. apply alter_id. intros se _. apply Superedge_update_empty.
  - intros a u. destruct u as [s gr sns br]. unfold set_supernodes. simpl.
    f_equal. apply alter_id. intros sn _. apply Supernode_update_empty.
Qed.

(** ** What [contract] leaves alone *)

Global Instance decoration_frame_preorder L ga :
  PreOrder (decoration_frame L ga).
Proof.
  split.
  - intros w. by split_and!.
  - intros w1 w2 w3 (S1 & G1 & B1) (S2 & G2 & B2). split_and!.
    + intros a Ha. by rewrite S2, S1.
    + intros b Hb. by rewrite G2, G1.
    + congruence.
Qed.

Lemma preserves_for_each_elem {X} (R : World → World → Prop) `{!PreOrder R}
    (l : list X) (body : X → M unit) :
  (∀ x, x ∈ l → preserves R (body x)) → preserves R (for_each l body).
Proof.
  induction l as [|x l IH]; intros Hb; simpl.
  - apply (preserves_ret R).
  - apply (preserves_bind R).
    + apply Hb. by left.
    + intros _. apply IH. intros y Hy. apply Hb. by right.
Qed.

Section Frame.
Variable contraction_name : string.
Variable contraction_function :
  LowerGraph → Strategy (list (string * list ComponentSet)).
Variable _supernode_attr_function : Supernode → gmap string string.
Variable _superedge_attr_function : Superedge → gmap string string.
Variable _c_set_attr_function : gset string → gmap string string.

Local Abbreviation contract :=
  (contract contraction_name contraction_function _supernode_attr_function
     _superedge_attr_function _c_set_attr_function).
Local Abbreviation update_attr :=
  (update_attr _supernode_attr_function _superedge_attr_function
     _c_set_attr_function).

(** [update_attr] touches the supernodes of the scheme's graph and that
    graph object only. *)
Lemma update_attr_frame w ga g :
  dec_graph (self w) = Some ga →
  graphs w !! ga = Some g →
  decoration_frame (map_to_list (V g)).*2 ga w (world_of (update_attr w)).
Proof.
  intros Hga Hg. unfold_update_attr. unfold bind at 1, get. simpl.
  rewrite Hga, Hg.
  set (R := decoration_frame (map_to_list (V g)).*2 ga).
  assert (preserves R
    (for_each (map_to_list (V g)).*2
       (decorate_supernode _supernode_attr_function);;
     for_each (map_to_list (E g)).*1
       (decorate_superedge _superedge_attr_function ga);;
     match contraction_sets_table (self w) with
     | Some t =>
         modify (set_self (with_contraction_sets_table
                   (Some (decorate_table _c_set_attr_function t))))
     | None => raise AttributeError
     end)) as Hp.
  { apply (preserves_bind R).
    - apply (preserves_for_each_elem R). intros a Ha.
      apply (preserves_modify R). intros u. split_and!; simpl; try done.
      intros a' Ha'. apply lookup_alter_ne. intros ->. done.
    - intros _. apply (preserves_bind R).
      + apply (preserves_for_each R). intros k.
        apply (preserves_modify R). intros u. split_and!; simpl; try done.
        intros b Hb. by apply lookup_alter_ne.
      + intros _. destruct (contraction_sets_table (self w)).
        * apply (preserves_modify R). intros u. by split_and!.
        * apply (preserves_raise R). }
  specialize (Hp w). unfold world_of in *.
  destruct ((for_each (map_to_list (V g)).*2 _;; _) w) as [[t1 u1] r1].
  simpl in *. done.
Qed.

(** [contract] builds new objects and leaves alone the ones that exist: a
    graph returned by an earlier [contract] keeps its supernodes and
    superedges, with their members, edges and attributes, and only the
    nodes the new table lists have their back-reference reassigned. *)
Theorem contract_keeps_old_objects G w t :
  (strategy_result (contraction_function G)
     (_component_set_id_counter (self w))).2 = inr t →
  well_formed t G →
  let w' := world_of (contract G w) in
  (∀ b, b ∈ dom (graphs w) → graphs w' !! b = graphs w !! b)
  ∧ (∀ a, a ∈ dom (supernodes w) → supernodes w' !! a = supernodes w !! a)
  ∧ (∀ n, n ∉ t.*1 → node_supernode w' !! n = node_supernode w !! n).
Proof.
  intros Hres Hwf. rewrite contract_unfold. rewrite Hres. simpl.
  set (wa := set_self (with_contraction_sets_table (Some t))
               (set_self (with_component_set_id_counter
                  (strategy_result (contraction_function G)
                     (_component_set_id_counter (self w))).1) w)).
  destruct (make_dec_graph_built contraction_name t G wa Hwf)
    as (w1 & g1 & Hmk & Hself1 & Hg1 & Hold1 & Hfr1 & HB).
  simpl in Hmk, Hg1, Hold1, Hfr1, HB. rewrite Hmk.
  unfold outcome_of, world_of, events_of. simpl.
  set (cg := fresh (dom (graphs w))) in *.
  set (wb := set_self (with_dec_graph (Some cg)) w1).
  assert (graphs wb !! cg = Some g1) as Hg.
  { simpl. rewrite Hg1. apply lookup_insert_eq. }
  pose proof (update_attr_frame wb cg g1 eq_refl Hg) as Hf.
  destruct (update_attr_spec _supernode_attr_function
              _superedge_attr_function _c_set_attr_function wb cg g1 t)
    as (w2 & Hrun & _ & _); try done.
  { simpl. by rewrite Hself1. }
  rewrite Hrun in Hf. rewrite Hrun. destruct Hf as (HS & HG & HBr).
  unfold world_of in *. simpl in *. split_and!.
  - intros b Hb. rewrite HG.
    + rewrite Hg1. apply lookup_insert_ne. intros <-.
      by apply (is_fresh (dom (graphs w))).
    + intros ->. by apply (is_fresh (dom (graphs w))).
  - intros a Ha. rewrite HS; [by apply Hold1|].
    intros ([k a'] & -> & Hk%elem_of_map_to_list)%list_elem_of_fmap.
    simpl in Ha.
    destruct (bt_V _ _ _ _ _ _ _ _ _ HB _ _ Hk) as (s & sn & Hs & _).
    by destruct (bt_table_obj _ _ _ _ _ _ _ _ _ HB _ _ Hs) as [? _].
  - intros n Hn. rewrite HBr. by apply Hfr1.
Qed.
End Frame.

(** ** The order of rows and edges *)

Section SameElements.
Variable t1 t2 : list (string * list ComponentSet).
Variable edges1 edges2 : list (string * string).
Hypothesis Hrows : signature_rows t1 ≡ₚ signature_rows t2.
Hypothesis Hedges : edges1 ≡ₚ edges2.
Hypothesis Hnd : NoDup t1.*1.

Lemma perm_rows_NoDup : NoDup t2.*1.
Proof.
  rewrite <-signature_rows_fst. rewrite <-Hrows. by rewrite signature_rows_fst.
Qed.

Lemma perm_rows_fst n : n ∈ t1.*1 ↔ n ∈ t2.*1.
Proof. rewrite <-!signature_rows_fst. by rewrite Hrows. Qed.

Lemma perm_rows_sig_of n : sig_of t1 n = sig_of t2 n.
Proof.
  apply option_eq. intros s.
  rewrite !sig_of_Some by (done || apply perm_rows_NoDup).
  by rewrite <-!elem_of_signature_rows, Hrows.
Qed.

Lemma perm_rows_signatures : signatures t1 = signatures t2.
Proof.
  apply set_eq. intros s. rewrite !elem_of_signatures. split.
  - intros ([n sos] & Hin & Hs).
    assert ((n, s) ∈ signature_rows t2) as (sos' & ? & ?)%elem_of_signature_rows.
    { rewrite <-Hrows. apply elem_of_signature_rows. by exists sos. }
    by exists (n, sos').
  - intros ([n sos] & Hin & Hs).
    assert ((n, s) ∈ signature_rows t1) as (sos' & ? & ?)%elem_of_signature_rows.
    { rewrite Hrows. apply elem_of_signature_rows. by exists sos. }
    by exists (n, sos').
Qed.

Lemma perm_rows_members_of s : members_of t1 s = members_of t2 s.
Proof.
  apply set_eq. intros n. rewrite !elem_of_members_of.
  by rewrite <-!elem_of_signature_rows, Hrows.
Qed.

Lemma perm_rows_edges_between s1 s2 :
  edges_between t1 edges1 s1 s2 = edges_between t2 edges2 s1 s2.
Proof.
  apply set_eq. intros e. rewrite !elem_of_edges_between.
  by rewrite !perm_rows_sig_of, Hedges.
Qed.

Lemma perm_rows_prescribed_structure :
  prescribed_structure t1 edges1 = prescribed_structure t2 edges2.
Proof.
  unfold prescribed_structure. f_equal.
  - rewrite perm_rows_signatures. f_equal. apply list_fmap_ext.
    intros _ s _. by rewrite perm_rows_members_of, perm_rows_edges_between.
  - apply set_eq. intros x. rewrite !elem_of_list_to_set, !list_elem_of_omap.
    assert (∀ e, prescribed_superedge t1 edges1 e
                 = prescribed_superedge t2 edges2 e) as Hf.
    { intros e. unfold prescribed_superedge. rewrite !perm_rows_sig_of.
      destruct (sig_of t2 e.1) as [s1|]; [|done]. simpl.
      destruct (sig_of t2 e.2) as [s2|]; [|done]. simpl.
      by rewrite perm_rows_edges_between. }
    split; intros (e & He & Hx); exists e; split.
    + by rewrite <-Hedges.
    + by rewrite <-Hf.
    + by rewrite Hedges.
    + by rewrite Hf.
  - by rewrite Hrows.
Qed.

Lemma perm_rows_well_formed G1 G2 :
  lg_edges G1 = edges1 → lg_edges G2 = edges2 →
  well_formed t1 G1 → well_formed t2 G2.
Proof.
  intros E1 E2 (_ & Hnde & Hcov). split_and!.
  - apply perm_rows_NoDup.
  - rewrite E2, <-Hedges, <-E1. done.
  - rewrite E2, <-Hedges, <-E1. eapply Forall_impl; [exact Hcov|].
    intros e. simpl. by rewrite !perm_rows_fst.
Qed.
End SameElements.

Section Order.
Variable contraction_name : string.
Variable contraction_function :
  LowerGraph → Strategy (list (string * list ComponentSet)).
Variable _supernode_attr_function : Supernode → gmap string string.
Variable _superedge_attr_function : Superedge → gmap string string.
Variable _c_set_attr_function : gset string → gmap string string.

Local Abbreviation contract :=
  (contract contraction_name contraction_function _supernode_attr_function
     _superedge_attr_function _c_set_attr_function).

(** The contraction does not depend on the order in which the table yields
    its rows, a row its component sets, or the graph its edges, nor on the
    identifiers of the component sets: two runs of [contract] whose tables
    give the same nodes the same signatures, on graphs with the same edges,
    build graphs of the same structure, from whatever states they start. *)
Theorem contract_order_independent G1 G2 w1 w2 t1 t2 :
  (strategy_result (contraction_function G1)
     (_component_set_id_counter (self w1))).2 = inr t1 →
  (strategy_result (contraction_function G2)
     (_component_set_id_counter (self w2))).2 = inr t2 →
  well_formed t1 G1 →
  signature_rows t1 ≡ₚ signature_rows t2 →
  lg_edges G1 ≡ₚ lg_edges G2 →
  (∃ cg1, outcome_of (contract G1 w1) = inr (Some cg1))
  ∧ (∃ cg2, outcome_of (contract G2 w2) = inr (Some cg2))
  ∧ is_Some (structure (world_of (contract G1 w1)))
  ∧ structure (world_of (contract G1 w1))
    = structure (world_of (contract G2 w2)).
Proof.
  intros Hres1 Hres2 Hwf1 Hrows Hedges.
  destruct (contract_structure contraction_name contraction_function
              _supernode_attr_function _superedge_attr_function
              _c_set_attr_function G1 w1 t1 Hres1 Hwf1) as [Hok1 Hst1].
  assert (Hwf2 : well_formed t2 G2).
  { eapply perm_rows_well_formed; try done. by destruct Hwf1. }
  destruct (contract_structure contraction_name contraction_function
              _supernode_attr_function _superedge_attr_function
              _c_set_attr_function G2 w2 t2 Hres2 Hwf2) as [Hok2 Hst2].
  split_and!; [done|done|rewrite Hst1; by eexists|].
  rewrite Hst1, Hst2. f_equal.
  apply perm_rows_prescribed_structure; try done. by destruct Hwf1.
Qed.

(** Contracting a graph for which the strategy lists no node (and which has
    no edge): [contract] returns a new, empty graph object, the signature
    table is empty, no supernode identifier is drawn, and the scheme is
    valid. *)
Theorem contract_of_empty_graph G w :
  let r := contract G w in
  let w' := world_of r in
  (strategy_result (contraction_function G)
     (_component_set_id_counter (self w))).2 = inr [] →
  lg_edges G = [] →
  ∃ cg,
    outcome_of r = inr (Some cg)
    ∧ graphs w !! cg = None
    ∧ graphs w' !! cg = Some (mkDecGraph ∅ ∅)
    ∧ dec_graph (self w') = Some cg
    ∧ supernode_table (self w') = ∅
    ∧ contraction_sets_table (self w') = Some []
    ∧ supernode_ids (events_of r) = []
    ∧ _supernode_id_counter (self w') = _supernode_id_counter (self w)
    ∧ _valid (self w') = true.
Proof.
  intros r w' Hres Hedges.
  assert (Hwf : well_formed [] G).
  { split_and!; [constructor|rewrite Hedges; constructor|].
    rewrite Hedges. constructor. }
  destruct (contract_built contraction_name contraction_function
              _supernode_attr_function _superedge_attr_function
              _c_set_attr_function G w [] Hres Hwf)
    as (w1 & g & Hrun & Hself & _ & _ & _ & HB).
  cbv zeta in Hrun, Hself, HB.
  assert (Hsz : size (signatures []) = 0) by done.
  rewrite Hsz in Hrun, Hself. clear Hsz.
  assert (Htbl : supernode_table (self w1) = ∅).
  { apply map_empty. intros s. apply eq_None_not_Some.
    rewrite (bt_table_dom _ _ _ _ _ _ _ _ _ HB). set_solver. }
  assert (HV : V g = ∅).
  { apply map_empty. intros k. destruct (V g !! k) as [a|] eqn:Hk; [|done].
    destruct (bt_V _ _ _ _ _ _ _ _ _ HB _ _ Hk) as (s & sn & Hs & _).
    rewrite Htbl in Hs. by rewrite lookup_empty in Hs. }
  assert (HE : E g = ∅).
  { apply map_empty. intros k. destruct (E g !! k) as [se|] eqn:Hk; [|done].
    destruct (bt_E _ _ _ _ _ _ _ _ _ HB _ _ Hk) as (s & ? & ? & ? & Hs & _).
    rewrite Htbl in Hs. by rewrite lookup_empty in Hs. }
  exists (fresh (dom (graphs w))). subst r w'. rewrite Hrun.
  unfold outcome_of, world_of, events_of. simpl. rewrite Hself. simpl.
  split_and!; try done.
  - apply not_elem_of_dom, is_fresh.
  - rewrite (bt_graph _ _ _ _ _ _ _ _ _ HB). destruct g as [Vg Eg].
    simpl in HV, HE. by subst.
  - rewrite app_nil_r. apply supernode_ids_component_set_events.
  - lia.
Qed.
End Order.

(** ** The validity flag and tables that miss a node *)

(** An edge with an endpoint that has no back-reference cannot be
    placed. *)
Lemma place_edge_no_backref cg e w :
  node_supernode w !! e.1 = None ∨ node_supernode w !! e.2 = None →
  place_edge cg e w = ([], w, inl AttributeError).
Proof.
  intros Hn. unfold place_edge. unfold bind, get. simpl.
  destruct Hn as [Hn|Hn]; rewrite Hn; simpl; [done|].
  by repeat case_match.
Qed.

Section Lifecycle.
Variable contraction_name : string.
Variable contraction_function :
  LowerGraph → Strategy (list (string * list ComponentSet)).
Variable _supernode_attr_function : Supernode → gmap string string.
Variable _superedge_attr_function : Superedge → gmap string string.
Variable _c_set_attr_function : gset string → gmap string string.

Local Abbreviation contract :=
  (contract contraction_name contraction_function _supernode_attr_function
     _superedge_attr_function _c_set_attr_function).
Local Abbreviation run_call :=
  (run_call contraction_name contraction_function _supernode_attr_function
     _superedge_attr_function _c_set_attr_function).

(** The validity flag after a call: [True] after a [contract] that
    returned, [False] after [invalidate], and otherwise what it was before;
    in particular a [contract] that raises, in the strategy or while
    building the graph, does not invalidate the scheme. *)
Theorem validity_after_call c w :
  outcome_of (is_valid (run_call c w).2)
  = inr match c with
        | CallContract G =>
            match outcome_of (contract G w) with
            | inr _ => true
            | inl _ => _valid (self w)
            end
        | CallInvalidate => false
        | _ => _valid (self w)
        end.
Proof.
  unfold is_valid, outcome_of, bind, get, ret. simpl. f_equal.
  destruct c as [G| | | |]; simpl; try done.
  unfold world_of. rewrite contract_unfold.
  set (c := _component_set_id_counter (self w)).
  destruct (strategy_result (contraction_function G) c).2 as [e|t]; [done|].
  simpl.
  set (wa := set_self (with_contraction_sets_table (Some t))
               (set_self (with_component_set_id_counter
                  (strategy_result (contraction_function G) c).1) w)).
  pose proof (build_frame_make_dec_graph contraction_name t G wa) as Hfr.
  set (w1 := world_of (_make_dec_graph contraction_name t G wa)) in *.
  destruct (outcome_of (_make_dec_graph contraction_name t G wa))
    as [e1|cg] eqn:Hout; simpl.
  - by rewrite (bf_valid _ _ Hfr).
  - set (wb := set_self (with_dec_graph (Some cg)) w1).
    destruct (update_attr_run _supernode_attr_function
                _superedge_attr_function _c_set_attr_function wb)
      as (w2 & Hrun & Heq).
    rewrite Hrun. unfold outcome_of, world_of. simpl.
    destruct Heq as [Hs _ _ _]. apply (f_equal _valid) in Hs. simpl in Hs.
    repeat case_match; simpl; try done; by rewrite Hs, (bf_valid _ _ Hfr).
Qed.

(** When the table the strategy returns does not list an endpoint of an
    edge, and that endpoint has no back-reference from an earlier
    contraction either, [contract] raises [AttributeError] on reaching that
    edge: the rows and the edges before it have been placed, the scheme
    keeps its former graph reference and validity flag, and the new table
    is already assigned. *)
Theorem contract_unlisted_endpoint G w t done e rest :
  let r := contract G w in
  let w' := world_of r in
  (strategy_result (contraction_function G)
     (_component_set_id_counter (self w))).2 = inr t →
  lg_edges G = done ++ e :: rest →
  well_formed t (mkLowerGraph (lg_nodes G) done) →
  ((e.1 ∉ t.*1) ∧ node_supernode w !! e.1 = None)
  ∨ ((e.2 ∉ t.*1) ∧ node_supernode w !! e.2 = None) →
  outcome_of r = inl AttributeError
  ∧ supernode_ids (events_of r)
    = seqZ (_supernode_id_counter (self w) + 1)
        (Z.of_nat (size (signatures t)))
  ∧ dec_graph (self w') = dec_graph (self w)
  ∧ _valid (self w') = _valid (self w)
  ∧ contraction_sets_table (self w') = Some t.
Proof.
  intros r w' Hres Hedges Hwf Hmiss. subst r w'.
  rewrite contract_unfold. rewrite Hres. simpl.
  set (c' := (strategy_result (contraction_function G)
                (_component_set_id_counter (self w))).1).
  set (wa := set_self (with_contraction_sets_table (Some t))
               (set_self (with_component_set_id_counter c') w)).
  destruct (make_dec_graph_built contraction_name t
              (mkLowerGraph (lg_nodes G) done) wa Hwf)
    as (w1 & g1 & Hmk & Hself1 & _ & _ & Hfr1 & _).
  cbv zeta in Hmk, Hself1. simpl in Hfr1.
  rewrite make_dec_graph_unfold in Hmk. cbv zeta in Hmk. simpl in Hmk.
  set (cg := fresh (dom (graphs w))) in *.
  set (w0 := set_graphs <[cg := mkDecGraph ∅ ∅]>
               (set_self (with_supernode_table ∅) wa)) in *.
  assert (Hrun : _make_dec_graph contraction_name t G wa
          = (EvSupernodeId <$>
               seqZ (_supernode_id_counter (self w) + 1)
                 (Z.of_nat (size (signatures t))),
             w1, inl AttributeError)).
  { rewrite make_dec_graph_unfold. cbv zeta. simpl. fold cg. fold w0.
    rewrite Hedges. unfold bind in *.
    destruct (for_each t (place_node contraction_name cg) w0)
      as [[ev1 u1] [e1|[]]]; [done|].
    rewrite for_each_app. unfold bind.
    destruct (for_each done (place_edge cg) u1) as [[ev2 u2] [e2|[]]];
      unfold events_of, world_of, outcome_of in *; simpl in *; [done|].
    injection Hmk as Hev ->. simpl. unfold bind.
    rewrite place_edge_no_backref.
    - simpl. by rewrite app_nil_r, Hev.
    - destruct Hmiss as [[H1 H2]|[H1 H2]]; [left|right];
        by rewrite (Hfr1 _ H1). }
  rewrite Hrun. unfold outcome_of, world_of, events_of. simpl.
  rewrite Hself1. simpl. split_and!; try done.
  unfold supernode_ids. rewrite omap_app.
  change (omap _ (EvComponentSetId <$> ?l))
    with (supernode_ids (EvComponentSetId <$> l)).
  change (omap _ (EvSupernodeId <$> ?l))
    with (supernode_ids (EvSupernodeId <$> l)).
  by rewrite supernode_ids_component_set_events,
    supernode_ids_supernode_events.
Qed.
End Lifecycle.

(** ** Rebuilding *)

Section Rebuilding.
Variable contraction_name : string.
Variable contraction_function :
  LowerGraph → Strategy (list (string * list ComponentSet)).
Variable _supernode_attr_function : Supernode → gmap string string.
Variable _superedge_attr_function : Superedge → gmap string string.
Variable _c_set_attr_function : gset string → gmap string string.

Local Abbreviation contract :=
  (contract contraction_name contraction_function _supernode_attr_function
     _superedge_attr_function _c_set_attr_function).

(** The keys of the supernodes [contract] builds, with the identifiers
    they were made from. *)
Lemma contract_keys G w t :
  (strategy_result (contraction_function G)
     (_component_set_id_counter (self w))).2 = inr t →
  well_formed t G →
  let w' := world_of (contract G w) in
  let cg := fresh (dom (graphs w)) in
  ∃ g,
    outcome_of (contract G w) = inr (Some cg)
    ∧ graphs w' !! cg = Some g
    ∧ level (self w') = level (self w)
    ∧ _supernode_id_counter (self w')
      = (_supernode_id_counter (self w) + Z.of_nat (size (signatures t)))%Z
    ∧ ∀ k, is_Some (V g !! k) →
        ∃ id, k = supernode_key (level (self w)) contraction_name id
              ∧ (_supernode_id_counter (self w) < id
                 ≤ _supernode_id_counter (self w'))%Z.
Proof.
  intros Hres Hwf.
  destruct (contract_built contraction_name contraction_function
              _supernode_attr_function _superedge_attr_function
              _c_set_attr_function G w t Hres Hwf)
    as (w1 & g & Hrun & Hself & _ & _ & _ & HB).
  cbv zeta in Hrun, Hself, HB. cbv zeta. rewrite Hrun.
  unfold outcome_of, world_of. simpl. rewrite Hself. simpl.
  exists g. split_and!; try done.
  - apply (bt_graph _ _ _ _ _ _ _ _ _ HB).
  - intros k [a Hk].
    destruct (bt_V _ _ _ _ _ _ _ _ _ HB _ _ Hk) as (s & sn & Hs & Hsn & <-).
    destruct (bt_table_obj _ _ _ _ _ _ _ _ _ HB _ _ Hs)
      as (_ & sn' & id & Hsn' & _ & _ & Hid & Hkey & _).
    assert (sn' = sn) as -> by congruence. by exists id.
Qed.

(** Rebuilding never reuses a key: when [contract] runs twice on a scheme,
    on whatever graphs, it returns two distinct graph objects, and no
    supernode of the second has the key of a supernode of the first. *)
Theorem rebuild_gives_new_keys G1 G2 w t1 t2 :
  let w1 := world_of (contract G1 w) in
  let w2 := world_of (contract G2 w1) in
  (strategy_result (contraction_function G1)
     (_component_set_id_counter (self w))).2 = inr t1 →
  well_formed t1 G1 →
  (strategy_result (contraction_function G2)
     (_component_set_id_counter (self w1))).2 = inr t2 →
  well_formed t2 G2 →
  ∃ cg1 cg2 g1 g2,
    outcome_of (contract G1 w) = inr (Some cg1)
    ∧ outcome_of (contract G2 w1) = inr (Some cg2)
    ∧ cg1 ≠ cg2
    ∧ graphs w1 !! cg1 = Some g1
    ∧ graphs w2 !! cg2 = Some g2
    ∧ ∀ k, is_Some (V g1 !! k) → V g2 !! k = None.
Proof.
  intros w1 w2 Hres1 Hwf1 Hres2 Hwf2.
  destruct (contract_keys G1 w t1 Hres1 Hwf1)
    as (g1 & Hok1 & Hg1 & Hlvl1 & Hctr1 & Hk1).
  destruct (contract_keys G2 w1 t2 Hres2 Hwf2)
    as (g2 & Hok2 & Hg2 & Hlvl2 & Hctr2 & Hk2).
  fold w1 in Hg1, Hlvl1, Hctr1, Hk1. fold w2 in Hg2, Hlvl2, Hctr2, Hk2.
  exists (fresh (dom (graphs w))), (fresh (dom (graphs w1))), g1, g2.
  split_and!; try done.
  - intros Heq. apply (is_fresh (dom (graphs w1))). rewrite <-Heq.
    apply elem_of_dom. by rewrite Hg1.
  - intros k Hin1. destruct (V g2 !! k) as [a|] eqn:Hin2; [|done].
    destruct (Hk1 k Hin1) as (id1 & -> & ?).
    destruct (Hk2 _ (mk_is_Some _ _ Hin2)) as (id2 & Hkey & ?).
    rewrite Hlvl1 in Hkey. apply supernode_key_inj in Hkey. lia.
Qed.
End Rebuilding.

(** ** The attributes [contract] assigns *)

Global Instance attrs_kept_preorder : PreOrder attrs_kept.
Proof.
  split.
  - intros w. split.
    + intros a sn ?. right. by exists sn.
    + intros b g k se ??. right. by exists g, se.
  - intros w1 w2 w3 [S1 G1] [S2 G2]. split.
    + intros a sn3 H3. destruct (S2 _ _ H3) as [?|(sn2 & H2 & E2)]; [by left|].
      destruct (S1 _ _ H2) as [?|(sn1 & H1 & E1)]; [left|right].
      * congruence.
      * exists sn1. split; [done|congruence].
    + intros b g3 k se3 Hb3 Hk3.
      destruct (G2 _ _ _ _ Hb3 Hk3) as [?|(g2 & se2 & Hb2 & Hk2 & E2)];
        [by left|].
      destruct (G1 _ _ _ _ Hb2 Hk2) as [?|(g1 & se1 & Hb1 & Hk1 & E1)];
        [left|right].
      * congruence.
      * exists g1, se1. split_and!; [done|done|congruence].
Qed.

(** Changes of the scheme's own attributes and of the back-references. *)
Lemma attrs_kept_stores w w' :
  supernodes w' = supernodes w → graphs w' = graphs w → attrs_kept w w'.
Proof.
  intros Hs Hg. unfold attrs_kept. rewrite Hs, Hg. split.
  - intros a sn ?. right. by exists sn.
  - intros b g k se ??. right. by exists g, se.
Qed.

(** A supernode object is replaced by one with the same attributes. *)
Lemma attrs_kept_set_supernode w a sn sn' :
  supernodes w !! a = Some sn → sn_attr sn' = sn_attr sn →
  attrs_kept w (set_supernodes <[a := sn']> w).
Proof.
  intros Ha Hattr. split; simpl.
  - intros b sn1. destruct (decide (a = b)) as [<-|].
    + rewrite lookup_insert_eq. intros [= <-]. right. by exists sn.
    + rewrite lookup_insert_ne by done. intros ?. right. by exists sn1.
  - intros b g k se ??. right. by exists g, se.
Qed.

(** A graph object is replaced by one whose superedges have the attributes
    they had, or none when they are new. *)
Lemma attrs_kept_set_graph w b g g' :
  graphs w !! b = Some g →
  (∀ k se', E g' !! k = Some se' →
     se_attr se' = ∅ ∨ ∃ se, E g !! k = Some se ∧ se_attr se' = se_attr se) →
  attrs_kept w (set_graphs <[b := g']> w).
Proof.
  intros Hb HE. split; simpl.
  - intros a sn ?. right. by exists sn.
  - intros b1 g1 k se1. destruct (decide (b = b1)) as [<-|].
    + rewrite lookup_insert_eq. intros [= <-] Hk.
      destruct (HE _ _ Hk) as [?|(se & ? & ?)]; [by left|right].
      by exists g, se.
    + rewrite lookup_insert_ne by done. intros ??. right. by exists g1, se1.
Qed.

Ltac attrs_kept_auto :=
  repeat preserves_step ltac:(by apply attrs_kept_stores).

Lemma attrs_kept_new_DecGraph : preserves attrs_kept new_DecGraph.
Proof.
  intros w. unfold world_of. simpl. split; simpl.
  - intros a sn ?. right. by exists sn.
  - intros b g k se. destruct (decide (fresh (dom (graphs w)) = b)) as [<-|].
    + rewrite lookup_insert_eq. intros [= <-]. simpl.
      by rewrite lookup_empty.
    + rewrite lookup_insert_ne by done. intros ??. right. by exists g, se.
Qed.

Lemma attrs_kept_new_Supernode key lvl sos :
  preserves attrs_kept (new_Supernode key lvl sos).
Proof.
  intros w. unfold world_of. simpl. split; simpl.
  - intros a sn. destruct (decide (fresh (dom (supernodes w)) = a)) as [<-|].
    + rewrite lookup_insert_eq. intros [= <-]. by left.
    + rewrite lookup_insert_ne by done. intros ?. right. by exists sn.
  - intros b g k se ??. right. by exists g, se.
Qed.

Lemma attrs_kept_get_supernode_id : preserves attrs_kept _get_supernode_id.
Proof. unfold _get_supernode_id. attrs_kept_auto. Qed.

Lemma attrs_kept_DecGraph_add_node g a :
  preserves attrs_kept (DecGraph_add_node g a).
Proof.
  intros w. unfold DecGraph_add_node, bind, get, world_of. simpl.
  destruct (graphs w !! g) as [gr|] eqn:Hg; [|done].
  destruct (supernodes w !! a) as [sn|]; [|done].
  case_decide; [done|]. simpl.
  apply (attrs_kept_set_graph _ _ gr); [done|]. simpl.
  intros k se ?. right. by exists se.
Qed.

Lemma attrs_kept_Supernode_add_node a n :
  preserves attrs_kept (Supernode_add_node a n).
Proof.
  intros w. unfold Supernode_add_node, bind, get, world_of. simpl.
  destruct (supernodes w !! a) as [sn|] eqn:Ha; [|done].
  case_decide; [done|]. simpl.
  etrans.
  - by apply (attrs_kept_set_supernode w a sn
                (with_sn_dec (InnerGraph_add_node n (sn_dec sn)) sn)).
  - by apply attrs_kept_stores.
Qed.

Lemma attrs_kept_Supernode_add_edge a e :
  preserves attrs_kept (Supernode_add_edge a e).
Proof.
  intros w. unfold Supernode_add_edge, bind, get, world_of. simpl.
  destruct (supernodes w !! a) as [sn|] eqn:Ha; [|done].
  case_decide; [|done]. case_decide; [done|]. simpl.
  by apply (attrs_kept_set_supernode _ a sn).
Qed.

Lemma attrs_kept_place_node name cg row :
  preserves attrs_kept (place_node name cg row).
Proof.
  unfold place_node. preserves_bind; [preserves_leaf|]. intros w.
  preserves_bind.
  - case_match; [preserves_leaf|].
    preserves_bind; [apply attrs_kept_get_supernode_id|]. intros id.
    preserves_bind; [apply attrs_kept_new_Supernode|]. intros a.
    preserves_bind; [attrs_kept_auto|]. intros _.
    preserves_bind; [apply attrs_kept_DecGraph_add_node|]. intros _.
    preserves_leaf.
  - intros a. preserves_bind; [apply attrs_kept_Supernode_add_node|].
    intros _. attrs_kept_auto.
Qed.

Lemma attrs_kept_place_edge cg e : preserves attrs_kept (place_edge cg e).
Proof.
  intros w. unfold place_edge, bind, get. simpl.
  destruct (node_supernode w !! e.1 ≫= _) as [sn1|]; [|done].
  destruct (node_supernode w !! e.2 ≫= _) as [sn2|]; [|done].
  destruct (node_supernode w !! e.1) as [a1|]; [|done].
  destruct (node_supernode w !! e.2) as [a2|]; [|done].
  case_decide.
  2:{ pose proof (attrs_kept_Supernode_add_edge a1 e w) as Hp.
      unfold world_of in *.
      by destruct (Supernode_add_edge a1 e w) as [[??]?]. }
  destruct (graphs w !! cg) as [g|] eqn:Hg; [|done].
  unfold world_of. simpl.
  apply (attrs_kept_set_graph _ _ g); [done|]. simpl. intros k se.
  destruct (decide ((sn_key sn1, sn_key sn2) = k)) as [<-|].
  - rewrite lookup_insert_eq. intros [= <-]. simpl.
    destruct (E g !! (sn_key sn1, sn_key sn2)) as [se0|]; simpl.
    + right. by exists se0.
    + by left.
  - rewrite lookup_insert_ne by done. intros ?. right. by exists se.
Qed.

Lemma attrs_kept_make_dec_graph name t G :
  preserves attrs_kept (_make_dec_graph name t G).
Proof.
  unfold _make_dec_graph.
  preserves_bind; [attrs_kept_auto|]. intros _.
  preserves_bind; [apply attrs_kept_new_DecGraph|]. intros cg.
  preserves_bind.
  { preserves_for_each. intros. apply attrs_kept_place_node. }
  intros _. preserves_bind.
  { preserves_for_each. intros. apply attrs_kept_place_edge. }
  intros _. preserves_leaf.
Qed.

(** ** Decorating every object once *)

Lemma for_each_modify {X} (h : X → World → World) (l : list X) w :
  for_each l (λ x, modify (h x)) w = ([], foldl (λ u x, h x u) w l, inr tt).
Proof.
  revert w. induction l as [|x l IH]; intros w; [done|].
  simpl. unfold bind, modify at 1. by rewrite IH.
Qed.

Lemma foldl_alter_lookup `{Countable K} {A} (f : A → A) (l : list K)
    (m : gmap K A) (i : K) :
  NoDup l →
  foldl (λ m i, alter f i m) m l !! i
  = if decide (i ∈ l) then f <$> m !! i else m !! i.
Proof.
  revert m. induction l as [|j l IH]; intros m Hnd; [done|].
  apply NoDup_cons in Hnd as [Hj Hnd]. simpl. rewrite IH by done.
  destruct (decide (i ∈ l)) as [Hil|Hil];
    destruct (decide (i ∈ j :: l)) as [Hijl|Hijl].
  - rewrite lookup_alter_ne; [done|]. by intros ->.
  - exfalso. apply Hijl. by right.
  - apply elem_of_cons in Hijl as [->|?]; [|done]. by rewrite lookup_alter_eq.
  - rewrite lookup_alter_ne; [done|]. intros ->. apply Hijl. by left.
Qed.

Lemma foldl_set_supernodes (f : Supernode → Supernode) (l : list positive) w :
  foldl (λ u a, set_supernodes (alter f a) u) w l
  = set_supernodes (λ m, foldl (λ m a, alter f a m) m l) w.
Proof.
  revert w. induction l as [|a l IH]; intros w; simpl.
  - by destruct w.
  - by rewrite IH.
Qed.

Lemma foldl_set_graph_edges (f : Superedge → Superedge)
    (l : list (string * string)) (ga : positive) w g :
  graphs w !! ga = Some g →
  foldl (λ u k, set_graphs (alter (λ g,
           mkDecGraph (V g) (alter f k (E g))) ga) u) w l
  = set_graphs
      <[ga := mkDecGraph (V g) (foldl (λ m k, alter f k m) (E g) l)]> w.
Proof.
  revert w g. induction l as [|k l IH]; intros w g Hg; simpl.
  - destruct w as [s gr sns br]. unfold set_graphs. simpl in *. f_equal.
    symmetry. apply insert_id. by destruct g.
  - rewrite (IH _ (mkDecGraph (V g) (alter f k (E g)))).
    + destruct w as [s gr sns br]. unfold set_graphs. simpl in *. f_equal.
      apply map_eq. intros b. destruct (decide (ga = b)) as [<-|].
      * by rewrite !lookup_insert_eq.
      * rewrite !lookup_insert_ne by done. by rewrite lookup_alter_ne.
    + simpl. by rewrite lookup_alter_eq, Hg.
Qed.

Section Attributes.
Variable contraction_name : string.
Variable contraction_function :
  LowerGraph → Strategy (list (string * list ComponentSet)).
Variable _supernode_attr_function : Supernode → gmap string string.
Variable _superedge_attr_function : Superedge → gmap string string.
Variable _c_set_attr_function : gset string → gmap string string.

Local Abbreviation contract :=
  (contract contraction_name contraction_function _supernode_attr_function
     _superedge_attr_function _c_set_attr_function).
Local Abbreviation update_attr :=
  (update_attr _supernode_attr_function _superedge_attr_function
     _c_set_attr_function).

(** The objects [update_attr] leaves: every supernode of the scheme's graph
    and every superedge is updated once, with the attributes its function
    computes from the object as it was. *)
Lemma update_attr_exact w ga g t :
  dec_graph (self w) = Some ga →
  graphs w !! ga = Some g →
  contraction_sets_table (self w) = Some t →
  NoDup (map_to_list (V g)).*2 →
  let w' := world_of (update_attr w) in
  (∀ k a, V g !! k = Some a →
     supernodes w' !! a
     = (λ sn, Supernode_update (_supernode_attr_function sn) sn)
         <$> supernodes w !! a)
  ∧ ∃ g', graphs w' !! ga = Some g' ∧ V g' = V g
      ∧ ∀ k, E g' !! k
          = (λ se, Superedge_update (_superedge_attr_function se) se)
              <$> E g !! k.
Proof.
  intros Hga Hg Ht Hnd w'.
  assert (w' = set_self (with_contraction_sets_table
                  (Some (decorate_table _c_set_attr_function t)))
           (set_graphs
              <[ga := mkDecGraph (V g)
                  (foldl (λ m k, alter (λ se,
                     Superedge_update (_superedge_attr_function se) se) k m)
                     (E g) (map_to_list (E g)).*1)]>
              (set_supernodes (λ m,
                 foldl (λ m a, alter (λ sn,
                   Supernode_update (_supernode_attr_function sn) sn) a m)
                   m (map_to_list (V g)).*2) w))) as ->.
  { subst w'. unfold_update_attr. unfold bind at 1, get. simpl.
    rewrite Hga, Hg, Ht. unfold bind, decorate_supernode, decorate_superedge.
    rewrite for_each_modify. rewrite for_each_modify.
    unfold modify, world_of. simpl. rewrite foldl_set_supernodes.
    by rewrite (foldl_set_graph_edges _ _ _ _ g). }
  simpl. split.
  - intros k a Hk. rewrite foldl_alter_lookup by done.
    rewrite decide_True; [done|]. apply list_elem_of_fmap.
    exists (k, a). split; [done|]. by apply elem_of_map_to_list.
  - eexists. split; [apply lookup_insert_eq|]. simpl. split; [done|].
    intros k. rewrite foldl_alter_lookup by apply NoDup_fst_map_to_list.
    case_decide as Hk; [done|].
    destruct (E g !! k) as [se|] eqn:Hse; [|done].
    exfalso. apply Hk. apply list_elem_of_fmap. exists (k, se).
    split; [done|]. by apply elem_of_map_to_list.
Qed.

(** The attributes of a contracted graph: after [contract], the attributes
    of every supernode of the new graph are what the supernode attribute
    function returns for that supernode without attributes, and the
    attributes of every superedge are what the superedge attribute function
    returns for that superedge without attributes. *)
Theorem contract_attributes G w t :
  (strategy_result (contraction_function G)
     (_component_set_id_counter (self w))).2 = inr t →
  well_formed t G →
  let w' := world_of (contract G w) in
  ∃ cg g,
    outcome_of (contract G w) = inr (Some cg)
    ∧ graphs w' !! cg = Some g
    ∧ (∀ k a, V g !! k = Some a →
         ∃ sn, supernodes w' !! a = Some sn
           ∧ sn_attr sn
             = _supernode_attr_function
                 (mkSupernode (sn_key sn) (sn_level sn) (sn_set_of_sets sn)
                    (sn_dec sn) ∅))
    ∧ (∀ k se, E g !! k = Some se →
         se_attr se
         = _superedge_attr_function
             (mkSuperedge (se_tail se) (se_head se) (se_level se)
                (se_dec se) ∅)).
Proof.
  intros Hres Hwf. rewrite contract_unfold. rewrite Hres. simpl.
  set (wa := set_self (with_contraction_sets_table (Some t))
               (set_self (with_component_set_id_counter
                  (strategy_result (contraction_function G)
                     (_component_set_id_counter (self w))).1) w)).
  pose proof (attrs_kept_make_dec_graph contraction_name t G wa) as Hkept.
  destruct (make_dec_graph_built contraction_name t G wa Hwf)
    as (w1 & g1 & Hmk & Hself1 & Hg1 & Hold1 & Hfr1 & HB).
  simpl in Hmk, Hg1, Hold1, Hfr1, HB. rewrite Hmk in Hkept. rewrite Hmk.
  unfold outcome_of, world_of, events_of in *. simpl in *.
  set (cg := fresh (dom (graphs w))) in *.
  set (wb := set_self (with_dec_graph (Some cg)) w1).
  assert (graphs wb !! cg = Some g1) as Hg.
  { simpl. rewrite Hg1. apply lookup_insert_eq. }
  assert (contraction_sets_table (self wb) = Some t) as Ht.
  { simpl. by rewrite Hself1. }
  assert (NoDup (map_to_list (V g1)).*2) as Hnd.
  { apply NoDup_fmap_2_strong; [|apply NoDup_map_to_list].
    intros [k1 a1] [k2 a2] H1%elem_of_map_to_list H2%elem_of_map_to_list.
    simpl. intros <-.
    destruct (bt_V _ _ _ _ _ _ _ _ _ HB _ _ H1) as (_ & sn1 & _ & Hs1 & <-).
    destruct (bt_V _ _ _ _ _ _ _ _ _ HB _ _ H2) as (_ & sn2 & _ & Hs2 & <-).
    congruence. }
  destruct (update_attr_exact wb cg g1 t eq_refl Hg Ht Hnd)
    as (HS & g' & Hg' & HV & HE).
  destruct (update_attr_spec _supernode_attr_function
              _superedge_attr_function _c_set_attr_function wb cg g1 t)
    as (w2 & Hrun & [Hs2 _ _ _] & _); try done.
  apply (f_equal dec_graph) in Hs2. simpl in Hs2.
  rewrite Hrun in HS, Hg'. rewrite Hrun. unfold world_of in *. simpl in *.
  destruct Hkept as [KS KG].
  exists cg, g'. split_and!; [by rewrite Hs2|done| |].
  - intros k a Hk. rewrite HV in Hk. rewrite (HS _ _ Hk).
    destruct (bt_V _ _ _ _ _ _ _ _ _ HB _ _ Hk) as (s & sn & Hs & Hsn & _).
    rewrite Hsn. simpl. eexists. split; [done|]. simpl.
    destruct (bt_table_obj _ _ _ _ _ _ _ _ _ HB _ _ Hs) as [Hnew _].
    destruct (KS _ _ Hsn) as [He|(sn0 & Hsn0 & _)].
    + rewrite He, (right_id_L ∅ (∪)). by destruct sn; simpl in *; subst.
    + exfalso. apply Hnew. apply elem_of_dom. by exists sn0.
  - intros k se. rewrite HE. destruct (E g1 !! k) as [se1|] eqn:Hk; [|done].
    simpl. intros [= <-]. simpl.
    destruct (KG cg g1 k se1) as [He|(g0 & se0 & Hg0 & _)]; [|done| |].
    + rewrite Hg1. apply lookup_insert_eq.
    + rewrite He, (right_id_L ∅ (∪)). by destruct se1; simpl in *; subst.
    + exfalso. apply (is_fresh (dom (graphs w))). apply elem_of_dom.
      by exists g0.
Qed.
End Attributes.

(** ** The further properties on concrete schemes *)


Lemma valid_scheme_has_graph_witness :
  valid_has_graph
    (run_calls "mutual" mutual_strategy (λ _, ∅) (λ _, ∅) (λ _, ∅)
       [CallInvalidate; CallContract unlisted_graph; CallIsValid]
       (world_of (example_contract example_graph init_world))).2.
Proof.
  apply (valid_scheme_has_graph "mutual" mutual_strategy (λ _, ∅) (λ _, ∅)
           (λ _, ∅)
           [CallInvalidate; CallContract unlisted_graph; CallIsValid]
           (world_of (example_contract example_graph init_world))).
  intros _. split.
  - exists (fresh (dom (graphs init_world))). split.
    + apply (bool_decide_unpack _). vm_compute. exact I.
    + apply (bool_decide_unpack _). vm_compute. exact I.
  - apply (bool_decide_unpack _). vm_compute. exact I.
Defined.

Lemma update_attr_default_functions_witness :
  let w := world_of (example_contract example_graph init_world) in
  update_attr (λ _, ∅) (λ _, ∅) (λ _, ∅) w = ([], w, inr tt).
Proof.
  apply (update_attr_default_functions
           (world_of (example_contract example_graph init_world))
           (fresh (dom (graphs init_world)))).
  - apply (bool_decide_unpack _). vm_compute. exact I.
  - apply (bool_decide_unpack _). vm_compute. exact I.
  - apply (bool_decide_unpack _). vm_compute. exact I.
Defined.

Lemma contract_keeps_old_objects_witness :
  let w := world_of (example_contract example_graph init_world) in
  let w' := world_of (example_contract example_graph w) in
  (∀ b, b ∈ dom (graphs w) → graphs w' !! b = graphs w !! b)
  ∧ (∀ a, a ∈ dom (supernodes w) → supernodes w' !! a = supernodes w !! a)
  ∧ (∀ n, n ∉ (example_table 2).*1 →
       node_supernode w' !! n = node_supernode w !! n).
Proof.
  apply (contract_keeps_old_objects "mutual" mutual_strategy (λ _, ∅)
           (λ _, ∅) (λ _, ∅) example_graph
           (world_of (example_contract example_graph init_world))
           (example_table 2)).
  - vm_compute. reflexivity.
  - apply (bool_decide_unpack _). vm_compute. exact I.
Defined.

Lemma contract_order_independent_witness :
  (∃ cg1, outcome_of (example_contract example_graph init_world)
          = inr (Some cg1))
  ∧ (∃ cg2, outcome_of (example_contract reordered_graph init_world)
            = inr (Some cg2))
  ∧ is_Some (structure (world_of (example_contract example_graph init_world)))
  ∧ structure (world_of (example_contract example_graph init_world))
    = structure (world_of (example_contract reordered_graph init_world)).
Proof.
  apply (contract_order_independent "mutual" mutual_strategy (λ _, ∅)
           (λ _, ∅) (λ _, ∅) example_graph reordered_graph init_world
           init_world (example_table 0) (reordered_table 0)).
  - vm_compute. reflexivity.
  - vm_compute. reflexivity.
  - apply (bool_decide_unpack _). vm_compute. exact I.
  - apply (bool_decide_unpack _). vm_compute. exact I.
  - apply (bool_decide_unpack _). vm_compute. exact I.
Defined.

Lemma contract_of_empty_graph_witness :
  let w := world_of (example_contract example_graph init_world) in
  let r := example_contract (mkLowerGraph [] []) w in
  let w' := world_of r in
  ∃ cg,
    outcome_of r = inr (Some cg)
    ∧ graphs w !! cg = None
    ∧ graphs w' !! cg = Some (mkDecGraph ∅ ∅)
    ∧ dec_graph (self w') = Some cg
    ∧ supernode_table (self w') = ∅
    ∧ contraction_sets_table (self w') = Some []
    ∧ supernode_ids (events_of r) = []
    ∧ _supernode_id_counter (self w') = _supernode_id_counter (self w)
    ∧ _valid (self w') = true.
Proof.
  apply (contract_of_empty_graph "mutual" mutual_strategy (λ _, ∅)
           (λ _, ∅) (λ _, ∅) (mkLowerGraph [] [])
           (world_of (example_contract example_graph init_world)));
    reflexivity.
Defined.

Lemma contract_unlisted_endpoint_witness :
  let r := contract "none" unlisted_strategy (λ _, ∅) (λ _, ∅) (λ _, ∅)
             unlisted_graph init_world in
  let w' := world_of r in
  outcome_of r = inl AttributeError
  ∧ supernode_ids (events_of r)
    = seqZ (_supernode_id_counter (self init_world) + 1)
        (Z.of_nat (size (signatures [("a", []); ("b", [])])))
  ∧ dec_graph (self w') = dec_graph (self init_world)
  ∧ _valid (self w') = _valid (self init_world)
  ∧ contraction_sets_table (self w') = Some [("a", []); ("b", [])].
Proof.
  apply (contract_unlisted_endpoint "none" unlisted_strategy (λ _, ∅)
           (λ _, ∅) (λ _, ∅) unlisted_graph init_world
           [("a", []); ("b", [])] [("a", "b")] ("b", "c") [("c", "a")]).
  - reflexivity.
  - reflexivity.
  - apply (bool_decide_unpack _). vm_compute. exact I.
  - right. split; [|reflexivity].
    apply (bool_decide_unpack _). vm_compute. exact I.
Defined.

Lemma rebuild_gives_new_keys_witness :
  let w1 := world_of (example_contract example_graph init_world) in
  let w2 := world_of (example_contract reordered_graph w1) in
  ∃ cg1 cg2 g1 g2,
    outcome_of (example_contract example_graph init_world)
    = inr (Some cg1)
    ∧ outcome_of (example_contract reordered_graph w1) = inr (Some cg2)
    ∧ cg1 ≠ cg2
    ∧ graphs w1 !! cg1 = Some g1
    ∧ graphs w2 !! cg2 = Some g2
    ∧ ∀ k, is_Some (V g1 !! k) → V g2 !! k = None.
Proof.
  apply (rebuild_gives_new_keys "mutual" mutual_strategy (λ _, ∅) (λ _, ∅)
           (λ _, ∅) example_graph reordered_graph init_world
           (example_table 0) (reordered_table 2)).
  - vm_compute. reflexivity.
  - apply (bool_decide_unpack _). vm_compute. exact I.
  - vm_compute. reflexivity.
  - apply (bool_decide_unpack _). vm_compute. exact I.
Defined.

Lemma contract_attributes_witness :
  let r := contract "mutual" mutual_strategy key_attr weight_attr (λ _, ∅)
             example_graph init_world in
  let w' := world_of r in
  ∃ cg g,
    outcome_of r = inr (Some cg)
    ∧ graphs w' !! cg = Some g
    ∧ (∀ k a, V g !! k = Some a →
         ∃ sn, supernodes w' !! a = Some sn
           ∧ sn_attr sn
             = key_attr
                 (mkSupernode (sn_key sn) (sn_level sn) (sn_set_of_sets sn)
                    (sn_dec sn) ∅))
    ∧ (∀ k se, E g !! k = Some se →
         se_attr se
         = weight_attr
             (mkSuperedge (se_tail se) (se_head se) (se_level se)
                (se_dec se) ∅)).
Proof.
  apply (contract_attributes "mutual" mutual_strategy key_attr weight_attr
           (λ _, ∅) example_graph init_world (example_table 0)).
  - vm_compute. reflexivity.
  - apply (bool_decide_unpack _). vm_compute. exact I.
Defined.

(** ** Identifiers as the callers receive them *)

Lemma issued_within_nil c c' : (c ≤ c')%Z → issued_within c c' [].
Proof.
  intros ?. split_and!; [done|by intros ? ?%elem_of_nil|].
  intros i j x y _ Hi. by rewrite lookup_nil in Hi.
Qed.


Lemma issued_within_app c c1 c' l1 l2 :
  issued_within c c1 l1 → issued_within c1 c' l2 →
  issued_within c c' (l1 ++ l2).
Proof.
  intros (? & Hb1 & Hi1) (? & Hb2 & Hi2). split_and!; [lia| |].
  - intros x [Hx|Hx]%elem_of_app.
    + specialize (Hb1 _ Hx). lia.
    + specialize (Hb2 _ Hx). lia.
  - intros i j x y Hij Hi Hj.
    apply lookup_app_Some in Hi as [Hi|[? Hi]];
      apply lookup_app_Some in Hj as [Hj|[? Hj]].
    + by apply (Hi1 i j).
    + apply list_elem_of_lookup_2 in Hi, Hj.
      specialize (Hb1 _ Hi). specialize (Hb2 _ Hj). lia.
    + apply lookup_lt_Some in Hj. lia.
    + apply (Hi2 (i - length l1) (j - length l1)); [lia|done|done].
Qed.


(** A getter returns the identifier it logs, which is the counter it
    leaves. *)
Lemma get_supernode_id_run w :
  _get_supernode_id w
  = ([EvSupernodeId (_supernode_id_counter (self w) + 1)],
     set_self (with_supernode_id_counter
                 (_supernode_id_counter (self w) + 1)) w,
     inr (_supernode_id_counter (self w) + 1)%Z).
Proof. reflexivity. Qed.

Lemma get_component_set_id_run w :
  _get_component_set_id w
  = ([EvComponentSetId (_component_set_id_counter (self w) + 1)],
     set_self (with_component_set_id_counter
                 (_component_set_id_counter (self w) + 1)) w,
     inr (_component_set_id_counter (self w) + 1)%Z).
Proof. reflexivity. Qed.

Global Instance counters_le_preorder : PreOrder counters_le.
Proof.
  split.
  - intros w. by split.
  - intros w1 w2 w3 [??] [??]. split; lia.
Qed.

Section Issuing.
Variable contraction_name : string.
Variable contraction_function :
  LowerGraph → Strategy (list (string * list ComponentSet)).
Variable _supernode_attr_function : Supernode → gmap string string.
Variable _superedge_attr_function : Superedge → gmap string string.
Variable _c_set_attr_function : gset string → gmap string string.

Local Abbreviation run_call :=
  (run_call contraction_name contraction_function _supernode_attr_function
     _superedge_attr_function _c_set_attr_function).
Local Abbreviation run_calls :=
  (run_calls contraction_name contraction_function _supernode_attr_function
     _superedge_attr_function _c_set_attr_function).
Local Abbreviation issued_supernode_ids :=
  (issued_supernode_ids contraction_name contraction_function
     _supernode_attr_function _superedge_attr_function _c_set_attr_function).
Local Abbreviation issued_component_set_ids :=
  (issued_component_set_ids contraction_name contraction_function
     _supernode_attr_function _superedge_attr_function _c_set_attr_function).
Local Abbreviation issued_ids :=
  (issued_ids contraction_name contraction_function
     _supernode_attr_function _superedge_attr_function _c_set_attr_function).

(** What a call hands out is what it logs. *)
Lemma issued_supernode_ids_logged c w :
  issued_supernode_ids c w = supernode_ids (run_call c w).1.
Proof. by destruct c. Qed.

Lemma issued_component_set_ids_logged c w :
  issued_component_set_ids c w = component_set_ids (run_call c w).1.
Proof. by destruct c. Qed.

Lemma issued_ids_logged cs w :
  issued_ids cs w
  = (supernode_ids (run_calls cs w).1, component_set_ids (run_calls cs w).1).
Proof.
  revert w. induction cs as [|c cs IH]; intros w; [done|].
  simpl. rewrite IH. simpl. unfold supernode_ids, component_set_ids.
  rewrite !omap_app. f_equal; f_equal.
  - apply issued_supernode_ids_logged.
  - apply issued_component_set_ids_logged.
Qed.

End Issuing.

Lemma same_table_refl t : same_table t t.
Proof.
  apply Forall_Forall2_diag, Forall_true. intros row. split; [done|].
  by apply Forall_Forall2_diag, Forall_true.
Qed.

Lemma same_table_decorate f t : same_table t (decorate_table f t).
Proof.
  unfold decorate_table. apply Forall2_fmap_r, Forall_Forall2_diag, Forall_true.
  intros row. split; [done|]. simpl.
  by apply Forall2_fmap_r, Forall_Forall2_diag, Forall_true.
Qed.

Section UpdateAttrTable.
Variable _supernode_attr_function : Supernode → gmap string string.
Variable _superedge_attr_function : Superedge → gmap string string.
Variable _c_set_attr_function : gset string → gmap string string.

Local Abbreviation update_attr :=
  (update_attr _supernode_attr_function _superedge_attr_function
     _c_set_attr_function).

(** The table [update_attr] leaves: the decorated table when it returns,
    the table it found when it raises. *)
Lemma update_attr_table w :
  contraction_sets_table (self (world_of (update_attr w)))
  = match outcome_of (update_attr w) with
    | inr _ =>
        decorate_table _c_set_attr_function
          <$> contraction_sets_table (self w)
    | inl _ => contraction_sets_table (self w)
    end.
Proof.
  unfold_update_attr. unfold bind, get, world_of, outcome_of. simpl.
  destruct (dec_graph (self w)) as [ga|] eqn:Hga; simpl; [|done].
  destruct (graphs w !! ga) as [g|] eqn:Hg; simpl; [|done].
  destruct (decoration_loops _supernode_attr_function
              _superedge_attr_function w ga g)
    as (w1 & w2 & Hrun1 & Hrun2 & _ & Hself).
  rewrite Hrun1, Hrun2. rewrite <-Hself.
  destruct (contraction_sets_table (self w2)) eqn:Ht; simpl; done.
Qed.

(** [update_attr] draws no identifier and calls no hook.  It returns
    exactly when the scheme holds a reference to a graph object and a
    table; otherwise, as on a scheme that was never contracted, it raises
    [AttributeError].  Whatever the outcome, only attribute maps differ
    between the world it started from and the world it leaves: the
    scheme's other attributes, the back-references, and the members and
    edges of every supernode and superedge are as before, and the table
    lists the same nodes with component sets of the same keys and
    members; it is the decorated table when [update_attr] returns and the
    table as it was when it raises. *)
Theorem update_attr_changes_attributes_only w :
  let r := update_attr w in
  events_of r = []
  ∧ attr_equiv w (world_of r)
  ∧ option_Forall2 same_table (contraction_sets_table (self w))
      (contraction_sets_table (self (world_of r)))
  ∧ contraction_sets_table (self (world_of r))
    = match outcome_of r with
      | inr _ =>
          decorate_table _c_set_attr_function
            <$> contraction_sets_table (self w)
      | inl _ => contraction_sets_table (self w)
      end
  ∧ (outcome_of r = inr tt
     ↔ ∃ ga, dec_graph (self w) = Some ga
             ∧ is_Some (graphs w !! ga)
             ∧ is_Some (contraction_sets_table (self w)))
  ∧ (outcome_of r = inr tt ∨ outcome_of r = inl AttributeError).
Proof.
  pose proof (update_attr_table w) as Htbl.
  destruct (update_attr_run _supernode_attr_function _superedge_attr_function
              _c_set_attr_function w) as (w' & Hrun & Heq).
  simpl. rewrite Hrun in Htbl. rewrite Hrun.
  unfold events_of, world_of, outcome_of in *. simpl in *.
  split_and!; try done.
  - rewrite Htbl.
    destruct (contraction_sets_table (self w)) as [t|];
      repeat case_match; simpl; constructor;
      apply same_table_refl || apply same_table_decorate.
  - destruct (dec_graph (self w)) as [ga|]; simpl.
    + destruct (graphs w !! ga) as [g|] eqn:Hg.
      * destruct (contraction_sets_table (self w)) as [t|].
        -- split; [|done]. intros _. exists ga. by rewrite Hg.
        -- split; [done|]. by intros (? & _ & _ & [? ?]).
      * split; [done|]. intros (ga' & [= <-] & [? ?] & _). congruence.
    + split; [done|]. by intros (? & ? & _).
  - repeat case_match; auto.
Qed.
End UpdateAttrTable.

Lemma issued_within_weaken c c1 c' l :
  (c ≤ c1)%Z → issued_within c1 c' l → issued_within c c' l.
Proof.
  intros ? H. apply (issued_within_app c c1 c' [] l); [|done].
  by apply issued_within_nil.
Qed.

Section IssuedConsecutive.
Variable contraction_name : string.
Variable contraction_function :
  LowerGraph → Strategy (list (string * list ComponentSet)).
Variable _supernode_attr_function : Supernode → gmap string string.
Variable _superedge_attr_function : Superedge → gmap string string.
Variable _c_set_attr_function : gset string → gmap string string.

Local Abbreviation run_calls :=
  (run_calls contraction_name contraction_function _supernode_attr_function
     _superedge_attr_function _c_set_attr_function).
Local Abbreviation issued_ids :=
  (issued_ids contraction_name contraction_function
     _supernode_attr_function _superedge_attr_function _c_set_attr_function).

(** The identifiers handed out over any sequence of [contract],
    [_get_supernode_id], [_get_component_set_id], [is_valid] and
    [invalidate] calls, that is the values the two getters return to the
    client and the identifiers drawn while [contract] runs, are
    consecutive: the [k]-th supernode identifier, counting from zero, is
    the value the supernode counter started with plus [k + 1] (so
    [1, 2, 3, ...] on a scheme fresh from [__init__]), the counter ends at
    its start value plus the number of identifiers handed out, and
    likewise for the component-set identifiers.  A getter returns the
    identifier it logs. *)
Theorem identifiers_are_consecutive cs w :
  let ids := issued_ids cs w in
  let w' := (run_calls cs w).2 in
  let c0 := _supernode_id_counter (self w) in
  let d0 := _component_set_id_counter (self w) in
  ids.1 = seqZ (c0 + 1) (Z.of_nat (length ids.1))
  ∧ _supernode_id_counter (self w') = (c0 + Z.of_nat (length ids.1))%Z
  ∧ ids.2 = seqZ (d0 + 1) (Z.of_nat (length ids.2))
  ∧ _component_set_id_counter (self w') = (d0 + Z.of_nat (length ids.2))%Z
  ∧ (∀ u, events_of (_get_supernode_id u)
          = EvSupernodeId <$> returned_id (_get_supernode_id u))
  ∧ (∀ u, events_of (_get_component_set_id u)
          = EvComponentSetId <$> returned_id (_get_component_set_id u)).
Proof.
  pose proof (run_calls_accounts contraction_name contraction_function
                _supernode_attr_function _superedge_attr_function
                _c_set_attr_function cs w) as (Hc & Hd & Hs & Hcs).
  simpl in *. rewrite issued_ids_logged. simpl. rewrite Hs, Hcs.
  rewrite !length_seqZ, !Z2Nat.id by lia.
  split_and!; [done|lia|done|lia|done|done].
Qed.
End IssuedConsecutive.

Section IssuedLifetime.
Variable contraction_name : string.
Variable contraction_function :
  LowerGraph → Strategy (list (string * list ComponentSet)).
Variable update_added_node : string → World → World * (Exn + unit).
Variable update_removed_node : string → World → World * (Exn + unit).
Variable update_added_edge : string * string → World → World * (Exn + unit).
Variable update_removed_edge :
  string * string → World → World * (Exn + unit).
Variable _supernode_attr_function : Supernode → gmap string string.
Variable _superedge_attr_function : Superedge → gmap string string.
Variable _c_set_attr_function : gset string → gmap string string.

Local Abbreviation hook_body :=
  (hook_body update_added_node update_removed_node update_added_edge
     update_removed_edge).
Local Abbreviation call_hook :=
  (call_hook update_added_node update_removed_node update_added_edge
     update_removed_edge).
Local Abbreviation update :=
  (update update_added_node update_removed_node update_added_edge
     update_removed_edge).
Local Abbreviation run_life_call :=
  (run_life_call contraction_name contraction_function update_added_node
     update_removed_node update_added_edge update_removed_edge
     _supernode_attr_function _superedge_attr_function _c_set_attr_function).
Local Abbreviation run_lifetime :=
  (run_lifetime contraction_name contraction_function update_added_node
     update_removed_node update_added_edge update_removed_edge
     _supernode_attr_function _superedge_attr_function _c_set_attr_function).




End IssuedLifetime.


(** The identifiers of that lifetime: the hook drew supernode identifier
    [4] for itself. *)
Lemma identifiers_never_reused_example :
  (run_lifetime "mutual" mutual_strategy (λ _ w, (w, inr tt)) drawing_hook
     (λ _ w, (w, inr tt)) (λ _ w, (w, inr tt)) (λ _, ∅) (λ _, ∅) (λ _, ∅)
     [Method (CallContract example_graph); Method CallGetSupernodeId;
      CallUpdate (mkQuadruple [] ["a"] [] []);
      Method (CallContract example_graph); Method CallGetComponentSetId;
      Method CallGetSupernodeId] init_world).1
  = ([1; 2; 3; 5; 6; 7]%Z, [1; 2; 3; 4; 5]%Z).
Proof. vm_compute. reflexivity. Qed.
